(** * hlltc: a HyperLogLog sketch with 4-bit tail-cut registers

    A shallow embedding of [hlltc.go] (package [hlltc]) and the proofs of
    the properties its specification states about it.

    Go's fixed-width unsigned integers are integers in [Z] with the
    wrap-around written out ([u8], [u32]); a Go run-time panic (index out
    of range, nil dereference) is the outcome [Panic] of the [exec] monad;
    the [*Sketch] pointers handed to [Merge] are locations of a heap, so
    that a sketch merged with itself is one object and not two copies. *)

From stdpp Require Import base numbers list gmap sorting.

Local Open Scope Z_scope.

(** ** Machine integers and constants *)

Definition u8 (x : Z) : Z := x mod 256.
Definition u32 (x : Z) : Z := x mod 2 ^ 32.

Definition capacity : Z := 16.
Definition pp : Z := 25.
Definition mp : Z := u32 (Z.shiftl 1 pp).
Definition version : Z := 1.

Definition is_u8 (x : Z) : Prop := 0 <= x < 256.
Definition is_u32 (x : Z) : Prop := 0 <= x < 2 ^ 32.

(** ** Outcomes of a Go call: it returns, or the run time panics *)

Inductive exec (A : Type) : Type :=
| Ok (a : A)
| Panic.
Arguments Ok {A} a.
Arguments Panic {A}.

#[global] Instance exec_ret : MRet exec := @Ok.
#[global] Instance exec_bind : MBind exec :=
  fun A B f x => match x with Ok a => f a | Panic => Panic end.

(** The error values the package returns. *)
Inductive error : Type :=
| ErrPrecisionRange      (* "p has to be >= 4 and <= 18" *)
| ErrPrecisionsDiffer    (* "precisions must be equal" *)
| ErrFormat.             (* an error of the compressed list's decoder *)

(** ** Register array: two 4-bit counters in each byte *)

Definition reg : Type := Z.

(** The two halves of a byte, as [UnmarshalBinary] reads them:
    [uint8(r<<4>>4)] and [uint8(r>>4)]. *)
Definition lo_nibble (r : reg) : Z := Z.shiftr (u8 (Z.shiftl r 4)) 4.
Definition hi_nibble (r : reg) : Z := u8 (Z.shiftr r 4).

(** Modelled from the spec: the methods [get] and [set] of [reg] are not in
    hlltc.go.  "Conceptually m small unsigned counters (width 4 bits, range
    0-15) ... physically packed two per byte": offset 0 is the high half and
    offset 1 the low half of the byte, as [UnmarshalBinary] reads them.
    For a value in the range 0-15 [set] puts it into its half and leaves
    the other half alone.  The spec says nothing of [set] handed a larger
    value: what the byte becomes then is the parameter [set_wide], of
    which only the type, a byte, is known. *)
Class RegisterSet : Type := set_wide : reg -> Z -> Z -> Z.

Definition reg_get (r : reg) (offset : Z) : Z :=
  if offset =? 0 then hi_nibble r else lo_nibble r.

Definition reg_set `{RegisterSet} (r : reg) (offset val : Z) : reg :=
  if (0 <=? val) && (val <? 16) then
    if offset =? 0 then Z.lor (lo_nibble r) (Z.shiftl val 4)
    else Z.lor (Z.shiftl (hi_nibble r) 4) val
  else u8 (set_wide r offset val).

(** [fields] and [nz] are the two members of [registers] that hlltc.go
    touches. *)
Record registers : Type := mkRegisters {
  fields : list reg;
  nz : Z
}.

(** The stored values, bucket 0 first. *)
Definition regs_values (rs : registers) : list Z :=
  flat_map (fun r => [reg_get r 0; reg_get r 1]) (fields rs).

Definition count_zeros (vs : list Z) : Z :=
  Z.of_nat (length (filter (fun v => v = 0) vs)).

(** Modelled from the spec: [newRegisters] is not in hlltc.go.  "Register
    Array length is exactly m logical counters", two per byte; [nz] starts at
    the number of counters, from which [UnmarshalBinary] counts down. *)
Definition newRegisters (size : Z) : registers :=
  {| fields := replicate (Z.to_nat (size / 2)) 0; nz := size |}.

(** Modelled from the spec: [registers.get] and [registers.set] are not in
    hlltc.go.  "Bounds-checked access to bucket i's stored (rebased) value;
    out-of-range index is a programming-error contract violation": a panic.
    Bucket [2*j] is offset 0 of byte [j] and bucket [2*j+1] offset 1, as
    [Merge] pairs them. *)
Definition regs_get (rs : registers) (i : Z) : exec Z :=
  match fields rs !! Z.to_nat (i / 2) with
  | Some r => Ok (reg_get r (i mod 2))
  | None => Panic
  end.

Definition regs_set `{RegisterSet} (rs : registers) (i val : Z) : exec registers :=
  match fields rs !! Z.to_nat (i / 2) with
  | Some r =>
      Ok {| fields := <[Z.to_nat (i / 2) := reg_set r (i mod 2) val]> (fields rs);
            nz := if reg_get r (i mod 2) =? 0 then u32 (nz rs - 1) else nz rs |}
  | None => Panic
  end.

(** Modelled from the spec: [registers.min] is not in hlltc.go.  "Minimum
    stored value across all buckets"; over no bucket at all it is the
    largest [uint8]. *)
Definition regs_min (rs : registers) : Z :=
  foldr Z.min 255 (regs_values rs).

(** Modelled from the spec: [registers.zeros] is not in hlltc.go.  "Count of
    buckets whose stored value is exactly 0." *)
Definition regs_zeros (rs : registers) : Z := count_zeros (regs_values rs).

(** Modelled from the spec: [registers.rebase] is not in hlltc.go.
    "Subtracts delta from every stored value (floored at 0)." *)
Definition reg_rebase `{RegisterSet} (delta : Z) (r : reg) : reg :=
  reg_set (reg_set r 0 (Z.max 0 (reg_get r 0 - delta)))
          1 (Z.max 0 (reg_get r 1 - delta)).

Definition regs_rebase `{RegisterSet} (rs : registers) (delta : Z) : registers :=
  let fs := map (reg_rebase delta) (fields rs) in
  {| fields := fs;
     nz := count_zeros (flat_map (fun r => [reg_get r 0; reg_get r 1]) fs) |}.

(** ** Byte slices *)

(** A Go [[]byte]: the [len(data)] bytes it holds, and the bytes of its
    backing array that lie between its length and its capacity. *)
Record byteslice : Type := mkSlice {
  elems : list Z;
  spare : list Z
}.

(** The positions [i] up to [j] of a list, where it has them. *)
Definition window (l : list Z) (i j : Z) : exec (list Z) :=
  if (0 <=? i) && (i <=? j) && (j <=? Z.of_nat (length l))
  then Ok (take (Z.to_nat (j - i)) (drop (Z.to_nat i) l))
  else Panic.

(** [data[i]]: the index is checked against the length. *)
Definition index (data : byteslice) (i : Z) : exec Z :=
  if i <? 0 then Panic
  else match elems data !! Z.to_nat i with Some x => Ok x | None => Panic end.

(** [data[i:j]] on a slice: the bounds are checked against the capacity,
    not the length, so the bytes may come from beyond the length.  Only
    the bytes of the result are used afterwards. *)
Definition slice (data : byteslice) (i j : Z) : exec (list Z) :=
  window (elems data ++ spare data) i j.

(** [data[i:]]: the upper bound is the length, which [i] may not exceed. *)
Definition slice_from (data : byteslice) (i : Z) : exec (list Z) :=
  window (elems data) i (Z.of_nat (length (elems data))).

(** [binary.BigEndian.Uint32] of the Go standard library. *)
Definition BigEndian_Uint32 (bs : list Z) : exec Z :=
  match bs with
  | b0 :: b1 :: b2 :: b3 :: _ => Ok (b0 * 2 ^ 24 + b1 * 2 ^ 16 + b2 * 2 ^ 8 + b3)
  | _ => Panic
  end.

(** The four bytes [byte(x>>24), byte(x>>16), byte(x>>8), byte(x)] that
    [MarshalBinary] writes for a length. *)
Definition put_be32 (x : Z) : list Z :=
  [u8 (Z.shiftr x 24); u8 (Z.shiftr x 16); u8 (Z.shiftr x 8); u8 x].

(** A left fold whose body may panic: a [for] loop over a list. *)
Fixpoint exec_foldl {A B : Type} (f : A -> B -> exec A) (a : A) (l : list B)
  : exec A :=
  match l with
  | [] => Ok a
  | x :: l' => match f a x with Ok a' => exec_foldl f a' l' | Panic => Panic end
  end.

(** What a fallible Go function returns: a value, or an error. *)
Inductive result (A : Type) : Type :=
| Val (a : A)
| Err (e : error).
Arguments Val {A} a.
Arguments Err {A} e.

(** ** Compressed list of sparse entries *)

(** Modelled from the spec: the type [compressedList] and its methods are
    not in hlltc.go, which only reads its member [count].  "An ascending,
    duplicate-free sequence of Sparse Entries, stored as successive deltas
    from the previous absolute value, each delta variable-length encoded;
    tracks total decoded element count." *)
Record compressedList : Type := mkCompressedList {
  count : Z;
  cl_last : Z;
  cl_bytes : list Z
}.

(** Modelled from the spec: "a variable-length integer (7 data bits per
    byte, continuation bit set on all but the last byte)", low group
    first; a 32-bit delta takes at most five bytes. *)
Fixpoint varint_put (more : nat) (x : Z) : list Z :=
  match more with
  | O => [x mod 128]
  | S n => if x <? 128 then [x] else (x mod 128 + 128) :: varint_put n (x / 128)
  end.

(** Modelled from the spec: "decoding reconstructs absolute values via
    running sum".  [acc] and [mul] carry the groups of the delta read so
    far; [prev] is the previous absolute value. *)
Fixpoint cl_decode (bs : list Z) (prev acc mul : Z) : list Z :=
  match bs with
  | [] => []
  | x :: bs' =>
      if x <? 128
      then let v := u32 (prev + (acc + x * mul)) in v :: cl_decode bs' v 0 1
      else cl_decode bs' prev (acc + (x - 128) * mul) (mul * 128)
  end.

(** Modelled from the spec: [newCompressedList] is not in hlltc.go.  A
    list is created empty ("Sparse state, empty accumulator/list"); the
    argument is a capacity. *)
Definition newCompressedList (size : Z) : compressedList :=
  {| count := 0; cl_last := 0; cl_bytes := [] |}.

(** Modelled from the spec: [Append] is not in hlltc.go.  "Append-only":
    the delta from the previous absolute value goes to the end of the
    stream as a varint, and the element count goes up by one. *)
Definition Append (v : compressedList) (x : Z) : compressedList :=
  {| count := count v + 1;
     cl_last := x;
     cl_bytes := cl_bytes v ++ varint_put 4 (u32 (x - cl_last v)) |}.

(** Modelled from the spec: the iterator ("forward iteration with a
    peek-without-consume operation") is the list of the entries still to
    come: [HasNext] is "not empty", [Peek] its head, [Next] takes the
    head off. *)
Definition Iter (v : compressedList) : list Z := cl_decode (cl_bytes v) 0 0 1.

(** Modelled from the spec: [Len] is "the Compressed List's element
    count". *)
Definition Len (v : compressedList) : Z := count v.

(** Modelled from the spec: the list's "own serialization (its encoded
    delta/varint byte stream, self-delimiting or length-prefixed)": the
    element count, the last absolute value and the length of the stream,
    four big-endian bytes each, then the stream.  Decoding fails on a
    buffer that is too short or whose length disagrees with the prefix. *)
Definition cl_MarshalBinary (v : compressedList) : result (list Z) :=
  Val (put_be32 (count v) ++ put_be32 (cl_last v)
       ++ put_be32 (Z.of_nat (length (cl_bytes v))) ++ cl_bytes v).

Definition cl_UnmarshalBinary (v : compressedList) (data : list Z)
  : option error * compressedList :=
  match data with
  | c0 :: c1 :: c2 :: c3 :: l0 :: l1 :: l2 :: l3 :: n0 :: n1 :: n2 :: n3 :: bs =>
      if n0 * 2 ^ 24 + n1 * 2 ^ 16 + n2 * 2 ^ 8 + n3 =? Z.of_nat (length bs)
      then (None, {| count := c0 * 2 ^ 24 + c1 * 2 ^ 16 + c2 * 2 ^ 8 + c3;
                     cl_last := l0 * 2 ^ 24 + l1 * 2 ^ 16 + l2 * 2 ^ 8 + l3;
                     cl_bytes := bs |})
      else (Some ErrFormat, v)
  | _ => (Some ErrFormat, v)
  end.

(** ** The accumulator [tmpSet]: a Go map used as a set; [None] is nil *)

Definition set_len (s : option (gset Z)) : Z :=
  match s with Some x => Z.of_nat (size x) | None => 0 end.

(** The keys a [range] over the map visits (Go leaves the order open; the
    model takes the order of [elements]). *)
Definition set_keys (s : option (gset Z)) : list Z :=
  match s with Some x => elements x | None => [] end.

(** Modelled from the spec: [set.add] is not in hlltc.go.  "Adds an
    encoded entry to the Accumulator (duplicates collapse)"; writing to a
    nil map panics. *)
Definition set_add (s : option (gset Z)) (k : Z) : exec (gset Z) :=
  match s with Some x => Ok ({[k]} ∪ x) | None => Panic end.

(** Modelled from the spec: [set.MarshalBinary] is not in hlltc.go.
    "4-byte big-endian count of Accumulator entries, followed by that many
    4-byte big-endian entries." *)
Definition set_MarshalBinary (s : option (gset Z)) : result (list Z) :=
  Val (put_be32 (set_len s) ++ flat_map put_be32 (set_keys s)).

(** ** The sketch *)

(** What hlltc.go uses and does not define: [float64] with its arithmetic
    and conversions; the package's [hash]; the hash codec [encodeHash],
    [decodeHash], [getPosVal]; the numeric helpers [alpha], [beta],
    [linearCount].  They are an interface, and the development holds for
    every implementation of it, and for every [set_wide]. *)
Class FloatType : Type := float64 : Type.

Class Externals `{FloatType} `{RegisterSet} : Type := {
  f_add : float64 -> float64 -> float64;
  f_sub : float64 -> float64 -> float64;
  f_mul : float64 -> float64 -> float64;
  f_div : float64 -> float64 -> float64;
  f_of_Z : Z -> float64;          (* float64(x) of an integer x *)
  f_to_uint64 : float64 -> Z;     (* uint64(x) of a float x *)
  f_zero : float64;
  f_half : float64;               (* the constant 0.5 *)
  f_pow2neg : Z -> float64;       (* 2^-k *)
  alpha : float64 -> float64;
  beta : float64 -> float64;
  linearCount : Z -> Z -> float64;
  hash : list Z -> Z;
  encodeHash : Z -> Z -> Z -> Z;
  decodeHash : Z -> Z -> Z -> Z * Z;
  getPosVal : Z -> Z -> Z * Z
}.

Section Hlltc.

Context {H : FloatType} {RS : RegisterSet} {H0 : Externals}.

(** [type Sketch struct]; a nil pointer, or nil map, is [None].  The
    member [hash] only ever holds the package's [hash] function, which
    [New] puts there: [sk_hash] tells whether it does, or is nil. *)
Record Sketch : Type := mkSketch {
  sk_regs : option registers;
  sk_m : Z;
  sk_p : Z;
  sk_b : Z;
  sk_alpha : float64;
  sk_sparse : bool;
  sk_sparseList : option compressedList;
  sk_tmpSet : option (gset Z);
  sk_hash : bool
}.

Definition set_regs (sk : Sketch) (x : option registers) : Sketch :=
  mkSketch x (sk_m sk) (sk_p sk) (sk_b sk) (sk_alpha sk) (sk_sparse sk)
           (sk_sparseList sk) (sk_tmpSet sk) (sk_hash sk).
Definition set_b (sk : Sketch) (x : Z) : Sketch :=
  mkSketch (sk_regs sk) (sk_m sk) (sk_p sk) x (sk_alpha sk) (sk_sparse sk)
           (sk_sparseList sk) (sk_tmpSet sk) (sk_hash sk).
Definition set_sparse (sk : Sketch) (x : bool) : Sketch :=
  mkSketch (sk_regs sk) (sk_m sk) (sk_p sk) (sk_b sk) (sk_alpha sk) x
           (sk_sparseList sk) (sk_tmpSet sk) (sk_hash sk).
Definition set_sparseList (sk : Sketch) (x : option compressedList) : Sketch :=
  mkSketch (sk_regs sk) (sk_m sk) (sk_p sk) (sk_b sk) (sk_alpha sk)
           (sk_sparse sk) x (sk_tmpSet sk) (sk_hash sk).
Definition set_tmpSet (sk : Sketch) (x : option (gset Z)) : Sketch :=
  mkSketch (sk_regs sk) (sk_m sk) (sk_p sk) (sk_b sk) (sk_alpha sk)
           (sk_sparse sk) (sk_sparseList sk) x (sk_hash sk).

(** Dereferencing [sk.regs] and [sk.sparseList]; nil panics. *)
Definition the_regs (sk : Sketch) : exec registers :=
  match sk_regs sk with Some rs => Ok rs | None => Panic end.
Definition the_list (sk : Sketch) : exec compressedList :=
  match sk_sparseList sk with Some l => Ok l | None => Panic end.

(** [func New(precision uint8)]: a fresh sketch, or an error. *)
Definition New (precision : Z) : result Sketch :=
  if (precision <? 4) || (18 <? precision) then Err ErrPrecisionRange
  else
    let m := u32 (2 ^ precision) in
    Val {| sk_regs := None;
           sk_m := m;
           sk_p := precision;
           sk_b := 0;
           sk_alpha := alpha (f_of_Z m);
           sk_sparse := true;
           sk_sparseList := Some (newCompressedList m);
           sk_tmpSet := Some ∅;
           sk_hash := true |}.

(** [func (sk *Sketch) insert(i uint32, r uint8)] *)
Definition insert (sk : Sketch) (i r : Z) : exec Sketch :=
  sk1 ← (if capacity <=? u8 (r - sk_b sk) then
           rs ← the_regs sk;
           let db := regs_min rs in
           if 0 <? db
           then Ok (set_regs (set_b sk (u8 (sk_b sk + db)))
                             (Some (regs_rebase rs db)))
           else Ok sk
         else Ok sk);
  if sk_b sk1 <? r then
    let val := Z.min (u8 (r - sk_b sk1)) (capacity - 1) in
    rs ← the_regs sk1;
    v ← regs_get rs i;
    if v <? val
    then rs' ← regs_set rs i val; Ok (set_regs sk1 (Some rs'))
    else Ok sk1
  else Ok sk1.

(** The loop of [mergeSparse]: [it] is the iterator over the old list,
    [keys] the sorted keys from index [i] on, [newList] the list being
    built. *)
Fixpoint merge_loop (it : list Z) : list Z -> compressedList -> compressedList :=
  fix inner (keys : list Z) (newList : compressedList) : compressedList :=
    match it, keys with
    | [], [] => newList
    | [], x2 :: keys' => inner keys' (Append newList x2)
    | x1 :: it', [] => merge_loop it' [] (Append newList x1)
    | x1 :: it', x2 :: keys' =>
        if x1 =? x2 then merge_loop it' keys' (Append newList x1)
        else if x2 <? x1 then inner keys' (Append newList x2)
        else merge_loop it' keys (Append newList x1)
    end.

(** [func (sk *Sketch) mergeSparse()] *)
Definition mergeSparse (sk : Sketch) : exec Sketch :=
  if set_len (sk_tmpSet sk) =? 0 then Ok sk
  else
    let keys := merge_sort Z.le (set_keys (sk_tmpSet sk)) in
    l ← the_list sk;
    let newList := merge_loop (Iter l) keys (newCompressedList (sk_m sk)) in
    Ok (set_tmpSet (set_sparseList sk (Some newList)) (Some ∅)).

(** [func (sk *Sketch) toNormal()] *)
Definition toNormal (sk : Sketch) : exec Sketch :=
  sk1 ← (if 0 <? set_len (sk_tmpSet sk) then mergeSparse sk else Ok sk);
  let sk2 := set_regs sk1 (Some (newRegisters (sk_m sk1))) in
  l ← the_list sk2;
  sk3 ← exec_foldl
          (fun s k => let '(i, r) := decodeHash k (sk_p s) pp in
                      insert s (u32 i) (u8 r))
          sk2 (Iter l);
  Ok (set_sparseList (set_tmpSet (set_sparse sk3 false) None) None).

(** [func (sk *Sketch) Insert(e []byte)] *)
Definition Insert (sk : Sketch) (e : list Z) : exec Sketch :=
  x ← (if sk_hash sk then Ok (hash e) else Panic);
  if sk_sparse sk then
    ts ← set_add (sk_tmpSet sk) (u32 (encodeHash x (sk_p sk) pp));
    let sk1 := set_tmpSet sk (Some ts) in
    if sk_m sk1 <? u32 (u32 (set_len (sk_tmpSet sk1)) * 100) then
      sk2 ← mergeSparse sk1;
      l ← the_list sk2;
      if sk_m sk2 <? u32 (Len l) then toNormal sk2 else Ok sk2
    else Ok sk1
  else
    let '(i, r) := getPosVal x (sk_p sk) in
    insert sk (u32 i) (u8 r).

(** Modelled from the spec: [registers.sum] is not in hlltc.go.  "Returns
    the sum of 2^-(stored[i]+b) over all buckets." *)
Definition regs_sum (rs : registers) (base : Z) : float64 :=
  foldl (fun acc v => f_add acc (f_pow2neg (v + base))) f_zero (regs_values rs).

(** [func (sk *Sketch) Estimate() uint64]; the sparse branch folds the
    accumulator, so the receiver's new state is returned too. *)
Definition Estimate (sk : Sketch) : exec (Z * Sketch) :=
  if sk_sparse sk then
    sk1 ← mergeSparse sk;
    l ← the_list sk1;
    Ok (f_to_uint64 (linearCount mp (u32 (mp - u32 (count l)))), sk1)
  else
    rs ← the_regs sk;
    let sum := regs_sum rs (sk_b sk) in
    let ez := f_of_Z (regs_zeros rs) in
    let m := f_of_Z (sk_m sk) in
    let est :=
      if sk_b sk =? 0
      then f_add (f_div (f_mul (f_mul (sk_alpha sk) m) (f_sub m ez))
                        (f_add sum (beta ez))) f_half
      else f_add (f_div (f_mul (f_mul (sk_alpha sk) m) m) sum) f_half in
    Ok (f_to_uint64 (f_add est f_half), sk).

(** *** Merge, on a heap of sketches *)

(** [Merge] takes two pointers, which may be the same one: every read of
    [sk.x] and [other.x] is a read of the heap as it is at that point. *)
Definition deref (h : gmap positive Sketch) (l : positive) : exec Sketch :=
  match h !! l with Some s => Ok s | None => Panic end.

(** The body of both loops of the sparse branch, for one entry [k]. *)
Definition merge_entry (sk other : positive) (h : gmap positive Sketch) (k : Z)
  : exec (gmap positive Sketch) :=
  o ← deref h other;
  let '(i, r) := decodeHash k (sk_p o) pp in
  s ← deref h sk;
  rs ← the_regs s;
  v ← regs_get rs (u32 i);
  if v <? u8 r
  then rs' ← regs_set rs (u32 i) (u8 r); Ok (<[sk := set_regs s (Some rs')]> h)
  else Ok h.

(** One half of the body of the dense loop: bucket [j] of the receiver
    against the value [v] read from [other]. *)
Definition merge_bucket (sk : positive) (h : gmap positive Sketch) (j v : Z)
  : exec (gmap positive Sketch) :=
  s ← deref h sk;
  rs ← the_regs s;
  cur ← regs_get rs j;
  if cur <? v
  then rs' ← regs_set rs j v; Ok (<[sk := set_regs s (Some rs')]> h)
  else Ok h.

(** The body of the dense loop, for index [i] of [other.regs.fields]. *)
Definition merge_field (sk other : positive) (h : gmap positive Sketch) (i : nat)
  : exec (gmap positive Sketch) :=
  o ← deref h other;
  ors ← the_regs o;
  v ← match fields ors !! i with Some v => Ok v | None => Panic end;
  h1 ← merge_bucket sk h (u32 (u32 (Z.of_nat i) * 2)) (reg_get v 0);
  merge_bucket sk h1 (u32 (1 + u32 (Z.of_nat i) * 2)) (reg_get v 1).

(** [func (sk *Sketch) Merge(other *Sketch) error]; the result is the
    returned error ([None] is nil) and the heap afterwards. *)
Definition Merge (h : gmap positive Sketch) (sk : positive) (other : option positive)
  : exec (option error * gmap positive Sketch) :=
  match other with
  | None => Ok (None, h)
  | Some other =>
      s ← deref h sk;
      o ← deref h other;
      if negb (sk_p s =? sk_p o) then Ok (Some ErrPrecisionsDiffer, h)
      else
        h1 ← (if sk_sparse s
              then s' ← toNormal s; Ok (<[sk := s']> h)
              else Ok h);
        o1 ← deref h1 other;
        if sk_sparse o1 then
          h2 ← exec_foldl (merge_entry sk other) h1 (set_keys (sk_tmpSet o1));
          o2 ← deref h2 other;
          l ← the_list o2;
          h3 ← exec_foldl (merge_entry sk other) h2 (Iter l);
          Ok (None, h3)
        else
          ors ← the_regs o1;
          h2 ← exec_foldl (merge_field sk other) h1 (seq 0 (length (fields ors)));
          Ok (None, h2)
  end.

(** *** Serialization *)

(** [func (sk *Sketch) MarshalBinary() (data []byte, err error)] *)
Definition MarshalBinary (sk : Sketch) : exec (result (list Z)) :=
  let data := [version] in
  let data := data ++ [u8 (sk_p sk)] in
  let data := data ++ [u8 (sk_b sk)] in
  if sk_sparse sk then
    let data := data ++ [1] in
    match set_MarshalBinary (sk_tmpSet sk) with
    | Err e => Ok (Err e)
    | Val tsdata =>
        let data := data ++ tsdata in
        l ← the_list sk;
        match cl_MarshalBinary l with
        | Err e => Ok (Err e)
        | Val sdata => Ok (Val (data ++ sdata))
        end
    end
  else
    let data := data ++ [0] in
    rs ← the_regs sk;
    let sz := Z.of_nat (length (fields rs)) in
    let data := data ++ put_be32 sz in
    Ok (Val (data ++ map u8 (fields rs))).

(** The loop that reads the accumulator's entries: [i] runs from 8 in
    steps of 4 while it is below [tsLastByte]. *)
Definition key_offsets (tsLastByte : Z) : list Z :=
  map (fun j => 8 + 4 * Z.of_nat j) (seq 0 (Z.to_nat ((tsLastByte - 8 + 3) / 4))).

Definition read_key (data : byteslice) (ts : gset Z) (i : Z) : exec (gset Z) :=
  bs ← slice data i (i + 4);
  k ← BigEndian_Uint32 bs;
  Ok ({[k]} ∪ ts).

(** The loop that fills the register array from the payload. *)
Definition read_field (st : nat * registers) (val : Z) : exec (nat * registers) :=
  let '(i, rs) := st in
  match fields rs !! i with
  | None => Panic
  | Some _ =>
      let rs := {| fields := <[i := val]> (fields rs); nz := nz rs |} in
      let rs := if 0 <? lo_nibble val
                then {| fields := fields rs; nz := u32 (nz rs - 1) |} else rs in
      let rs := if 0 <? hi_nibble val
                then {| fields := fields rs; nz := u32 (nz rs - 1) |} else rs in
      Ok (S i, rs)
  end.

(** [func (sk *Sketch) UnmarshalBinary(data []byte) error]; the result is
    the returned error and the receiver afterwards. *)
Definition UnmarshalBinary (sk : Sketch) (data : byteslice)
  : exec (option error * Sketch) :=
  _ ← index data 0;
  d1 ← index data 1;
  let p := u8 d1 in
  match New p with
  | Err e => Ok (Some e, sk)
  | Val newh =>
      let sk := newh in
      d2 ← index data 2;
      let sk := set_b sk (u8 d2) in
      d3 ← index data 3;
      if d3 =? 1 then
        let sk := set_sparse sk true in
        bs ← slice data 4 8;
        tssz ← BigEndian_Uint32 bs;
        let sk := set_tmpSet sk (Some ∅) in
        let tsLastByte := u32 (u32 (tssz * 4) + 8) in
        ts ← exec_foldl (read_key data) ∅ (key_offsets tsLastByte);
        let sk := set_tmpSet sk (Some ts) in
        rest ← slice_from data tsLastByte;
        l ← the_list sk;
        let '(err, l') := cl_UnmarshalBinary l rest in
        Ok (err, set_sparseList sk (Some l'))
      else
        let sk := set_sparse sk false in
        let sk := set_sparseList sk None in
        let sk := set_tmpSet sk None in
        bs ← slice data 4 8;
        dsz ← BigEndian_Uint32 bs;
        let sk := set_regs sk (Some (newRegisters (u32 (dsz * 2)))) in
        data ← slice_from data 8;
        rs ← the_regs sk;
        st ← exec_foldl read_field (O, rs) data;
        Ok (None, set_regs sk (Some st.2))
  end.

End Hlltc.

(** ** An implementation of the interface, to run the code on examples *)

(** Number of leading zeros of [w] read as a [width]-bit word, plus one. *)
Definition rank_of (width w : Z) : Z :=
  if w <=? 0 then width + 1 else width - Z.log2 w.

(** The layout of the HyperLogLog++ sparse entry: the index at precision
    [q] and, when its low [q - p] bits are all zero, an explicit rank and
    the flag bit 1.  Integer arithmetic stands in for [float64]. *)
#[local] Instance example_float : FloatType := Z.

(** In the example [set] handed a value above 15 keeps the low four bits
    of it. *)
#[local] Instance example_set : RegisterSet := fun r offset val =>
  if offset =? 0 then Z.lor (lo_nibble r) (u8 (Z.shiftl val 4))
  else Z.lor (Z.shiftl (hi_nibble r) 4) (Z.land val 15).

#[local] Instance example_externals : Externals := {|
  f_add := Z.add;
  f_sub := Z.sub;
  f_mul := Z.mul;
  f_div := Z.div;
  f_of_Z := fun x => x;
  f_to_uint64 := fun x => x mod 2 ^ 64;
  f_zero := 0;
  f_half := 0;
  f_pow2neg := fun k => 2 ^ (64 - k);
  alpha := fun m => 1;
  beta := fun ez => 0;
  linearCount := fun m v => m - v;
  hash := fun e => foldl (fun a x => (a * 256 + x) mod 2 ^ 64) 0 e;
  encodeHash := fun x p q =>
    let idx := x / 2 ^ (64 - q) in
    if idx mod 2 ^ (q - p) =? 0
    then idx * 128 + rank_of (64 - q) (x mod 2 ^ (64 - q)) * 2 + 1
    else idx * 2;
  decodeHash := fun k p q =>
    if k mod 2 =? 1
    then (k / 128 / 2 ^ (q - p), (k / 2) mod 64 + (q - p))
    else (k / 2 / 2 ^ (q - p), rank_of (q - p) ((k / 2) mod 2 ^ (q - p)));
  getPosVal := fun x p => (x / 2 ^ (64 - p), rank_of (64 - p) (x mod 2 ^ (64 - p)))
|}.

(** A dense sketch of precision 4 with the given base and packed bytes. *)
Definition dense4 `{Externals} (base : Z) (fs : list reg) (zeros : Z) : Sketch :=
  {| sk_regs := Some {| fields := fs; nz := zeros |};
     sk_m := 16; sk_p := 4; sk_b := base; sk_alpha := alpha (f_of_Z 16);
     sk_sparse := false; sk_sparseList := None; sk_tmpSet := None;
     sk_hash := true |}.

(** The sketch [New(p)] returns for a precision in range. *)
Definition fresh `{Externals} (p : Z) : Sketch :=
  {| sk_regs := None; sk_m := 2 ^ p; sk_p := p; sk_b := 0;
     sk_alpha := alpha (f_of_Z (2 ^ p));
     sk_sparse := true; sk_sparseList := Some (newCompressedList (2 ^ p));
     sk_tmpSet := Some ∅; sk_hash := true |}.

(** "True rank of a bucket = stored value + b": the unrebased value of
    bucket [i]. *)
Definition unrebased `{Externals} (s : Sketch) (i : Z) : exec Z :=
  rs ← the_regs s; v ← regs_get rs i; Ok (v + sk_b s).

(** The dense sketch [toNormal] makes of a fresh sparse one, and a run of
    [insert] calls on it. *)
Definition insert_all `{Externals} (s : exec Sketch) (l : list (Z * Z)) : exec Sketch :=
  foldl (fun s ir => s ≫= fun s => insert s ir.1 ir.2) s l.

(** Every bucket of a precision-4 sketch sees rank [r] once. *)
Definition rank_everywhere (r : Z) : list (Z * Z) :=
  map (fun i => (Z.of_nat i, r)) (seq 0 16).

(** ** Notions the statements use *)

(** The two offsets within a byte. *)
Definition offset_ok (o : Z) : Prop := o = 0 \/ o = 1.

(** The register array holds bytes. *)
Definition regs_wf (rs : registers) : Prop := Forall is_u8 (fields rs).

(** The stored value of bucket [j] of a dense sketch. *)
Definition stored `{Externals} (sk : Sketch) (j : Z) : exec Z :=
  rs ← the_regs sk; regs_get rs j.

(** When [insert] attempts a rebase, in terms of the rank and the base as
    integers: the rank is 16 or more above the base, or it is below the
    base by at most 240 (the 8-bit difference wraps around). *)
Definition rebase_due (b r : Z) : bool :=
  (16 <=? r - b) || ((r <? b) && (b - r <=? 240)).

(** The second statement of [insert], on the sketch the first one left. *)
Definition store_step `{Externals} (sk1 : Sketch) (i r : Z) : exec Sketch :=
  if sk_b sk1 <? r then
    let val := Z.min (u8 (r - sk_b sk1)) (capacity - 1) in
    rs ← the_regs sk1;
    v ← regs_get rs i;
    if v <? val
    then rs' ← regs_set rs i val; Ok (set_regs sk1 (Some rs'))
    else Ok sk1
  else Ok sk1.

(** Registers, where there are any, hold bytes. *)
Definition sketch_wf `{Externals} (s : Sketch) : Prop :=
  match sk_regs s with Some rs => regs_wf rs | None => True end.

(** The zero value of [Sketch], as [new(Sketch)] or a declared variable
    gives it. *)
Definition zero_sketch `{Externals} : Sketch :=
  {| sk_regs := None; sk_m := 0; sk_p := 0; sk_b := 0; sk_alpha := f_zero;
     sk_sparse := false; sk_sparseList := None; sk_tmpSet := None;
     sk_hash := false |}.

(** The heaps a program can build with the package: sketches are made by
    [New] or as zero values, and changed by [Insert], [Merge], [Estimate],
    [UnmarshalBinary] and, inside the package, [toNormal]. *)
Inductive reachable `{Externals} : gmap positive Sketch -> Prop :=
| reach_empty : reachable ∅
| reach_zero h l : reachable h -> reachable (<[l := zero_sketch]> h)
| reach_New h l precision s :
    reachable h -> New precision = Val s -> reachable (<[l := s]> h)
| reach_Insert h l s e s' :
    reachable h -> h !! l = Some s -> Insert s e = Ok s' ->
    reachable (<[l := s']> h)
| reach_toNormal h l s s' :
    reachable h -> h !! l = Some s -> toNormal s = Ok s' ->
    reachable (<[l := s']> h)
| reach_Merge h sk other r h' :
    reachable h -> Merge h sk other = Ok (r, h') -> reachable h'
| reach_Estimate h l s n s' :
    reachable h -> h !! l = Some s -> Estimate s = Ok (n, s') ->
    reachable (<[l := s']> h)
| reach_UnmarshalBinary h l s data r s' :
    reachable h -> h !! l = Some s ->
    Forall is_u8 (elems data) -> Forall is_u8 (spare data) ->
    UnmarshalBinary s data = Ok (r, s') -> reachable (<[l := s']> h).

(** A sketch as the package keeps it: precision in range, m = 2^p, the
    bias constant of that m, and either a sparse state (accumulator and list
    of 32-bit entries whose sizes fit the 32-bit length fields) or a dense
    state (m four-bit registers in m/2 bytes). *)
Definition valid `{Externals} (s : Sketch) : Prop :=
  4 <= sk_p s <= 18 /\ sk_m s = 2 ^ sk_p s /\ is_u8 (sk_b s) /\
  sk_alpha s = alpha (f_of_Z (sk_m s)) /\
  if sk_sparse s then
    exists ts l,
      sk_tmpSet s = Some ts /\ sk_sparseList s = Some l /\
      (forall k, k ∈ ts -> is_u32 k) /\ Z.of_nat (size ts) < 2 ^ 30 - 2 /\
      is_u32 (count l) /\ is_u32 (cl_last l) /\
      Z.of_nat (length (cl_bytes l)) < 2 ^ 32
  else
    exists rs,
      sk_regs s = Some rs /\ regs_wf rs /\
      2 * Z.of_nat (length (fields rs)) = sk_m s.

(** The byte stream of a list of entries: the deltas, each as a varint. *)
Fixpoint cl_encode (prev : Z) (xs : list Z) : list Z :=
  match xs with
  | [] => []
  | x :: xs' => varint_put 4 (u32 (x - prev)) ++ cl_encode x xs'
  end.

(** The compressed list [v] holds the entries [xs], in this order. *)
Definition cl_holds (v : compressedList) (xs : list Z) : Prop :=
  cl_bytes v = cl_encode 0 xs /\ cl_last v = List.last xs 0 /\
  count v = Z.of_nat (length xs).

(** The spec's fold on lists: "a single ascending merge-join against the
    existing Compressed List, treating equal entries as duplicates (keep
    one)". *)
Fixpoint merge_join (old : list Z) : list Z -> list Z :=
  fix inner (new : list Z) : list Z :=
    match old, new with
    | [], _ => new
    | _, [] => old
    | x1 :: old', x2 :: new' =>
        if x1 =? x2 then x1 :: merge_join old' new'
        else if x2 <? x1 then x2 :: inner new'
        else x1 :: merge_join old' new
    end.

(** The state of the dense loop of [Merge] before index [i]: the receiver
    at [sk] is [s] with registers [rg], which hold the larger stored value
    of [rs] and [ro] in the buckets below [2*i] and the value of [rs] in
    the others. *)
Definition merged_upto `{Externals} (s : Sketch) (rs ro : registers)
    (sk : positive) (g : gmap positive Sketch) (i : nat) : Prop :=
  exists rg,
    g !! sk = Some (set_regs s (Some rg)) /\ regs_wf rg /\
    length (fields rg) = length (fields rs) /\
    forall j a b, 0 <= j -> regs_get rs j = Ok a -> regs_get ro j = Ok b ->
                  regs_get rg j = Ok (if j <? 2 * Z.of_nat i then Z.max a b else a).

(** The number of counters of the packed bytes [vs] that are not zero. *)
Definition nonzero_nibbles (vs : list Z) : Z :=
  Z.of_nat (length (filter (fun v => v <> 0)
                           (flat_map (fun r => [reg_get r 0; reg_get r 1]) vs))).

(** What no operation but [UnmarshalBinary] changes in a sketch: precision,
    bucket count, bias constant and hash member. *)
Definition same_config `{Externals} (s s' : Sketch) : Prop :=
  sk_p s' = sk_p s /\ sk_m s' = sk_m s /\ sk_alpha s' = sk_alpha s /\
  sk_hash s' = sk_hash s.

(** [Estimate] of the sketch that one [Insert] for each element of [l], in
    order, makes of [s0]. *)
Definition Insert_all `{Externals} (s : exec Sketch) (l : list (list Z)) : exec Sketch :=
  foldl (fun s e => s ≫= fun s => Insert s e) s l.

Definition estimate_after `{Externals} (s0 : Sketch) (l : list (list Z)) : exec Z :=
  s ← Insert_all (Ok s0) l; r ← Estimate s; Ok r.1.

(** Order and duplicate invariance of the estimate, as a proposition about
    [New], [Insert] and [Estimate].  It is neither proved nor refuted
    below: the registers do depend on the order
    ([insert_order_changes_registers]), and whether the estimates then
    differ is decided by [float64] arithmetic and by [hash], which the
    development keeps as parameters. *)
Definition estimate_invariant `{Externals} (p : Z) : Prop :=
  forall (s0 : Sketch) (l l' : list (list Z)),
    New p = Val s0 -> l ≡ₚ l' \/ l' = remove_dups l ->
    estimate_after s0 l = estimate_after s0 l'.

(** * Properties *)

Section Properties.

Context {H : FloatType} {RS : RegisterSet} {H0 : Externals}.

(** ** Construction *)

(** C9. [New] returns the configuration error exactly when the precision
    is outside 4..18, and otherwise a sparse sketch with m = 2^p, empty
    accumulator and empty list; 3 and 19 fail, 4 and 18 succeed. *)
Theorem New_checks_precision :
  (forall precision,
      match New precision with
      | Err e => (precision < 4 \/ 18 < precision) /\ e = ErrPrecisionRange
      | Val sk =>
          4 <= precision <= 18 /\ sk_sparse sk = true /\
          sk_m sk = 2 ^ precision /\ sk_p sk = precision /\ sk_b sk = 0 /\
          sk_regs sk = None /\ sk_tmpSet sk = Some ∅ /\
          (Iter <$> sk_sparseList sk) = Some []
      end) /\
  New 3 = Err ErrPrecisionRange /\
  New 19 = Err ErrPrecisionRange /\
  (exists sk, New 4 = Val sk /\ sk_sparse sk = true /\ sk_m sk = 16) /\
  (exists sk, New 18 = Val sk /\ sk_sparse sk = true /\ sk_m sk = 262144).
Proof.
  split; [|repeat split; try reflexivity; eexists; repeat split; reflexivity].
  intros precision. unfold New.
  destruct (precision <? 4) eqn:Hlo; [simpl; split; [lia | reflexivity]|].
  destruct (18 <? precision) eqn:Hhi; [simpl; split; [lia | reflexivity]|].
  simpl. repeat split; try lia.
  unfold u32. apply Z.mod_small. split; [apply Z.pow_nonneg; lia|].
  apply Z.pow_lt_mono_r; lia.
Qed.

(** ** Merge: the precision check *)

(** C8. When the two precisions differ, [Merge] returns the
    precision-mismatch error and the heap it leaves is the heap it found:
    the receiver is unchanged, and a sparse receiver is not promoted. *)
Theorem Merge_precision_mismatch (h : gmap positive Sketch) (sk other : positive)
    (s o : Sketch) :
  h !! sk = Some s -> h !! other = Some o -> sk_p s <> sk_p o ->
  Merge h sk (Some other) = Ok (Some ErrPrecisionsDiffer, h).
Proof.
  intros Hs Ho Hp. unfold Merge, deref. rewrite Hs, Ho. simpl.
  destruct (Z.eqb_spec (sk_p s) (sk_p o)); [contradiction | reflexivity].
Qed.

End Properties.

Lemma Merge_precision_mismatch_witness :
  Merge {[1%positive := fresh 4; 2%positive := fresh 5]} 1%positive (Some 2%positive)
  = Ok (Some ErrPrecisionsDiffer, {[1%positive := fresh 4; 2%positive := fresh 5]}).
Proof.
  apply (Merge_precision_mismatch _ 1%positive 2%positive (fresh 4) (fresh 5));
    [reflexivity | reflexivity | simpl; lia].
Defined.

(** ** Reasoning about calls that may panic *)

Lemma bind_Ok {A B : Type} (x : exec A) (f : A -> exec B) (b : B) :
  x ≫= f = Ok b -> exists a, x = Ok a /\ f a = Ok b.
Proof. destruct x as [a|]; simpl; [eauto | discriminate]. Qed.

(** Take apart a hypothesis [c = Ok v] along the binds of [c]. *)
Ltac exec_inv H :=
  repeat match type of H with
         | @mbind exec _ _ _ _ ?x = Ok _ =>
             let a := fresh "a" in
             let Ha := fresh "Hexec" in
             apply bind_Ok in H; destruct H as (a & Ha & H)
         | Panic = Ok _ => discriminate H
         end.

Lemma exec_foldl_inv {A B : Type} (P : A -> Prop) (f : A -> B -> exec A) (l : list B) :
  (forall a x a', P a -> f a x = Ok a' -> P a') ->
  forall a a', P a -> exec_foldl f a l = Ok a' -> P a'.
Proof.
  intros Hstep. induction l as [|x l IH]; simpl; intros a a' Ha Hrun.
  - injection Hrun as <-. exact Ha.
  - destruct (f a x) as [a1|] eqn:Hf; [|discriminate].
    eapply IH; [|exact Hrun]. eapply Hstep; eauto.
Qed.

Lemma exec_foldl_app {A B : Type} (f : A -> B -> exec A) (l1 l2 : list B) (a : A) :
  exec_foldl f a (l1 ++ l2) = exec_foldl f a l1 ≫= fun a' => exec_foldl f a' l2.
Proof.
  revert a. induction l1 as [|x l1 IH]; simpl; intros a; [reflexivity|].
  destruct (f a x); simpl; [apply IH | reflexivity].
Qed.

Section MergeFrame.

Context {H : FloatType} {RS : RegisterSet} {H0 : Externals}.

(** ** Merge writes to the receiver only *)

Lemma deref_Ok (h : gmap positive Sketch) (l : positive) (s : Sketch) :
  deref h l = Ok s -> h !! l = Some s.
Proof. unfold deref. destruct (h !! l); [congruence | discriminate]. Qed.

Lemma merge_bucket_frame (sk l : positive) (h h' : gmap positive Sketch) (j v : Z) :
  l <> sk -> merge_bucket sk h j v = Ok h' -> h' !! l = h !! l.
Proof.
  intros Hne Hrun. unfold merge_bucket in Hrun. exec_inv Hrun.
  destruct (a1 <? v); exec_inv Hrun; injection Hrun as <-; [|reflexivity].
  apply lookup_insert_ne. congruence.
Qed.

Lemma merge_field_frame (sk other l : positive) (h h' : gmap positive Sketch) (i : nat) :
  l <> sk -> merge_field sk other h i = Ok h' -> h' !! l = h !! l.
Proof.
  intros Hne Hrun. unfold merge_field in Hrun. exec_inv Hrun.
  rewrite (merge_bucket_frame _ _ _ _ _ _ Hne Hrun).
  eapply merge_bucket_frame; eauto.
Qed.

Lemma merge_entry_frame (sk other l : positive) (h h' : gmap positive Sketch) (k : Z) :
  l <> sk -> merge_entry sk other h k = Ok h' -> h' !! l = h !! l.
Proof.
  intros Hne Hrun. unfold merge_entry in Hrun. exec_inv Hrun.
  destruct (decodeHash k (sk_p a) pp) as [i r]. exec_inv Hrun.
  destruct (a2 <? u8 r); exec_inv Hrun; injection Hrun as <-; [|reflexivity].
  apply lookup_insert_ne. congruence.
Qed.

Lemma merge_entries_frame (sk other l : positive) (ks : list Z)
    (h h' : gmap positive Sketch) :
  l <> sk -> exec_foldl (merge_entry sk other) h ks = Ok h' -> h' !! l = h !! l.
Proof.
  intros Hne. apply (exec_foldl_inv (fun g => g !! l = h !! l)); [|reflexivity].
  intros g k g' Hg Hstep. rewrite <- Hg. eapply merge_entry_frame; eauto.
Qed.

Lemma merge_fields_frame (sk other l : positive) (js : list nat)
    (h h' : gmap positive Sketch) :
  l <> sk -> exec_foldl (merge_field sk other) h js = Ok h' -> h' !! l = h !! l.
Proof.
  intros Hne. apply (exec_foldl_inv (fun g => g !! l = h !! l)); [|reflexivity].
  intros g k g' Hg Hstep. rewrite <- Hg. eapply merge_field_frame; eauto.
Qed.

Lemma Merge_frame (h h' : gmap positive Sketch) (sk : positive)
    (other : option positive) (r : option error) (l : positive) :
  l <> sk -> Merge h sk other = Ok (r, h') -> h' !! l = h !! l.
Proof.
  intros Hne Hrun. unfold Merge in Hrun.
  destruct other as [other|]; [|injection Hrun as _ <-; reflexivity].
  exec_inv Hrun.
  destruct (negb (sk_p a =? sk_p a0)); [injection Hrun as _ <-; reflexivity|].
  apply bind_Ok in Hrun. destruct Hrun as (h1 & Hprom & Hrun).
  assert (Hh1 : h1 !! l = h !! l).
  { destruct (sk_sparse a); exec_inv Hprom; injection Hprom as <-; [|reflexivity].
    apply lookup_insert_ne. congruence. }
  rewrite <- Hh1. clear Hh1 Hprom.
  apply bind_Ok in Hrun. destruct Hrun as (o1 & _ & Hrun).
  destruct (sk_sparse o1).
  - apply bind_Ok in Hrun. destruct Hrun as (h2 & Hloop1 & Hrun).
    apply bind_Ok in Hrun. destruct Hrun as (o2 & _ & Hrun).
    apply bind_Ok in Hrun. destruct Hrun as (cl & _ & Hrun).
    apply bind_Ok in Hrun. destruct Hrun as (h3 & Hloop2 & Hrun).
    injection Hrun as _ <-.
    rewrite (merge_entries_frame _ _ _ _ _ _ Hne Hloop2).
    exact (merge_entries_frame _ _ _ _ _ _ Hne Hloop1).
  - apply bind_Ok in Hrun. destruct Hrun as (ors & _ & Hrun).
    apply bind_Ok in Hrun. destruct Hrun as (h2 & Hloop & Hrun).
    injection Hrun as _ <-.
    exact (merge_fields_frame _ _ _ _ _ _ Hne Hloop).
Qed.

(** C10, amended.  When [other] is not the receiver itself, [Merge]
    leaves it exactly as it was: tag, precision, base, accumulator, list
    and registers. *)
Theorem Merge_leaves_other (h h' : gmap positive Sketch) (sk other : positive)
    (r : option error) :
  sk <> other -> Merge h sk (Some other) = Ok (r, h') -> h' !! other = h !! other.
Proof. intros Hne Hrun. eapply Merge_frame; [|exact Hrun]. congruence. Qed.

End MergeFrame.

Lemma Merge_leaves_other_witness :
  exists h', Merge {[1%positive := fresh 4; 2%positive := fresh 4]} 1%positive (Some 2%positive)
             = Ok (None, h') /\
             h' !! 2%positive = Some (fresh 4).
Proof.
  eexists. split; [vm_compute; reflexivity|].
  rewrite (Merge_leaves_other {[1%positive := fresh 4; 2%positive := fresh 4]} _
             1%positive 2%positive None); [reflexivity | lia | vm_compute; reflexivity].
Defined.

(** C10 as stated fails when the two pointers are the same sketch:
    [sk.Merge(sk)] on a sparse sketch promotes it, so [other] is sparse
    with an empty accumulator and list before the call, and dense with
    neither after it. *)
Lemma Merge_self_modifies_other :
  exists h',
    Merge {[1%positive := fresh 4]} 1%positive (Some 1%positive) = Ok (None, h') /\
    ({[1%positive := fresh 4]} : gmap positive Sketch) !! 1%positive = Some (fresh 4) /\
    sk_sparse (fresh 4) = true /\
    h' !! 1%positive = Some (dense4 0 (replicate 8 0) 16) /\
    sk_sparse (dense4 0 (replicate 8 0) 16) = false.
Proof. eexists. repeat split; vm_compute; reflexivity. Qed.

Section Deserialize.

Context {H : FloatType} {RS : RegisterSet} {H0 : Externals}.

(** ** UnmarshalBinary: what is checked *)

(** C4, amended.  On an input of at least two bytes whose precision byte
    is outside 4..18, [UnmarshalBinary] returns the constructor's error
    and the receiver is the one it was given. *)
Theorem UnmarshalBinary_bad_precision (sk : Sketch) (d0 d1 : Z) (rest sp : list Z) :
  u8 d1 < 4 \/ 18 < u8 d1 ->
  UnmarshalBinary sk {| elems := d0 :: d1 :: rest; spare := sp |}
  = Ok (Some ErrPrecisionRange, sk).
Proof.
  intros Hp. unfold UnmarshalBinary, index, New. simpl.
  destruct Hp as [Hp|Hp].
  - apply Z.ltb_lt in Hp. rewrite Hp. reflexivity.
  - apply Z.ltb_lt in Hp. rewrite Hp, orb_true_r. reflexivity.
Qed.

End Deserialize.

Lemma UnmarshalBinary_bad_precision_witness :
  UnmarshalBinary (fresh 5) {| elems := [1; 19; 0; 0]; spare := [] |}
  = Ok (Some ErrPrecisionRange, fresh 5).
Proof.
  apply (UnmarshalBinary_bad_precision (fresh 5) 1 19 [0; 0] []). right.
  vm_compute. reflexivity.
Defined.

(** C4 as stated fails: the empty input, which is truncated, makes
    [data[0]] panic instead of returning an error; and an input whose
    version marker is 7, not [version], is accepted: no error, and the
    receiver (precision 5, sparse) is overwritten by a dense sketch of
    precision 4. *)
Lemma UnmarshalBinary_no_format_error :
  UnmarshalBinary (fresh 5) {| elems := []; spare := [] |} = Panic /\
  7 <> version /\
  UnmarshalBinary (fresh 5) {| elems := [7; 4; 0; 0; 0; 0; 0; 0]; spare := [] |}
  = Ok (None, dense4 0 [] 0).
Proof. repeat split; vm_compute; congruence. Qed.

(** The errors that do come after the header are returned after the
    receiver was overwritten: here the payload of the list is missing, the
    list's decoder reports it, and the receiver of precision 5 has become a
    fresh sketch of precision 4. *)
Lemma UnmarshalBinary_error_after_overwrite :
  UnmarshalBinary (fresh 5) {| elems := [1; 4; 0; 1; 0; 0; 0; 0]; spare := [] |}
  = Ok (Some ErrFormat, fresh 4).
Proof. vm_compute. reflexivity. Qed.

(** ** insert: when the rebase is attempted *)

(** C3, evaluated.  All ranks 2, then rank 18 in bucket 0 (a rebase by
    2), then all ranks 3, leave the base at 2 and no register at 0.  Now
    rank 1 arrives for bucket 5: rank - b is -1, below the limit of 16, and
    yet the base advances to 3 and every register is lowered by 1. *)
Lemma insert_rebases_below_base :
  insert_all (toNormal (fresh 4))
             (rank_everywhere 2 ++ [(0, 18)] ++ rank_everywhere 3)
  = Ok (dense4 2 (241 :: replicate 7 17) 0) /\
  1 - sk_b (dense4 2 (241 :: replicate 7 17) 0) < 16 /\
  insert (dense4 2 (241 :: replicate 7 17) 0) 5 1
  = Ok (dense4 3 (224 :: replicate 7 0) 15).
Proof. repeat split; vm_compute; reflexivity. Qed.

(** ** Merge of two dense sketches with different bases *)

(** C1, evaluated.  The receiver saw rank 1 everywhere and then rank 17 in
    bucket 0, so its base is 1; [other] saw rank 1 in bucket 1 only, base 0.
    In bucket 1 both have the unrebased value 1, whose maximum is 1; after
    [Merge] the receiver's stored value there is 1 over base 1, the
    unrebased value 2. *)
Theorem Merge_dense_compares_stored_values :
  insert_all (toNormal (fresh 4)) (rank_everywhere 1 ++ [(0, 17)])
  = Ok (dense4 1 (240 :: replicate 7 0) 15) /\
  insert_all (toNormal (fresh 4)) [(1, 1)]
  = Ok (dense4 0 (1 :: replicate 7 0) 15) /\
  unrebased (dense4 1 (240 :: replicate 7 0) 15) 1 = Ok 1 /\
  unrebased (dense4 0 (1 :: replicate 7 0) 15) 1 = Ok 1 /\
  Merge {[1%positive := dense4 1 (240 :: replicate 7 0) 15;
          2%positive := dense4 0 (1 :: replicate 7 0) 15]}
        1%positive (Some 2%positive)
  = Ok (None, {[1%positive := dense4 1 (241 :: replicate 7 0) 14;
                2%positive := dense4 0 (1 :: replicate 7 0) 15]}) /\
  unrebased (dense4 1 (241 :: replicate 7 0) 14) 1 = Ok 2.
Proof. repeat split; vm_compute; reflexivity. Qed.

(** ** Packed registers *)

(** A property of all bytes, or of all pairs of bytes, is checked by running
    through them. *)
Lemma forall_below (P : Z -> bool) (n : Z) :
  forallb P (seqZ 0 n) = true -> forall x, 0 <= x < n -> P x = true.
Proof.
  intros Hall x Hx. rewrite forallb_forall in Hall. apply Hall.
  apply list_elem_of_In, elem_of_seqZ. lia.
Qed.

Lemma forall_below2 (P : Z -> Z -> bool) (n k : Z) :
  forallb (fun x => forallb (P x) (seqZ 0 k)) (seqZ 0 n) = true ->
  forall x y, 0 <= x < n -> 0 <= y < k -> P x y = true.
Proof.
  intros Hall x y Hx Hy.
  apply (forall_below (P x) k); [|exact Hy].
  apply (forall_below (fun x => forallb (P x) (seqZ 0 k)) n Hall x Hx).
Qed.

(** Split a checked conjunction of comparisons into facts for [lia]. *)
Ltac split_checks H :=
  cbv beta in H;
  repeat (let H' := fresh "Hchk" in apply andb_prop in H; destruct H as [H H']).

Lemma reg_get_range (r o : Z) : is_u8 r -> 0 <= reg_get r o < 16.
Proof.
  intros Hr.
  pose proof (forall_below
    (fun r => (0 <=? reg_get r 0) && (reg_get r 0 <? 16) &&
              (0 <=? reg_get r 1) && (reg_get r 1 <? 16)) 256
    ltac:(vm_compute; reflexivity) r Hr) as Hc.
  split_checks Hc. unfold reg_get in *.
  change (0 =? 0) with true in *. change (1 =? 0) with false in *. cbv iota in *.
  destruct (o =? 0); lia.
Qed.

Section PackedRegisters.
Context {RS : RegisterSet}.

Lemma reg_set_facts (r v : Z) :
  is_u8 r -> 0 <= v < 16 ->
  (is_u8 (reg_set r 0 v) /\ reg_get (reg_set r 0 v) 0 = v /\
   reg_get (reg_set r 0 v) 1 = reg_get r 1) /\
  (is_u8 (reg_set r 1 v) /\ reg_get (reg_set r 1 v) 1 = v /\
   reg_get (reg_set r 1 v) 0 = reg_get r 0).
Proof.
  intros Hr Hv.
  pose proof (forall_below2
    (fun r v =>
       (0 <=? reg_set r 0 v) && (reg_set r 0 v <? 256) &&
       (reg_get (reg_set r 0 v) 0 =? v) &&
       (reg_get (reg_set r 0 v) 1 =? reg_get r 1) &&
       (0 <=? reg_set r 1 v) && (reg_set r 1 v <? 256) &&
       (reg_get (reg_set r 1 v) 1 =? v) &&
       (reg_get (reg_set r 1 v) 0 =? reg_get r 0)) 256 16
    ltac:(vm_compute; reflexivity) r v Hr Hv) as Hc.
  split_checks Hc. unfold is_u8. lia.
Qed.

(** Whatever [set] is handed, the result is a byte. *)
Lemma reg_set_u8 (r o v : Z) : is_u8 r -> is_u8 v -> is_u8 (reg_set r o v).
Proof.
  intros Hr Hv. unfold reg_set.
  destruct ((0 <=? v) && (v <? 16)) eqn:Hin.
  - apply andb_prop in Hin. destruct Hin as [Hlo Hhi].
    apply Z.leb_le in Hlo. apply Z.ltb_lt in Hhi.
    destruct (reg_set_facts r v Hr (conj Hlo Hhi)) as ((H0 & _) & (H1 & _)).
    unfold reg_set in H0, H1.
    replace ((0 <=? v) && (v <? 16)) with true in H0, H1
      by (symmetry; apply andb_true_intro; split; [apply Z.leb_le|apply Z.ltb_lt]; lia).
    change (0 =? 0) with true in H0. change (1 =? 0) with false in H1. cbv iota in *.
    destruct (o =? 0); assumption.
  - apply Z.mod_pos_bound. lia.
Qed.

Lemma reg_get_set_same (r o v : Z) :
  is_u8 r -> 0 <= v < 16 -> offset_ok o -> reg_get (reg_set r o v) o = v.
Proof.
  intros Hr Hv [-> | ->]; destruct (reg_set_facts r v Hr Hv) as ((_ & H0 & _) & (_ & H1 & _));
    assumption.
Qed.

Lemma reg_get_set_other (r o o' v : Z) :
  is_u8 r -> 0 <= v < 16 -> offset_ok o -> offset_ok o' -> o <> o' ->
  reg_get (reg_set r o v) o' = reg_get r o'.
Proof.
  intros Hr Hv [-> | ->] [-> | ->] Hne; try contradiction;
    destruct (reg_set_facts r v Hr Hv) as ((_ & _ & H0) & (_ & _ & H1)); assumption.
Qed.

Lemma reg_rebase_facts (r d : Z) :
  is_u8 r -> is_u8 d ->
  is_u8 (reg_rebase d r) /\
  reg_get (reg_rebase d r) 0 = Z.max 0 (reg_get r 0 - d) /\
  reg_get (reg_rebase d r) 1 = Z.max 0 (reg_get r 1 - d).
Proof.
  intros Hr Hd.
  pose proof (forall_below2
    (fun r d =>
       (0 <=? reg_rebase d r) && (reg_rebase d r <? 256) &&
       (reg_get (reg_rebase d r) 0 =? Z.max 0 (reg_get r 0 - d)) &&
       (reg_get (reg_rebase d r) 1 =? Z.max 0 (reg_get r 1 - d)))
    256 256 ltac:(vm_compute; reflexivity) r d Hr Hd) as Hc.
  split_checks Hc. unfold is_u8. lia.
Qed.

Lemma offset_of_bucket (i : Z) : offset_ok (i mod 2).
Proof. unfold offset_ok. pose proof (Z.mod_pos_bound i 2). lia. Qed.

Lemma regs_get_Ok (rs : registers) (i : Z) :
  0 <= i < 2 * Z.of_nat (length (fields rs)) -> exists v, regs_get rs i = Ok v.
Proof.
  intros Hi. unfold regs_get.
  destruct (fields rs !! Z.to_nat (i / 2)) as [r|] eqn:Hl; [eauto|].
  apply lookup_ge_None in Hl. pose proof (Z.div_mod i 2). pose proof (Z.mod_pos_bound i 2). lia.
Qed.

Lemma regs_get_range (rs : registers) (i v : Z) :
  regs_wf rs -> regs_get rs i = Ok v -> 0 <= v < 16.
Proof.
  intros Hwf Hget. unfold regs_get in Hget.
  destruct (fields rs !! Z.to_nat (i / 2)) as [r|] eqn:Hl; [|discriminate].
  injection Hget as <-. apply reg_get_range.
  eapply Forall_lookup_1; eauto.
Qed.

Lemma regs_set_Ok (rs : registers) (i v : Z) :
  0 <= i < 2 * Z.of_nat (length (fields rs)) -> exists rs', regs_set rs i v = Ok rs'.
Proof.
  intros Hi. destruct (regs_get_Ok rs i Hi) as [x Hx].
  unfold regs_get in Hx. unfold regs_set.
  destruct (fields rs !! Z.to_nat (i / 2)); [eauto | discriminate].
Qed.

Lemma regs_set_length (rs rs' : registers) (i v : Z) :
  regs_set rs i v = Ok rs' -> length (fields rs') = length (fields rs).
Proof.
  unfold regs_set. destruct (fields rs !! Z.to_nat (i / 2)); [|discriminate].
  intros [= <-]. simpl. apply length_insert.
Qed.

Lemma regs_set_wf (rs rs' : registers) (i v : Z) :
  regs_wf rs -> is_u8 v -> regs_set rs i v = Ok rs' -> regs_wf rs'.
Proof.
  unfold regs_set, regs_wf. intros Hwf Hv.
  destruct (fields rs !! Z.to_nat (i / 2)) as [r|] eqn:Hl; [|discriminate].
  intros [= <-]. simpl. apply Forall_insert; [exact Hwf|].
  apply reg_set_u8; [|exact Hv]. eapply Forall_lookup_1; eauto.
Qed.

Lemma regs_set_get_same (rs rs' : registers) (i v : Z) :
  regs_wf rs -> 0 <= v < 16 -> regs_set rs i v = Ok rs' -> regs_get rs' i = Ok v.
Proof.
  unfold regs_set, regs_get, regs_wf. intros Hwf Hv.
  destruct (fields rs !! Z.to_nat (i / 2)) as [r|] eqn:Hl; [|discriminate].
  intros [= <-]. simpl.
  rewrite list_lookup_insert_eq by (eapply lookup_lt_Some; eauto).
  f_equal. apply reg_get_set_same; [|exact Hv|apply offset_of_bucket].
  eapply Forall_lookup_1; eauto.
Qed.

Lemma regs_set_get_other (rs rs' : registers) (i j v : Z) :
  regs_wf rs -> 0 <= v < 16 -> 0 <= i -> 0 <= j -> i <> j ->
  regs_set rs i v = Ok rs' -> regs_get rs' j = regs_get rs j.
Proof.
  unfold regs_set, regs_get, regs_wf. intros Hwf Hv Hi Hj Hne.
  destruct (fields rs !! Z.to_nat (i / 2)) as [r|] eqn:Hl; [|discriminate].
  intros [= <-]. simpl.
  destruct (decide (Z.to_nat (i / 2) = Z.to_nat (j / 2))) as [Heq|Hidx].
  - rewrite <- Heq, Hl.
    rewrite list_lookup_insert_eq by (eapply lookup_lt_Some; eauto).
    f_equal. apply reg_get_set_other; try apply offset_of_bucket; [|exact Hv|].
    + eapply Forall_lookup_1; eauto.
    + pose proof (Z.div_mod i 2). pose proof (Z.div_mod j 2).
      pose proof (Z.div_pos i 2). pose proof (Z.div_pos j 2). lia.
  - rewrite list_lookup_insert_ne by exact Hidx. reflexivity.
Qed.

Lemma regs_rebase_length (rs : registers) (d : Z) :
  length (fields (regs_rebase rs d)) = length (fields rs).
Proof. unfold regs_rebase. simpl. apply length_map. Qed.

Lemma regs_rebase_wf (rs : registers) (d : Z) :
  regs_wf rs -> is_u8 d -> regs_wf (regs_rebase rs d).
Proof.
  unfold regs_wf, regs_rebase. simpl. intros Hwf Hd.
  apply Forall_fmap. eapply Forall_impl; [exact Hwf|].
  intros r Hr. simpl. apply reg_rebase_facts; assumption.
Qed.

Lemma regs_rebase_get (rs : registers) (d j : Z) :
  regs_wf rs -> is_u8 d ->
  regs_get (regs_rebase rs d) j
  = match regs_get rs j with Ok v => Ok (Z.max 0 (v - d)) | Panic => Panic end.
Proof.
  unfold regs_wf, regs_rebase, regs_get. simpl. intros Hwf Hd.
  rewrite list_lookup_fmap.
  destruct (fields rs !! Z.to_nat (j / 2)) as [r|] eqn:Hl; simpl; [|reflexivity].
  f_equal.
  destruct (reg_rebase_facts r d) as (_ & H0 & H1); [eapply Forall_lookup_1; eauto|exact Hd|].
  destruct (offset_of_bucket j) as [-> | ->]; assumption.
Qed.

Lemma regs_values_elem (rs : registers) (j v : Z) :
  0 <= j -> regs_get rs j = Ok v -> v ∈ regs_values rs.
Proof.
  unfold regs_get, regs_values. intros Hj.
  destruct (fields rs !! Z.to_nat (j / 2)) as [r|] eqn:Hl; [|discriminate].
  intros [= <-]. apply list_elem_of_In, in_flat_map. exists r. split.
  - apply list_elem_of_In. eapply list_elem_of_lookup_2; eauto.
  - destruct (offset_of_bucket j) as [-> | ->]; simpl; auto.
Qed.

Lemma foldr_min_le (vs : list Z) (d v : Z) : v ∈ vs -> foldr Z.min d vs <= v.
Proof.
  induction vs as [|x vs IH]; intros Hin; [inversion Hin|].
  simpl. apply elem_of_cons in Hin. destruct Hin as [-> | Hin]; [lia|].
  specialize (IH Hin). lia.
Qed.

Lemma foldr_min_range (vs : list Z) (d : Z) :
  0 <= d -> Forall (fun v => 0 <= v) vs -> 0 <= foldr Z.min d vs <= d.
Proof.
  intros Hd. induction 1 as [|x vs Hx _ IH]; simpl; lia.
Qed.

Lemma regs_min_le (rs : registers) (j v : Z) :
  0 <= j -> regs_get rs j = Ok v -> regs_min rs <= v.
Proof. intros Hj Hget. apply foldr_min_le. eapply regs_values_elem; eauto. Qed.

Lemma regs_min_u8 (rs : registers) : regs_wf rs -> is_u8 (regs_min rs).
Proof.
  intros Hwf. unfold regs_min, is_u8.
  enough (0 <= foldr Z.min 255 (regs_values rs) <= 255) by lia.
  apply foldr_min_range; [lia|].
  unfold regs_values. apply Forall_forall. intros v Hv.
  apply list_elem_of_In, in_flat_map in Hv. destruct Hv as (r & Hr & Hv).
  apply list_elem_of_In in Hr.
  assert (is_u8 r) by (eapply Forall_forall in Hwf; eauto).
  simpl in Hv. destruct Hv as [<- | [<- | []]]; apply reg_get_range; assumption.
Qed.

End PackedRegisters.

(** ** insert: rebase, then store *)

Lemma rebase_test (b r : Z) :
  is_u8 b -> is_u8 r -> (capacity <=? u8 (r - b)) = rebase_due b r.
Proof.
  unfold is_u8, rebase_due, capacity, u8. intros Hb Hr.
  destruct (Z.lt_ge_cases r b) as [Hlt|Hge].
  - replace ((r - b) mod 256) with (r - b + 256)
      by (apply (Z.mod_unique_pos _ _ (-1)); lia).
    destruct (Z.leb_spec 16 (r - b + 256)), (Z.leb_spec 16 (r - b)),
      (Z.ltb_spec r b), (Z.leb_spec (b - r) 240); simpl; try reflexivity; lia.
  - rewrite Z.mod_small by lia.
    destruct (Z.leb_spec 16 (r - b)), (Z.ltb_spec r b); simpl; try reflexivity; lia.
Qed.

Section InsertDense.
Context {H : FloatType} {RS : RegisterSet} {H0 : Externals}.

Lemma insert_rebase_step (sk : Sketch) (rs : registers) (i r : Z) :
  sk_regs sk = Some rs -> regs_wf rs -> is_u8 (sk_b sk) -> is_u8 r ->
  let db := if rebase_due (sk_b sk) r then regs_min rs else 0 in
  exists sk1 rs1,
    insert sk i r = store_step sk1 i r /\
    sk_regs sk1 = Some rs1 /\ sk_b sk1 = u8 (sk_b sk + db) /\
    regs_wf rs1 /\ length (fields rs1) = length (fields rs) /\
    forall j v, 0 <= j -> regs_get rs j = Ok v ->
                0 <= v - db /\ regs_get rs1 j = Ok (v - db).
Proof.
  intros Hrs Hwf Hb Hr db. subst db. unfold insert.
  rewrite rebase_test by assumption.
  assert (Hid : u8 (sk_b sk + 0) = sk_b sk).
  { unfold u8. rewrite Z.add_0_r. apply Z.mod_small. exact Hb. }
  assert (Hkeep : exists sk1 rs1, store_step sk i r = store_step sk1 i r /\
            sk_regs sk1 = Some rs1 /\
            sk_b sk1 = u8 (sk_b sk + 0) /\ regs_wf rs1 /\
            length (fields rs1) = length (fields rs) /\
            forall j v, 0 <= j -> regs_get rs j = Ok v ->
                        0 <= v - 0 /\ regs_get rs1 j = Ok (v - 0)).
  { exists sk, rs. split_and!; auto; intros j v Hj Hget.
    split; [pose proof (regs_get_range _ _ _ Hwf Hget); lia|].
    rewrite Z.sub_0_r. assumption. }
  destruct (rebase_due (sk_b sk) r); [|exact Hkeep].
  fold (store_step sk i r) in Hkeep.
  unfold the_regs. rewrite Hrs. simpl.
  pose proof (regs_min_u8 rs Hwf) as Hmin.
  destruct (Z.ltb_spec 0 (regs_min rs)) as [Hpos|Hzero].
  - eexists _, _. split; [reflexivity|]. simpl.
    split_and!; auto using regs_rebase_wf, regs_rebase_length.
    intros j v Hj Hget. pose proof (regs_min_le rs j v Hj Hget).
    split; [lia|].
    rewrite regs_rebase_get by assumption. rewrite Hget. f_equal. lia.
  - replace (regs_min rs) with 0 by (unfold is_u8 in Hmin; lia). exact Hkeep.
Qed.

(** What [insert] does.  It attempts the rebase exactly when [rebase_due]:
    the rank is at least 16 above the base, or below the base (by at most
    240).  The base then advances by [db], the minimum over the registers
    (0 when no rebase is due), and every register is lowered by [db].
    Afterwards bucket [i] holds the larger of its value and
    min(rank - b', 15) if the rank exceeds the new base [b'], and every
    other bucket is left as the rebase left it: but for the rebase, no
    stored value decreases. *)
Theorem insert_rebases_then_stores (sk : Sketch) (rs : registers) (i r : Z) :
  sk_regs sk = Some rs -> regs_wf rs -> is_u8 (sk_b sk) -> is_u8 r ->
  0 <= i < 2 * Z.of_nat (length (fields rs)) ->
  let db := if rebase_due (sk_b sk) r then regs_min rs else 0 in
  let b' := u8 (sk_b sk + db) in
  exists sk',
    insert sk i r = Ok sk' /\ sk_b sk' = b' /\
    forall j, 0 <= j < 2 * Z.of_nat (length (fields rs)) ->
      exists v, regs_get rs j = Ok v /\ 0 <= v - db /\
        stored sk' j
        = Ok (if (j =? i) && (b' <? r)
              then Z.max (v - db) (Z.min (r - b') 15) else v - db).
Proof.
  intros Hrs Hwf Hb Hr Hi db b'.
  destruct (insert_rebase_step sk rs i r Hrs Hwf Hb Hr)
    as (sk1 & rs1 & Hstep & Hrs1 & Hb1 & Hwf1 & Hlen1 & Hget1).
  fold db in Hb1, Hget1. fold b' in Hb1.
  rewrite Hstep. unfold store_step. rewrite Hb1.
  destruct (regs_get_Ok rs i Hi) as [vi Hvi].
  destruct (Hget1 i vi ltac:(lia) Hvi) as [Hvi0 Hvi1].
  assert (Hother : forall j, 0 <= j < 2 * Z.of_nat (length (fields rs)) ->
            exists v, regs_get rs j = Ok v /\ 0 <= v - db /\
                      regs_get rs1 j = Ok (v - db)).
  { intros j Hj. destruct (regs_get_Ok rs j Hj) as [v Hv]. exists v.
    destruct (Hget1 j v ltac:(lia) Hv). auto. }
  destruct (Z.ltb_spec b' r) as [Hlt|Hge].
  - assert (Hb'r : is_u8 b') by (apply Z.mod_pos_bound; lia).
    replace (u8 (r - b')) with (r - b')
      by (symmetry; apply Z.mod_small; unfold is_u8 in *; lia).
    unfold the_regs. rewrite Hrs1. simpl. rewrite Hvi1. simpl.
    change (capacity - 1) with 15.
    destruct (Z.ltb_spec (vi - db) (Z.min (r - b') 15)) as [Hlow|Hhigh].
    + destruct (regs_set_Ok rs1 i (Z.min (r - b') 15)) as [rs2 Hset]; [lia|].
      rewrite Hset. simpl. eexists. split; [reflexivity|]. split; [exact Hb1|].
      intros j Hj. destruct (Hother j Hj) as (v & Hv & Hv0 & Hv1).
      exists v. split; [exact Hv|]. split; [exact Hv0|].
      unfold stored, the_regs. simpl.
      assert (Hval : 0 <= Z.min (r - b') 15 < 16) by lia.
      destruct (Z.eqb_spec j i) as [->|Hji]; simpl.
      * rewrite (regs_set_get_same _ _ _ _ Hwf1 Hval Hset). f_equal.
        assert (v = vi) by congruence. subst v. lia.
      * rewrite (regs_set_get_other _ _ i j _ Hwf1 Hval) by (auto; lia).
        exact Hv1.
    + eexists. split; [reflexivity|]. split; [exact Hb1|].
      intros j Hj. destruct (Hother j Hj) as (v & Hv & Hv0 & Hv1).
      exists v. split; [exact Hv|]. split; [exact Hv0|].
      unfold stored, the_regs. rewrite Hrs1. simpl. rewrite Hv1.
      destruct (Z.eqb_spec j i) as [->|Hji]; simpl; [|reflexivity].
      f_equal. assert (v = vi) by congruence. subst v. lia.
  - eexists. split; [reflexivity|]. split; [exact Hb1|].
    intros j Hj. destruct (Hother j Hj) as (v & Hv & Hv0 & Hv1).
    exists v. split; [exact Hv|]. split; [exact Hv0|].
    unfold stored, the_regs. rewrite Hrs1. simpl. rewrite Hv1.
    rewrite andb_false_r. reflexivity.
Qed.
End InsertDense.

Lemma insert_rebases_then_stores_witness :
  exists sk', insert (dense4 2 (241 :: replicate 7 17) 0) 5 1 = Ok sk' /\ sk_b sk' = 3.
Proof.
  destruct (insert_rebases_then_stores (dense4 2 (241 :: replicate 7 17) 0)
              {| fields := 241 :: replicate 7 17; nz := 0 |} 5 1)
    as (sk' & Hins & Hb & _).
  - reflexivity.
  - unfold regs_wf, is_u8. simpl. repeat constructor; lia.
  - unfold is_u8. simpl. lia.
  - unfold is_u8. lia.
  - simpl. lia.
  - exists sk'. split; [exact Hins|]. rewrite Hb. vm_compute. reflexivity.
Defined.

(** ** Register values stay within four bits *)

Section RegisterWidth.
Context {H : FloatType} {RS : RegisterSet} {H0 : Externals}.

Lemma insert_wf (s s' : Sketch) (i r : Z) :
  sketch_wf s -> insert s i r = Ok s' -> sketch_wf s'.
Proof.
  unfold sketch_wf, insert. intros Hwf Hrun.
  apply bind_Ok in Hrun. destruct Hrun as (s1 & Hstep & Hrun).
  assert (Hwf1 : match sk_regs s1 with Some rs => regs_wf rs | None => True end).
  { destruct (capacity <=? u8 (r - sk_b s)); [|injection Hstep as <-; exact Hwf].
    unfold the_regs in Hstep. destruct (sk_regs s) as [rs|] eqn:Hrs; [|discriminate].
    simpl in Hstep. destruct (0 <? regs_min rs); injection Hstep as <-; simpl.
    - apply regs_rebase_wf; [exact Hwf | apply regs_min_u8; exact Hwf].
    - rewrite Hrs. exact Hwf. }
  clear Hstep Hwf.
  destruct (sk_b s1 <? r); [|injection Hrun as <-; exact Hwf1].
  unfold the_regs in Hrun. destruct (sk_regs s1) as [rs|] eqn:Hrs; [|discriminate].
  simpl in Hrun. apply bind_Ok in Hrun. destruct Hrun as (v & Hv & Hrun).
  destruct (v <? _).
  - apply bind_Ok in Hrun. destruct Hrun as (rs' & Hset & Hrun).
    injection Hrun as <-. simpl.
    eapply regs_set_wf; [exact Hwf1| |exact Hset].
    pose proof (Z.mod_pos_bound (r - sk_b s1) 256). unfold is_u8, u8, capacity. lia.
  - injection Hrun as <-. rewrite Hrs. exact Hwf1.
Qed.

Lemma mergeSparse_regs (s s' : Sketch) : mergeSparse s = Ok s' -> sk_regs s' = sk_regs s.
Proof.
  unfold mergeSparse. destruct (set_len (sk_tmpSet s) =? 0); [intros [= <-]; reflexivity|].
  intros Hrun. apply bind_Ok in Hrun. destruct Hrun as (l & _ & Hrun).
  injection Hrun as <-. reflexivity.
Qed.

Lemma newRegisters_wf (size : Z) : regs_wf (newRegisters size).
Proof.
  unfold regs_wf, newRegisters. simpl. apply Forall_replicate. unfold is_u8. lia.
Qed.

Lemma toNormal_wf (s s' : Sketch) : toNormal s = Ok s' -> sketch_wf s'.
Proof.
  unfold toNormal. intros Hrun.
  apply bind_Ok in Hrun. destruct Hrun as (s1 & _ & Hrun).
  apply bind_Ok in Hrun. destruct Hrun as (l & _ & Hrun).
  apply bind_Ok in Hrun. destruct Hrun as (s3 & Hloop & Hrun).
  injection Hrun as <-.
  enough (sketch_wf s3) by assumption.
  revert Hloop. apply exec_foldl_inv.
  - intros a k a' Ha Hstep. destruct (decodeHash k (sk_p a) pp) as [i r].
    eapply insert_wf; eauto.
  - unfold sketch_wf. simpl. apply newRegisters_wf.
Qed.

Lemma Insert_wf (s s' : Sketch) (e : list Z) :
  sketch_wf s -> Insert s e = Ok s' -> sketch_wf s'.
Proof.
  unfold Insert. intros Hwf Hrun.
  apply bind_Ok in Hrun. destruct Hrun as (x & _ & Hrun).
  destruct (sk_sparse s).
  - apply bind_Ok in Hrun. destruct Hrun as (ts & _ & Hrun).
    destruct (_ <? _).
    + apply bind_Ok in Hrun. destruct Hrun as (s2 & Hfold & Hrun).
      apply bind_Ok in Hrun. destruct Hrun as (l & _ & Hrun).
      destruct (_ <? _); [eapply toNormal_wf; eauto|].
      injection Hrun as <-. unfold sketch_wf.
      rewrite (mergeSparse_regs _ _ Hfold). exact Hwf.
    + injection Hrun as <-. exact Hwf.
  - destruct (getPosVal x (sk_p s)) as [i r]. eapply insert_wf; eauto.
Qed.

Lemma Estimate_wf (s s' : Sketch) (n : Z) :
  sketch_wf s -> Estimate s = Ok (n, s') -> sketch_wf s'.
Proof.
  unfold Estimate. intros Hwf Hrun. destruct (sk_sparse s).
  - apply bind_Ok in Hrun. destruct Hrun as (s1 & Hfold & Hrun).
    apply bind_Ok in Hrun. destruct Hrun as (l & _ & Hrun).
    injection Hrun as _ <-. unfold sketch_wf.
    rewrite (mergeSparse_regs _ _ Hfold). exact Hwf.
  - apply bind_Ok in Hrun. destruct Hrun as (rs & _ & Hrun).
    injection Hrun as _ <-. exact Hwf.
Qed.

Lemma heap_wf_insert (h : gmap positive Sketch) (l : positive) (s : Sketch) :
  map_Forall (fun _ s => sketch_wf s) h -> sketch_wf s ->
  map_Forall (fun _ s => sketch_wf s) (<[l := s]> h).
Proof. intros Hh Hs. apply map_Forall_insert_2; assumption. Qed.

Lemma merge_bucket_wf (sk : positive) (h h' : gmap positive Sketch) (j v : Z) :
  is_u8 v -> map_Forall (fun _ s => sketch_wf s) h ->
  merge_bucket sk h j v = Ok h' -> map_Forall (fun _ s => sketch_wf s) h'.
Proof.
  intros Hv Hh Hrun. unfold merge_bucket in Hrun.
  apply bind_Ok in Hrun. destruct Hrun as (s & Hs & Hrun).
  apply bind_Ok in Hrun. destruct Hrun as (rs & Hrs & Hrun).
  apply bind_Ok in Hrun. destruct Hrun as (cur & _ & Hrun).
  destruct (cur <? v); [|injection Hrun as <-; exact Hh].
  apply bind_Ok in Hrun. destruct Hrun as (rs' & Hset & Hrun).
  injection Hrun as <-. apply heap_wf_insert; [exact Hh|].
  unfold sketch_wf. simpl. eapply regs_set_wf; [|exact Hv|exact Hset].
  apply deref_Ok in Hs. specialize (Hh _ _ Hs). unfold sketch_wf in Hh.
  unfold the_regs in Hrs. destruct (sk_regs s); [|discriminate].
  injection Hrs as <-. exact Hh.
Qed.

Lemma merge_field_wf (sk other : positive) (h h' : gmap positive Sketch) (i : nat) :
  map_Forall (fun _ s => sketch_wf s) h ->
  merge_field sk other h i = Ok h' -> map_Forall (fun _ s => sketch_wf s) h'.
Proof.
  intros Hh Hrun. unfold merge_field in Hrun.
  apply bind_Ok in Hrun. destruct Hrun as (o & Ho & Hrun).
  apply bind_Ok in Hrun. destruct Hrun as (ors & Hors & Hrun).
  apply bind_Ok in Hrun. destruct Hrun as (v & Hv & Hrun).
  apply bind_Ok in Hrun. destruct Hrun as (h1 & H1 & Hrun).
  assert (Hbyte : is_u8 v).
  { apply deref_Ok in Ho. specialize (Hh _ _ Ho). unfold sketch_wf in Hh.
    unfold the_regs in Hors. destruct (sk_regs o); [|discriminate].
    injection Hors as <-.
    destruct (fields _ !! i) eqn:Hl; [|discriminate]. injection Hv as <-.
    eapply Forall_lookup_1; eauto. }
  assert (Hnib : forall o, is_u8 (reg_get v o)).
  { intros o'. pose proof (reg_get_range v o' Hbyte). unfold is_u8. lia. }
  eapply merge_bucket_wf; [apply Hnib| |exact Hrun].
  eapply merge_bucket_wf; [apply Hnib|exact Hh|exact H1].
Qed.

Lemma merge_entry_wf (sk other : positive) (h h' : gmap positive Sketch) (k : Z) :
  map_Forall (fun _ s => sketch_wf s) h ->
  merge_entry sk other h k = Ok h' -> map_Forall (fun _ s => sketch_wf s) h'.
Proof.
  intros Hh Hrun. unfold merge_entry in Hrun.
  apply bind_Ok in Hrun. destruct Hrun as (o & Ho & Hrun).
  destruct (decodeHash k (sk_p o) pp) as [i r].
  apply bind_Ok in Hrun. destruct Hrun as (s & Hs & Hrun).
  apply bind_Ok in Hrun. destruct Hrun as (rs & Hrs & Hrun).
  apply bind_Ok in Hrun. destruct Hrun as (cur & _ & Hrun).
  destruct (cur <? u8 r); [|injection Hrun as <-; exact Hh].
  apply bind_Ok in Hrun. destruct Hrun as (rs' & Hset & Hrun).
  injection Hrun as <-. apply heap_wf_insert; [exact Hh|].
  unfold sketch_wf. simpl. eapply regs_set_wf; [| |exact Hset].
  - apply deref_Ok in Hs. specialize (Hh _ _ Hs). unfold sketch_wf in Hh.
    unfold the_regs in Hrs. destruct (sk_regs s); [|discriminate].
    injection Hrs as <-. exact Hh.
  - apply Z.mod_pos_bound. lia.
Qed.

Lemma Merge_wf (h h' : gmap positive Sketch) (sk : positive) (other : option positive)
    (r : option error) :
  map_Forall (fun _ s => sketch_wf s) h ->
  Merge h sk other = Ok (r, h') -> map_Forall (fun _ s => sketch_wf s) h'.
Proof.
  intros Hh Hrun. unfold Merge in Hrun.
  destruct other as [other|]; [|injection Hrun as _ <-; exact Hh].
  apply bind_Ok in Hrun. destruct Hrun as (s & Hs & Hrun).
  apply bind_Ok in Hrun. destruct Hrun as (o & Ho & Hrun).
  destruct (negb _); [injection Hrun as _ <-; exact Hh|].
  apply bind_Ok in Hrun. destruct Hrun as (h1 & Hprom & Hrun).
  assert (Hh1 : map_Forall (fun _ s => sketch_wf s) h1).
  { destruct (sk_sparse s); [|injection Hprom as <-; exact Hh].
    apply bind_Ok in Hprom. destruct Hprom as (s1 & Hnorm & Hprom).
    injection Hprom as <-. apply heap_wf_insert; [exact Hh|].
    eapply toNormal_wf; eauto. }
  clear Hprom.
  apply bind_Ok in Hrun. destruct Hrun as (o1 & _ & Hrun).
  destruct (sk_sparse o1).
  - apply bind_Ok in Hrun. destruct Hrun as (h2 & Hloop1 & Hrun).
    apply bind_Ok in Hrun. destruct Hrun as (o2 & _ & Hrun).
    apply bind_Ok in Hrun. destruct Hrun as (cl & _ & Hrun).
    apply bind_Ok in Hrun. destruct Hrun as (h3 & Hloop2 & Hrun).
    injection Hrun as _ <-.
    revert Hloop2. apply exec_foldl_inv; [intros; eapply merge_entry_wf; eauto|].
    revert Hloop1. apply exec_foldl_inv; [intros; eapply merge_entry_wf; eauto|].
    exact Hh1.
  - apply bind_Ok in Hrun. destruct Hrun as (ors & _ & Hrun).
    apply bind_Ok in Hrun. destruct Hrun as (h2 & Hloop & Hrun).
    injection Hrun as _ <-.
    revert Hloop. apply exec_foldl_inv; [intros; eapply merge_field_wf; eauto|].
    exact Hh1.
Qed.

Lemma New_wf (precision : Z) (s : Sketch) : New precision = Val s -> sk_regs s = None.
Proof.
  unfold New. destruct (_ || _); [discriminate|]. intros [= <-]. reflexivity.
Qed.

Lemma exec_foldl_inv_Forall {A B : Type} (P : A -> Prop) (Q : B -> Prop)
    (f : A -> B -> exec A) (l : list B) :
  Forall Q l ->
  (forall a x a', P a -> Q x -> f a x = Ok a' -> P a') ->
  forall a a', P a -> exec_foldl f a l = Ok a' -> P a'.
Proof.
  intros Hl Hstep. induction Hl as [|x l Hx _ IH]; simpl; intros a a' Ha Hrun.
  - injection Hrun as <-. exact Ha.
  - destruct (f a x) as [a1|] eqn:Hf; [|discriminate].
    eapply IH; [|exact Hrun]. eapply Hstep; eauto.
Qed.

Lemma read_field_wf (st st' : nat * registers) (val : Z) :
  regs_wf st.2 -> is_u8 val -> read_field st val = Ok st' -> regs_wf st'.2.
Proof.
  destruct st as [i rs]. unfold read_field, regs_wf. simpl. intros Hwf Hval.
  destruct (fields rs !! i); [|discriminate].
  destruct (0 <? lo_nibble val), (0 <? hi_nibble val); intros [= <-]; simpl;
    apply Forall_insert; assumption.
Qed.

Lemma window_Forall (P : Z -> Prop) (data out : list Z) (i j : Z) :
  Forall P data -> window data i j = Ok out -> Forall P out.
Proof.
  unfold window. intros Hd. destruct (_ && _); [|discriminate].
  intros [= <-]. apply Forall_take, Forall_drop, Hd.
Qed.

Lemma UnmarshalBinary_wf (s s' : Sketch) (data : byteslice) (r : option error) :
  Forall is_u8 (elems data) -> sketch_wf s -> UnmarshalBinary s data = Ok (r, s') ->
  sketch_wf s'.
Proof.
  intros Hdata Hwf Hrun. unfold UnmarshalBinary in Hrun.
  apply bind_Ok in Hrun. destruct Hrun as (d0 & _ & Hrun).
  apply bind_Ok in Hrun. destruct Hrun as (d1 & _ & Hrun).
  destruct (New (u8 d1)) as [newh|e] eqn:Hnew; [|injection Hrun as _ <-; exact Hwf].
  apply New_wf in Hnew.
  apply bind_Ok in Hrun. destruct Hrun as (d2 & _ & Hrun).
  apply bind_Ok in Hrun. destruct Hrun as (d3 & _ & Hrun).
  destruct (d3 =? 1).
  - apply bind_Ok in Hrun. destruct Hrun as (bs & _ & Hrun).
    apply bind_Ok in Hrun. destruct Hrun as (tssz & _ & Hrun).
    apply bind_Ok in Hrun. destruct Hrun as (ts & _ & Hrun).
    apply bind_Ok in Hrun. destruct Hrun as (rest & _ & Hrun).
    apply bind_Ok in Hrun. destruct Hrun as (l & _ & Hrun).
    destruct (cl_UnmarshalBinary l rest) as [err l'].
    injection Hrun as _ <-. unfold sketch_wf. simpl. rewrite Hnew. exact I.
  - apply bind_Ok in Hrun. destruct Hrun as (bs & _ & Hrun).
    apply bind_Ok in Hrun. destruct Hrun as (dsz & _ & Hrun).
    apply bind_Ok in Hrun. destruct Hrun as (payload & Hpay & Hrun).
    apply bind_Ok in Hrun. destruct Hrun as (rs & Hrs & Hrun).
    apply bind_Ok in Hrun. destruct Hrun as (st & Hloop & Hrun).
    injection Hrun as _ <-. unfold sketch_wf. simpl.
    injection Hrs as <-.
    revert Hloop.
    apply (exec_foldl_inv_Forall (fun st => regs_wf st.2) is_u8).
    + unfold slice_from in Hpay. eapply window_Forall; eauto.
    + intros a x a' Ha Hx Hstep. eapply read_field_wf; eauto.
    + apply newRegisters_wf.
Qed.

(** In every heap the package's operations can build, the register arrays
    hold bytes, so that a value read from a counter is between 0 and 15.
    This says nothing of what was handed to [set]: a byte has two
    four-bit halves whatever was written to it. *)
Theorem stored_values_at_most_15 (h : gmap positive Sketch) :
  reachable h ->
  forall (l : positive) (s : Sketch) (rs : registers) (i v : Z),
    h !! l = Some s -> sk_regs s = Some rs -> regs_get rs i = Ok v ->
    0 <= v <= 15.
Proof.
  intros Hreach.
  assert (Hwf : map_Forall (fun _ s => sketch_wf s) h).
  { induction Hreach.
    - apply map_Forall_empty.
    - apply heap_wf_insert; [assumption|exact I].
    - apply heap_wf_insert; [assumption|].
      unfold sketch_wf. erewrite New_wf by eauto. exact I.
    - apply heap_wf_insert; [assumption|]. eapply Insert_wf; eauto.
    - apply heap_wf_insert; [assumption|]. eapply toNormal_wf; eauto.
    - eapply Merge_wf; eauto.
    - apply heap_wf_insert; [assumption|]. eapply Estimate_wf; eauto.
    - apply heap_wf_insert; [assumption|]. eapply UnmarshalBinary_wf; eauto. }
  intros l s rs i v Hl Hrs Hget.
  specialize (Hwf _ _ Hl). unfold sketch_wf in Hwf. rewrite Hrs in Hwf.
  pose proof (regs_get_range rs i v Hwf Hget). lia.
Qed.
End RegisterWidth.

Lemma stored_values_at_most_15_witness :
  regs_get {| fields := 241 :: replicate 7 17; nz := 0 |} 0 = Ok 15 /\ 0 <= 15 <= 15.
Proof.
  split; [reflexivity|].
  assert (Hreach : reachable {[1%positive := dense4 2 (241 :: replicate 7 17) 0]}).
  { pose (h0 := {[1%positive := fresh 4]} : gmap positive Sketch).
    assert (H0 : reachable h0).
    { apply (reach_New ∅ 1%positive 4 (fresh 4)); [apply reach_empty|reflexivity]. }
    assert (H1 : reachable (<[1%positive := dense4 2 (241 :: replicate 7 17) 0]> h0)).
    { apply (reach_UnmarshalBinary h0 1%positive (fresh 4)
               {| elems := [1; 4; 2; 0; 0; 0; 0; 8; 241] ++ replicate 7 17;
                  spare := [] |} None);
        [exact H0|reflexivity| |constructor|vm_compute; reflexivity].
      unfold is_u8. simpl. repeat constructor; lia. }
    replace ({[1%positive := dense4 2 (241 :: replicate 7 17) 0]} : gmap positive Sketch)
      with (<[1%positive := dense4 2 (241 :: replicate 7 17) 0]> h0);
      [exact H1|vm_compute; reflexivity]. }
  exact (stored_values_at_most_15 _ Hreach 1%positive
           (dense4 2 (241 :: replicate 7 17) 0)
           {| fields := 241 :: replicate 7 17; nz := 0 |} 0 15
           eq_refl eq_refl eq_refl).
Defined.

(** ** Serialization round trip *)

Lemma be32_value (x : Z) :
  is_u32 x ->
  u8 (Z.shiftr x 24) * 2 ^ 24 + u8 (Z.shiftr x 16) * 2 ^ 16
  + u8 (Z.shiftr x 8) * 2 ^ 8 + u8 x = x.
Proof.
  unfold is_u32, u8. intros Hx. rewrite !Z.shiftr_div_pow2 by lia.
  change (2 ^ 24) with (2 ^ 8 * (2 ^ 8 * 2 ^ 8)). change (2 ^ 16) with (2 ^ 8 * 2 ^ 8).
  rewrite <- !Z.div_div by lia.
  change (2 ^ 8) with 256 in *. change (2 ^ 32) with 4294967296 in *.
  pose proof (Z.div_mod x 256 ltac:(lia)).
  pose proof (Z.mod_pos_bound x 256 ltac:(lia)).
  pose proof (Z.div_mod (x / 256) 256 ltac:(lia)).
  pose proof (Z.mod_pos_bound (x / 256) 256 ltac:(lia)).
  pose proof (Z.div_mod (x / 256 / 256) 256 ltac:(lia)).
  pose proof (Z.mod_pos_bound (x / 256 / 256) 256 ltac:(lia)).
  assert ((x / 256 / 256 / 256) mod 256 = x / 256 / 256 / 256).
  { apply Z.mod_small. lia. }
  lia.
Qed.

Lemma Uint32_put_be32 (x : Z) (rest : list Z) :
  is_u32 x -> BigEndian_Uint32 (put_be32 x ++ rest) = Ok x.
Proof. intros Hx. unfold put_be32. cbn [app BigEndian_Uint32]. f_equal. apply be32_value, Hx. Qed.

Lemma Uint32_put_be32_only (x : Z) : is_u32 x -> BigEndian_Uint32 (put_be32 x) = Ok x.
Proof. intros Hx. rewrite <- (app_nil_r (put_be32 x)). apply Uint32_put_be32, Hx. Qed.

Lemma put_be32_length (x : Z) : length (put_be32 x) = 4%nat.
Proof. reflexivity. Qed.

Lemma put_be32_u8 (x : Z) : Forall is_u8 (put_be32 x).
Proof. unfold put_be32. repeat constructor; apply Z.mod_pos_bound; lia. Qed.

Lemma window_middle (pre mid rest : list Z) (i j : Z) :
  i = Z.of_nat (length pre) -> j = i + Z.of_nat (length mid) ->
  window (pre ++ mid ++ rest) i j = Ok mid.
Proof.
  intros -> ->. unfold window.
  replace ((0 <=? _) && _ && _) with true
    by (symmetry; rewrite !andb_true_iff, !Z.leb_le, !length_app; lia).
  f_equal. rewrite Nat2Z.id.
  replace (Z.to_nat _) with (length mid) by lia.
  rewrite drop_app_length. apply take_app_length.
Qed.

Lemma window_suffix (pre rest : list Z) (i : Z) :
  i = Z.of_nat (length pre) ->
  window (pre ++ rest) i (Z.of_nat (length (pre ++ rest))) = Ok rest.
Proof.
  intros ->. rewrite <- (app_nil_r rest) at 1.
  rewrite (window_middle pre rest []); [reflexivity|reflexivity|].
  rewrite !length_app. simpl. lia.
Qed.

(** A slice expression within the length gives the bytes of the slice,
    whatever lies beyond the length. *)
Lemma slice_at (data : byteslice) (pre mid rest : list Z) (i j : Z) :
  elems data = pre ++ mid ++ rest -> i = Z.of_nat (length pre) ->
  j = i + Z.of_nat (length mid) -> slice data i j = Ok mid.
Proof.
  intros Hd Hi Hj. unfold slice. rewrite Hd.
  rewrite <- (app_assoc pre (mid ++ rest) (spare data)).
  rewrite <- (app_assoc mid rest (spare data)).
  apply window_middle; assumption.
Qed.

Lemma slice_from_at (data : byteslice) (pre rest : list Z) (i : Z) :
  elems data = pre ++ rest -> i = Z.of_nat (length pre) -> slice_from data i = Ok rest.
Proof. intros Hd Hi. unfold slice_from. rewrite Hd. apply window_suffix, Hi. Qed.

Section Roundtrip.
Context {H : FloatType} {RS : RegisterSet} {H0 : Externals}.

(** Reading the accumulator back: the loop visits the entries in the order
    they were written. *)
Lemma read_keys (pre rest sp : list Z) (ks : list Z) (k : nat) (acc : gset Z) :
  Forall is_u32 ks -> Z.of_nat (length pre) = 8 + 4 * Z.of_nat k ->
  exec_foldl (read_key {| elems := pre ++ flat_map put_be32 ks ++ rest; spare := sp |})
             acc
             (map (fun j => 8 + 4 * Z.of_nat j) (seq k (length ks)))
  = Ok (list_to_set ks ∪ acc).
Proof.
  intros Hks. revert pre k acc.
  induction Hks as [|x ks Hx _ IH]; intros pre k acc Hpre.
  - simpl. f_equal. set_solver.
  - cbn [length seq map exec_foldl flat_map].
    replace (pre ++ (put_be32 x ++ flat_map put_be32 ks) ++ rest)
      with ((pre ++ put_be32 x) ++ flat_map put_be32 ks ++ rest)
      by (rewrite <- !app_assoc; reflexivity).
    unfold read_key at 1.
    rewrite (slice_at _ pre (put_be32 x) (flat_map put_be32 ks ++ rest))
      by (rewrite <- ?app_assoc, ?put_be32_length; reflexivity || lia).
    cbn [mbind exec_bind].
    rewrite Uint32_put_be32_only by exact Hx.
    cbn [mbind exec_bind].
    rewrite IH by (rewrite length_app; change (length (put_be32 x)) with 4%nat; lia).
    f_equal. set_solver.
Qed.

(** Reading the packed registers back. *)
Lemma read_fields (pre vs : list Z) (z : Z) :
  exists z',
    exec_foldl read_field
      (length pre, {| fields := pre ++ replicate (length vs) 0; nz := z |}) vs
    = Ok (length pre + length vs, {| fields := pre ++ vs; nz := z' |})%nat.
Proof.
  revert pre z. induction vs as [|x vs IH]; intros pre z.
  - exists z. simpl. rewrite Nat.add_0_r. reflexivity.
  - cbn [length replicate exec_foldl]. unfold read_field at 1. cbn [fields nz].
    rewrite (list_lookup_middle pre _ 0 (length pre) eq_refl).
    replace (<[length pre:=x]> (pre ++ 0 :: replicate (length vs) 0))
      with ((pre ++ [x]) ++ replicate (length vs) 0).
    2:{ rewrite (insert_app_r_alt pre _ (length pre) x (Nat.le_refl _)).
        rewrite Nat.sub_diag. simpl. rewrite <- app_assoc. reflexivity. }
    destruct (0 <? lo_nibble x), (0 <? hi_nibble x); cbn [fields nz];
      replace (S (length pre)) with (length (pre ++ [x]))
        by (rewrite length_app; simpl; lia);
      match goal with |- context [mkRegisters _ ?z1] =>
        destruct (IH (pre ++ [x]) z1) as [z' Hz] end;
      exists z'; rewrite Hz; rewrite <- app_assoc, length_app; simpl;
      do 2 f_equal; lia.
Qed.
End Roundtrip.

Lemma map_u8_bytes (bs : list Z) : Forall is_u8 bs -> map u8 bs = bs.
Proof.
  induction 1 as [|x bs Hx _ IH]; [reflexivity|]. simpl. rewrite IH. f_equal.
  apply Z.mod_small. exact Hx.
Qed.

Lemma cl_roundtrip (l : compressedList) :
  is_u32 (count l) -> is_u32 (cl_last l) -> Z.of_nat (length (cl_bytes l)) < 2 ^ 32 ->
  exists data, cl_MarshalBinary l = Val data /\
               forall v, cl_UnmarshalBinary v data = (None, l).
Proof.
  intros Hc Hl Hn. eexists. split; [reflexivity|]. intros v.
  unfold put_be32. cbn [app cl_UnmarshalBinary].
  rewrite !be32_value by (assumption || (unfold is_u32; lia)).
  rewrite Z.eqb_refl. destruct l; reflexivity.
Qed.

Section RoundtripSketch.
Context {H : FloatType} {RS : RegisterSet} {H0 : Externals}.

Lemma New_in_range (p : Z) : 4 <= p <= 18 -> New p = Val (fresh p).
Proof.
  intros Hp. unfold New, fresh.
  replace ((p <? 4) || (18 <? p)) with false
    by (symmetry; apply orb_false_iff; rewrite !Z.ltb_ge; lia).
  replace (u32 (2 ^ p)) with (2 ^ p); [reflexivity|].
  symmetry. apply Z.mod_small. split; [apply Z.pow_nonneg; lia|].
  apply Z.pow_lt_mono_r; lia.
Qed.

(** What [UnmarshalBinary] makes of a dense payload, whatever the version
    byte [v] is. *)
Lemma UnmarshalBinary_dense (recv : Sketch) (v p b : Z) (fs sp : list Z) :
  4 <= p <= 18 -> is_u8 b -> Forall is_u8 fs -> 2 * Z.of_nat (length fs) < 2 ^ 32 ->
  exists z,
    UnmarshalBinary recv
      {| elems := [v; p; b; 0] ++ put_be32 (Z.of_nat (length fs)) ++ fs; spare := sp |}
    = Ok (None, set_sparseList (set_tmpSet
            (set_sparse (set_b (set_regs (fresh p) (Some {| fields := fs; nz := z |})) b)
                        false) None) None).
Proof.
  intros Hp Hb Hfs Hlen.
  remember ([v; p; b; 0] ++ put_be32 (Z.of_nat (length fs)) ++ fs) as data eqn:Hdata.
  unfold UnmarshalBinary.
  replace (index {| elems := data; spare := sp |} 0) with (Ok v) by (subst data; reflexivity).
  replace (index {| elems := data; spare := sp |} 1) with (Ok p) by (subst data; reflexivity).
  replace (index {| elems := data; spare := sp |} 2) with (Ok b) by (subst data; reflexivity).
  replace (index {| elems := data; spare := sp |} 3) with (Ok 0) by (subst data; reflexivity).
  cbn [mbind exec_bind].
  replace (u8 p) with p by (symmetry; apply Z.mod_small; lia).
  rewrite (New_in_range p Hp).
  replace (u8 b) with b by (symmetry; apply Z.mod_small; exact Hb).
  change (0 =? 1) with false. cbv iota.
  rewrite (slice_at {| elems := data; spare := sp |} [v; p; b; 0] (put_be32 (Z.of_nat (length fs))) fs 4 8 Hdata)
    by reflexivity.
  cbn [mbind exec_bind].
  rewrite Uint32_put_be32_only by (unfold is_u32; lia).
  cbn [mbind exec_bind].
  rewrite (slice_from_at {| elems := data; spare := sp |} ([v; p; b; 0] ++ put_be32 (Z.of_nat (length fs))) fs 8)
    by (subst data; rewrite <- ?app_assoc; reflexivity).
  cbn [mbind exec_bind].
  unfold the_regs. cbn [sk_regs set_regs set_tmpSet set_sparseList set_sparse set_b].
  cbn [mbind exec_bind]. unfold newRegisters.
  replace (u32 (Z.of_nat (length fs) * 2) / 2) with (Z.of_nat (length fs)).
  2:{ unfold u32. rewrite Z.mod_small by lia. rewrite Z.div_mul by lia. reflexivity. }
  rewrite Nat2Z.id.
  destruct (read_fields [] fs (u32 (Z.of_nat (length fs) * 2))) as [z Hz].
  cbn [app length] in Hz. rewrite Hz. cbn [mbind exec_bind].
  exists z. reflexivity.
Qed.

Lemma flat_map_put_be32_length (ks : list Z) :
  length (flat_map put_be32 ks) = (4 * length ks)%nat.
Proof. induction ks as [|x ks IH]; [reflexivity|]. cbn [flat_map]. rewrite length_app, IH. simpl. lia. Qed.

(** What [UnmarshalBinary] makes of a sparse payload, whatever the version
    byte [v] is. *)
Lemma UnmarshalBinary_sparse (recv : Sketch) (v p b : Z) (ts : gset Z)
    (l : compressedList) (cldata sp : list Z) :
  4 <= p <= 18 -> is_u8 b ->
  (forall k, k ∈ ts -> is_u32 k) -> Z.of_nat (size ts) < 2 ^ 30 - 2 ->
  (forall l0, cl_UnmarshalBinary l0 cldata = (None, l)) ->
  UnmarshalBinary recv
    {| elems := ([v; p; b; 1] ++ put_be32 (Z.of_nat (size ts))
                   ++ flat_map put_be32 (elements ts)) ++ cldata;
       spare := sp |}
  = Ok (None, set_sparseList
                (set_tmpSet (set_sparse (set_b (fresh p) b) true) (Some ts)) (Some l)).
Proof.
  intros Hp Hb Hts Hsize Hcl.
  assert (Hks : Forall is_u32 (elements ts)).
  { apply Forall_forall. intros k Hk. apply Hts, elem_of_elements, Hk. }
  assert (Hn : size ts = length (elements ts)) by reflexivity.
  remember (([v; p; b; 1] ++ put_be32 (Z.of_nat (size ts))
              ++ flat_map put_be32 (elements ts)) ++ cldata) as data eqn:Hdata.
  unfold UnmarshalBinary.
  replace (index {| elems := data; spare := sp |} 0) with (Ok v) by (subst data; reflexivity).
  replace (index {| elems := data; spare := sp |} 1) with (Ok p) by (subst data; reflexivity).
  replace (index {| elems := data; spare := sp |} 2) with (Ok b) by (subst data; reflexivity).
  replace (index {| elems := data; spare := sp |} 3) with (Ok 1) by (subst data; reflexivity).
  cbn [mbind exec_bind].
  replace (u8 p) with p by (symmetry; apply Z.mod_small; lia).
  rewrite (New_in_range p Hp).
  replace (u8 b) with b by (symmetry; apply Z.mod_small; exact Hb).
  change (1 =? 1) with true. cbv iota.
  rewrite (slice_at {| elems := data; spare := sp |} [v; p; b; 1] (put_be32 (Z.of_nat (size ts)))
             (flat_map put_be32 (elements ts) ++ cldata) 4 8)
    by (subst data; rewrite <- ?app_assoc; reflexivity).
  cbn [mbind exec_bind].
  rewrite Uint32_put_be32_only by (unfold is_u32; lia).
  cbn [mbind exec_bind].
  assert (Hlast : u32 (u32 (Z.of_nat (size ts) * 4) + 8) = 8 + 4 * Z.of_nat (size ts)).
  { unfold u32. rewrite (Z.mod_small (_ * 4)) by lia. rewrite Z.mod_small by lia. lia. }
  rewrite Hlast. unfold key_offsets.
  replace (Z.to_nat ((8 + 4 * Z.of_nat (size ts) - 8 + 3) / 4)) with (length (elements ts)).
  2:{ rewrite <- Hn.
      replace (8 + 4 * Z.of_nat (size ts) - 8 + 3) with (3 + Z.of_nat (size ts) * 4) by lia.
      rewrite Z.div_add by lia. change (3 / 4) with 0. lia. }
  replace data with (([v; p; b; 1] ++ put_be32 (Z.of_nat (size ts)))
                       ++ flat_map put_be32 (elements ts) ++ cldata) at 1
    by (subst data; rewrite <- ?app_assoc; reflexivity).
  rewrite (read_keys _ cldata sp (elements ts) 0 ∅ Hks) by reflexivity.
  cbn [mbind exec_bind].
  rewrite (slice_from_at {| elems := data; spare := sp |}
             ([v; p; b; 1] ++ put_be32 (Z.of_nat (size ts))
                ++ flat_map put_be32 (elements ts)) cldata).
  2:{ exact Hdata. }
  2:{ rewrite !length_app, flat_map_put_be32_length, <- Hn. simpl. lia. }
  cbn [mbind exec_bind].
  unfold the_list. cbn [sk_sparseList set_tmpSet set_sparse set_b fresh].
  cbn [mbind exec_bind]. rewrite Hcl.
  replace (list_to_set (elements ts) ∪ ∅) with ts; [reflexivity|].
  rewrite list_to_set_elements_L. set_solver.
Qed.

Lemma Estimate_sparse_ext (s1 s2 : Sketch) (l : compressedList) :
  sk_sparse s1 = true -> sk_sparse s2 = true ->
  sk_tmpSet s1 = sk_tmpSet s2 -> sk_sparseList s1 = Some l -> sk_sparseList s2 = Some l ->
  exists e st1 st2, Estimate s1 = Ok (e, st1) /\ Estimate s2 = Ok (e, st2).
Proof.
  intros Hs1 Hs2 Hts Hl1 Hl2. unfold Estimate, mergeSparse, the_list.
  rewrite Hs1, Hs2, <- Hts, Hl1, Hl2.
  destruct (set_len (sk_tmpSet s1) =? 0); cbn [mbind exec_bind].
  - rewrite Hl1, Hl2. cbn [mbind exec_bind]. eauto.
  - cbn [sk_sparseList set_tmpSet set_sparseList mbind exec_bind]. eauto.
Qed.

Lemma Estimate_dense_ext (s1 s2 : Sketch) (fs : list reg) (z1 z2 : Z) :
  sk_sparse s1 = false -> sk_sparse s2 = false ->
  sk_regs s1 = Some {| fields := fs; nz := z1 |} ->
  sk_regs s2 = Some {| fields := fs; nz := z2 |} ->
  sk_b s1 = sk_b s2 -> sk_m s1 = sk_m s2 -> sk_alpha s1 = sk_alpha s2 ->
  exists e st1 st2, Estimate s1 = Ok (e, st1) /\ Estimate s2 = Ok (e, st2).
Proof.
  intros Hs1 Hs2 Hr1 Hr2 Hb Hm Ha. unfold Estimate, the_regs.
  rewrite Hs1, Hs2, Hr1, Hr2, Hb, Hm, Ha. cbn [mbind exec_bind].
  unfold regs_sum, regs_zeros, regs_values. cbn [fields]. eauto.
Qed.

(** C5.  Serializing a valid sketch and deserializing the bytes, into any
    receiver, gives a sketch with the same representation tag, precision
    and bias base, and [Estimate] returns the same number on both. *)
Theorem serialization_roundtrip (s recv : Sketch) (sp : list Z) :
  valid s ->
  exists data s' e st st',
    MarshalBinary s = Ok (Val data) /\
    UnmarshalBinary recv {| elems := data; spare := sp |} = Ok (None, s') /\
    sk_sparse s' = sk_sparse s /\ sk_p s' = sk_p s /\ sk_b s' = sk_b s /\
    Estimate s = Ok (e, st) /\ Estimate s' = Ok (e, st').
Proof.
  intros (Hp & Hm & Hb & Halpha & Hrep).
  assert (Hu8p : u8 (sk_p s) = sk_p s) by (apply Z.mod_small; lia).
  assert (Hu8b : u8 (sk_b s) = sk_b s) by (apply Z.mod_small; exact Hb).
  destruct (sk_sparse s) eqn:Hsp.
  - destruct Hrep as (ts & l & Hts & Hl & Hk & Hsz & Hc & Hla & Hlen).
    destruct (cl_roundtrip l Hc Hla Hlen) as (cldata & Hmar & Hun).
    pose proof (UnmarshalBinary_sparse recv version (sk_p s) (sk_b s) ts l cldata sp
                  Hp Hb Hk Hsz Hun) as Hback.
    destruct (Estimate_sparse_ext s
                (set_sparseList
                   (set_tmpSet (set_sparse (set_b (fresh (sk_p s)) (sk_b s)) true)
                               (Some ts)) (Some l)) l)
      as (e & st & st' & He & He'); try reflexivity; try assumption.
    eexists _, _, e, st, st'. split_and!; [|exact Hback| | | |exact He|exact He'];
      try reflexivity.
    unfold MarshalBinary. rewrite Hsp, Hu8p, Hu8b.
    unfold set_MarshalBinary, the_list. rewrite Hts, Hl. cbn [mbind exec_bind].
    rewrite Hmar. reflexivity.
  - destruct Hrep as (rs & Hrs & Hwf & Hlen). destruct rs as [fs z].
    unfold regs_wf in Hwf. cbn [fields] in Hwf, Hlen.
    assert (Hsmall : 2 * Z.of_nat (length fs) < 2 ^ 32).
    { rewrite Hlen, Hm. apply Z.pow_lt_mono_r; lia. }
    destruct (UnmarshalBinary_dense recv version (sk_p s) (sk_b s) fs sp Hp Hb Hwf Hsmall)
      as (z' & Hback).
    destruct (Estimate_dense_ext s
                (set_sparseList
                   (set_tmpSet
                      (set_sparse
                         (set_b (set_regs (fresh (sk_p s))
                                          (Some {| fields := fs; nz := z' |})) (sk_b s))
                         false) None) None) fs z z')
      as (e & st & st' & He & He'); try reflexivity; try assumption.
    { cbn. congruence. }
    eexists _, _, e, st, st'. split_and!; [|exact Hback| | | |exact He|exact He'];
      try reflexivity.
    unfold MarshalBinary. rewrite Hsp, Hu8p, Hu8b.
    unfold the_regs. rewrite Hrs. cbn [mbind exec_bind fields].
    rewrite (map_u8_bytes fs Hwf). rewrite <- !app_assoc. reflexivity.
Qed.
End RoundtripSketch.

Lemma serialization_roundtrip_witness :
  exists data s' e st st',
    MarshalBinary (dense4 2 (241 :: replicate 7 17) 0) = Ok (Val data) /\
    UnmarshalBinary (fresh 5) {| elems := data; spare := [0; 0; 0] |} = Ok (None, s') /\
    sk_sparse s' = sk_sparse (dense4 2 (241 :: replicate 7 17) 0) /\
    sk_p s' = sk_p (dense4 2 (241 :: replicate 7 17) 0) /\
    sk_b s' = sk_b (dense4 2 (241 :: replicate 7 17) 0) /\
    Estimate (dense4 2 (241 :: replicate 7 17) 0) = Ok (e, st) /\
    Estimate s' = Ok (e, st').
Proof.
  apply (serialization_roundtrip (dense4 2 (241 :: replicate 7 17) 0) (fresh 5) [0; 0; 0]).
  unfold valid. cbn [sk_p sk_m sk_b sk_alpha sk_sparse dense4].
  split_and!; try reflexivity; try lia.
  - unfold is_u8. lia.
  - eexists. split_and!; [reflexivity| |reflexivity].
    unfold regs_wf, is_u8. simpl. repeat constructor; lia.
Defined.

(** ** The fold of the accumulator into the compressed list *)

Lemma varint_decode (more : nat) (x : Z) (rest : list Z) (prev acc mul : Z) :
  0 <= x < 128 ^ (Z.of_nat more + 1) ->
  cl_decode (varint_put more x ++ rest) prev acc mul
  = u32 (prev + (acc + x * mul)) :: cl_decode rest (u32 (prev + (acc + x * mul))) 0 1.
Proof.
  revert x acc mul. induction more as [|n IH]; intros x acc mul Hx.
  - change (128 ^ (Z.of_nat 0 + 1)) with 128 in Hx.
    cbn [varint_put app cl_decode]. rewrite Z.mod_small by lia.
    replace (x <? 128) with true by (symmetry; apply Z.ltb_lt; lia). reflexivity.
  - cbn [varint_put]. destruct (Z.ltb_spec x 128) as [Hlt|Hge].
    + cbn [app cl_decode].
      replace (x <? 128) with true by (symmetry; apply Z.ltb_lt; lia). reflexivity.
    + cbn [app cl_decode].
      pose proof (Z.mod_pos_bound x 128 ltac:(lia)) as Hmod.
      replace (x mod 128 + 128 <? 128) with false by (symmetry; apply Z.ltb_ge; lia).
      rewrite IH.
      * replace (acc + (x mod 128 + 128 - 128) * mul + x / 128 * (mul * 128))
          with (acc + x * mul); [reflexivity|].
        rewrite (Z.div_mod x 128) at 1 by lia. ring.
      * split; [apply Z.div_pos; lia|].
        apply Z.div_lt_upper_bound; [lia|].
        replace (Z.of_nat (S n) + 1) with (Z.succ (Z.of_nat n + 1)) in Hx by lia.
        rewrite Z.pow_succ_r in Hx by lia. lia.
Qed.

Lemma u32_range (x : Z) : is_u32 (u32 x).
Proof. apply Z.mod_pos_bound. lia. Qed.

Lemma u32_delta (prev x : Z) : is_u32 x -> u32 (prev + (0 + u32 (x - prev) * 1)) = x.
Proof.
  intros Hx. unfold u32. rewrite Z.add_0_l, Z.mul_1_r.
  rewrite Zplus_mod_idemp_r. replace (prev + (x - prev)) with x by lia.
  apply Z.mod_small. exact Hx.
Qed.

Lemma last_cons_default (x d : Z) (xs : list Z) :
  List.last (x :: xs) d = List.last xs x.
Proof.
  revert x d. induction xs as [|y xs IH]; intros x d; [reflexivity|].
  change (List.last (x :: y :: xs) d) with (List.last (y :: xs) d).
  rewrite IH. symmetry. apply IH.
Qed.

Lemma cl_decode_encode (xs rest : list Z) (prev : Z) :
  Forall is_u32 xs ->
  cl_decode (cl_encode prev xs ++ rest) prev 0 1
  = xs ++ cl_decode rest (List.last xs prev) 0 1.
Proof.
  intros Hxs. revert prev. induction Hxs as [|x xs Hx _ IH]; intros prev.
  - reflexivity.
  - cbn [cl_encode]. rewrite <- app_assoc.
    rewrite varint_decode.
    2:{ pose proof (u32_range (x - prev)) as Hr. unfold is_u32 in Hr.
        change (128 ^ (Z.of_nat 4 + 1)) with 34359738368.
        change (2 ^ 32) with 4294967296 in Hr. lia. }
    rewrite (u32_delta prev x Hx). rewrite IH.
    cbn [app]. rewrite last_cons_default. reflexivity.
Qed.

Lemma cl_encode_app (xs : list Z) (x prev : Z) :
  cl_encode prev (xs ++ [x])
  = cl_encode prev xs ++ varint_put 4 (u32 (x - List.last xs prev)).
Proof.
  revert prev. induction xs as [|y xs IH]; intros prev.
  - cbn. rewrite app_nil_r. reflexivity.
  - cbn [app cl_encode]. rewrite IH, <- app_assoc, last_cons_default. reflexivity.
Qed.

Lemma newCompressedList_holds (size : Z) : cl_holds (newCompressedList size) [].
Proof. repeat split. Qed.

Lemma Append_holds (v : compressedList) (xs : list Z) (x : Z) :
  cl_holds v xs -> cl_holds (Append v x) (xs ++ [x]).
Proof.
  intros (Hb & Hl & Hc). unfold cl_holds, Append. cbn [cl_bytes cl_last count].
  split_and!.
  - rewrite cl_encode_app, Hb, Hl. reflexivity.
  - rewrite last_last. reflexivity.
  - rewrite Hc, length_app. simpl. lia.
Qed.

Lemma Iter_holds (v : compressedList) (xs : list Z) :
  cl_holds v xs -> Forall is_u32 xs -> Iter v = xs.
Proof.
  intros (Hb & _ & _) Hxs. unfold Iter. rewrite Hb.
  rewrite <- (app_nil_r (cl_encode 0 xs)), cl_decode_encode by exact Hxs.
  apply app_nil_r.
Qed.

Lemma merge_join_nil_r (old : list Z) : merge_join old [] = old.
Proof. destruct old; reflexivity. Qed.

Lemma merge_join_nil_l (new : list Z) : merge_join [] new = new.
Proof. destruct new; reflexivity. Qed.

Lemma merge_join_elem (old new : list Z) (x : Z) :
  x ∈ merge_join old new <-> x ∈ old \/ x ∈ new.
Proof.
  revert new. induction old as [|x1 old IHold]; intros new.
  - rewrite merge_join_nil_l. set_solver.
  - induction new as [|x2 new IHnew].
    + rewrite merge_join_nil_r. set_solver.
    + change (merge_join (x1 :: old) (x2 :: new))
        with (if x1 =? x2 then x1 :: merge_join old new
              else if x2 <? x1 then x2 :: merge_join (x1 :: old) new
              else x1 :: merge_join old (x2 :: new)).
      destruct (Z.eqb_spec x1 x2) as [->|Hne].
      * rewrite elem_of_cons, IHold. set_solver.
      * destruct (x2 <? x1).
        -- rewrite elem_of_cons, IHnew. set_solver.
        -- rewrite elem_of_cons, IHold. set_solver.
Qed.

Lemma merge_join_sorted (old new : list Z) :
  StronglySorted Z.lt old -> StronglySorted Z.lt new ->
  StronglySorted Z.lt (merge_join old new).
Proof.
  intros Hold. revert new. induction Hold as [|x1 old Hold IHold Hx1]; intros new Hnew.
  - rewrite merge_join_nil_l. exact Hnew.
  - induction Hnew as [|x2 new Hnew IHnew Hx2].
    + rewrite merge_join_nil_r. constructor; assumption.
    + change (merge_join (x1 :: old) (x2 :: new))
        with (if x1 =? x2 then x1 :: merge_join old new
              else if x2 <? x1 then x2 :: merge_join (x1 :: old) new
              else x1 :: merge_join old (x2 :: new)).
      rewrite Forall_forall in Hx1, Hx2.
      destruct (Z.eqb_spec x1 x2) as [->|Hne].
      * constructor; [apply IHold, Hnew|].
        apply Forall_forall. intros y Hy. apply merge_join_elem in Hy.
        destruct Hy; auto.
      * destruct (Z.ltb_spec x2 x1) as [Hlt|Hge].
        -- constructor; [exact IHnew|].
           apply Forall_forall. intros y Hy. apply merge_join_elem in Hy.
           destruct Hy as [Hy|Hy]; [|auto].
           apply elem_of_cons in Hy. destruct Hy as [->|Hy]; [lia|].
           specialize (Hx1 y Hy). lia.
        -- constructor; [apply IHold; constructor; [assumption|apply Forall_forall; assumption]|].
           apply Forall_forall. intros y Hy. apply merge_join_elem in Hy.
           destruct Hy as [Hy|Hy]; [auto|].
           apply elem_of_cons in Hy. destruct Hy as [->|Hy]; [lia|].
           specialize (Hx2 y Hy). lia.
Qed.

Section Fold.
Context {H : FloatType} {RS : RegisterSet} {H0 : Externals}.

Lemma merge_loop_holds (it keys : list Z) (newList : compressedList) (xs : list Z) :
  cl_holds newList xs ->
  cl_holds (merge_loop it keys newList) (xs ++ merge_join it keys).
Proof.
  revert keys newList xs. induction it as [|x1 it IHit].
  - induction keys as [|x2 keys IHkeys]; intros newList xs Hacc.
    + rewrite app_nil_r. exact Hacc.
    + change (merge_loop [] (x2 :: keys) newList)
        with (merge_loop [] keys (Append newList x2)).
      replace (xs ++ merge_join [] (x2 :: keys)) with ((xs ++ [x2]) ++ merge_join [] keys)
        by (rewrite !merge_join_nil_l, <- app_assoc; reflexivity).
      apply IHkeys, Append_holds, Hacc.
  - induction keys as [|x2 keys IHkeys]; intros newList xs Hacc.
    + change (merge_loop (x1 :: it) [] newList)
        with (merge_loop it [] (Append newList x1)).
      rewrite merge_join_nil_r.
      replace (xs ++ x1 :: it) with ((xs ++ [x1]) ++ merge_join it [])
        by (rewrite merge_join_nil_r, <- app_assoc; reflexivity).
      apply IHit, Append_holds, Hacc.
    + change (merge_loop (x1 :: it) (x2 :: keys) newList)
        with (if x1 =? x2 then merge_loop it keys (Append newList x1)
              else if x2 <? x1 then merge_loop (x1 :: it) keys (Append newList x2)
              else merge_loop it (x2 :: keys) (Append newList x1)).
      change (merge_join (x1 :: it) (x2 :: keys))
        with (if x1 =? x2 then x1 :: merge_join it keys
              else if x2 <? x1 then x2 :: merge_join (x1 :: it) keys
              else x1 :: merge_join it (x2 :: keys)).
      destruct (x1 =? x2); [|destruct (x2 <? x1)].
      * replace (xs ++ x1 :: merge_join it keys) with ((xs ++ [x1]) ++ merge_join it keys)
          by (rewrite <- app_assoc; reflexivity).
        apply IHit, Append_holds, Hacc.
      * replace (xs ++ x2 :: merge_join (x1 :: it) keys)
          with ((xs ++ [x2]) ++ merge_join (x1 :: it) keys)
          by (rewrite <- app_assoc; reflexivity).
        apply IHkeys, Append_holds, Hacc.
      * replace (xs ++ x1 :: merge_join it (x2 :: keys))
          with ((xs ++ [x1]) ++ merge_join it (x2 :: keys))
          by (rewrite <- app_assoc; reflexivity).
        apply IHit, Append_holds, Hacc.
Qed.
End Fold.

Lemma sorted_keys (ts : gset Z) :
  StronglySorted Z.lt (merge_sort Z.le (elements ts)) /\
  forall x, x ∈ merge_sort Z.le (elements ts) <-> x ∈ ts.
Proof.
  pose proof (merge_sort_Permutation Z.le (elements ts)) as Hperm.
  split.
  - assert (Hnd : NoDup (merge_sort Z.le (elements ts))).
    { rewrite Hperm. apply NoDup_elements. }
    assert (Hs : StronglySorted Z.le (merge_sort Z.le (elements ts))).
    { apply Sorted_StronglySorted; [intros ???; lia|]. apply Sorted_merge_sort. intros ??; lia. }
    revert Hnd Hs. generalize (merge_sort Z.le (elements ts)). clear.
    induction l as [|x l IH]; intros Hnd Hs; [constructor|].
    apply NoDup_cons in Hnd. destruct Hnd as [Hx Hnd].
    apply StronglySorted_inv in Hs. destruct Hs as [Hs Hall].
    constructor; [apply IH; assumption|].
    rewrite Forall_forall in *. intros y Hy. specialize (Hall y Hy).
    assert (x <> y) by (intros ->; contradiction). lia.
  - intros x. rewrite Hperm. apply elem_of_elements.
Qed.



Section FoldInsert.
Context {H : FloatType} {RS : RegisterSet} {H0 : Externals}.


End FoldInsert.


(** ** The order of insertions and the registers *)

(** The same sixteen rank-1 observations, rank 17 in bucket 1 and rank 40
    in bucket 0, in two orders.  When rank 40 comes first it is cut to 15
    over base 0 and the later rebase lowers it to 14 over base 1; when it
    comes last it is cut to 15 over base 1.  The registers that [Estimate]
    sums differ. *)
Lemma insert_order_changes_registers :
  (0, 40) :: rank_everywhere 1 ++ [(1, 17)]
    ≡ₚ rank_everywhere 1 ++ [(1, 17); (0, 40)] /\
  insert_all (toNormal (fresh 4)) ((0, 40) :: rank_everywhere 1 ++ [(1, 17)])
  = Ok (dense4 1 (239 :: replicate 7 0) 14) /\
  insert_all (toNormal (fresh 4)) (rank_everywhere 1 ++ [(1, 17); (0, 40)])
  = Ok (dense4 1 (255 :: replicate 7 0) 14) /\
  unrebased (dense4 1 (239 :: replicate 7 0) 14) 0 = Ok 15 /\
  unrebased (dense4 1 (255 :: replicate 7 0) 14) 0 = Ok 16.
Proof.
  split_and!; try (vm_compute; reflexivity).
  replace (rank_everywhere 1 ++ [(1, 17); (0, 40)])
    with ((rank_everywhere 1 ++ [(1, 17)]) ++ [(0, 40)])
    by (rewrite <- app_assoc; reflexivity).
  apply Permutation_cons_append.
Qed.

(** ** Merge of a dense sketch: what is computed *)

Section MergeDense.
Context {H : FloatType} {RS : RegisterSet} {H0 : Externals}.

Lemma merge_bucket_max (sk : positive) (g : gmap positive Sketch) (sg : Sketch)
    (rg : registers) (j v cur : Z) :
  g !! sk = Some sg -> sk_regs sg = Some rg -> regs_wf rg ->
  0 <= j -> regs_get rg j = Ok cur -> 0 <= v < 16 ->
  exists rg',
    merge_bucket sk g j v = Ok (<[sk := set_regs sg (Some rg')]> g) /\
    regs_wf rg' /\ length (fields rg') = length (fields rg) /\
    regs_get rg' j = Ok (Z.max cur v) /\
    forall j', 0 <= j' -> j' <> j -> regs_get rg' j' = regs_get rg j'.
Proof.
  intros Hg Hrg Hwf Hj Hcur Hv. unfold merge_bucket, deref, the_regs.
  rewrite Hg. cbn [mbind exec_bind]. rewrite Hrg. cbn [mbind exec_bind].
  rewrite Hcur. cbn [mbind exec_bind].
  pose proof (regs_get_range rg j cur Hwf Hcur) as Hc.
  destruct (Z.ltb_spec cur v) as [Hlt|Hge].
  - assert (Hset : exists rg', regs_set rg j v = Ok rg').
    { unfold regs_get in Hcur. unfold regs_set.
      destruct (fields rg !! Z.to_nat (j / 2)); [eauto|discriminate]. }
    destruct Hset as [rg' Hset]. rewrite Hset. cbn [mbind exec_bind].
    assert (Hv8 : is_u8 v) by (unfold is_u8; lia).
    exists rg'. split_and!.
    + reflexivity.
    + eapply regs_set_wf; eauto.
    + eapply regs_set_length; eauto.
    + rewrite (regs_set_get_same rg rg' j v Hwf Hv Hset). f_equal. lia.
    + intros j' Hj' Hne.
      apply (regs_set_get_other rg rg' j j' v Hwf Hv Hj Hj'); [congruence|exact Hset].
  - exists rg. split_and!.
    + f_equal. symmetry. apply insert_id. rewrite Hg. f_equal.
      destruct sg. cbn in *. subst. reflexivity.
    + exact Hwf.
    + reflexivity.
    + rewrite Hcur. f_equal. lia.
    + reflexivity.
Qed.

Lemma regs_get_even (ro : registers) (i : nat) (v : Z) :
  fields ro !! i = Some v -> regs_get ro (2 * Z.of_nat i) = Ok (reg_get v 0).
Proof.
  intros Hv. unfold regs_get.
  replace (2 * Z.of_nat i) with (Z.of_nat i * 2) by lia.
  rewrite Z.div_mul, Z.mod_mul by lia. rewrite Nat2Z.id.
  unfold reg in *. rewrite Hv. reflexivity.
Qed.

Lemma regs_get_odd (ro : registers) (i : nat) (v : Z) :
  fields ro !! i = Some v -> regs_get ro (1 + 2 * Z.of_nat i) = Ok (reg_get v 1).
Proof.
  intros Hv. unfold regs_get.
  replace (1 + 2 * Z.of_nat i) with (1 + Z.of_nat i * 2) by lia.
  rewrite Z.div_add, Z.mod_add by lia.
  change (1 / 2) with 0. change (1 mod 2) with 1.
  rewrite Z.add_0_l, Nat2Z.id. unfold reg in *. rewrite Hv. reflexivity.
Qed.

Lemma merge_field_step (sk other : positive) (g : gmap positive Sketch)
    (s o : Sketch) (rs ro : registers) (i : nat) :
  sk <> other -> g !! other = Some o -> sk_regs o = Some ro ->
  regs_wf rs -> regs_wf ro -> length (fields ro) = length (fields rs) ->
  2 * Z.of_nat (length (fields rs)) < 2 ^ 32 ->
  (i < length (fields rs))%nat ->
  merged_upto s rs ro sk g i ->
  exists g', merge_field sk other g i = Ok g' /\ g' !! other = Some o /\
             merged_upto s rs ro sk g' (S i).
Proof.
  intros Hne Ho Hro Hwfs Hwfo Hlen Hsmall Hi (rg & Hg & Hwfg & Hleng & Hvals).
  destruct (lookup_lt_is_Some_2 (fields ro) i ltac:(lia)) as [v Hv].
  destruct (lookup_lt_is_Some_2 (fields rs) i ltac:(lia)) as [w Hw].
  assert (Hv8 : is_u8 v) by (exact (Forall_lookup_1 _ _ _ _ Hwfo Hv)).
  pose proof (regs_get_even ro i v Hv) as Hoe.
  pose proof (regs_get_odd ro i v Hv) as Hoo.
  pose proof (regs_get_even rs i w Hw) as Hse.
  pose proof (regs_get_odd rs i w Hw) as Hso.
  assert (He : u32 (u32 (Z.of_nat i) * 2) = 2 * Z.of_nat i).
  { unfold u32. rewrite (Z.mod_small (Z.of_nat i)) by lia. rewrite Z.mod_small; lia. }
  assert (Hod : u32 (1 + u32 (Z.of_nat i) * 2) = 1 + 2 * Z.of_nat i).
  { unfold u32. rewrite (Z.mod_small (Z.of_nat i)) by lia. rewrite Z.mod_small; lia. }
  unfold merge_field, deref, the_regs. rewrite Ho. cbn [mbind exec_bind].
  rewrite Hro. cbn [mbind exec_bind]. rewrite Hv. cbn [mbind exec_bind].
  rewrite He, Hod.
  pose proof (Hvals (2 * Z.of_nat i) _ _ ltac:(lia) Hse Hoe) as Hcur0.
  replace (2 * Z.of_nat i <? 2 * Z.of_nat i) with false in Hcur0
    by (symmetry; apply Z.ltb_ge; lia).
  destruct (merge_bucket_max sk g (set_regs s (Some rg)) rg (2 * Z.of_nat i)
              (reg_get v 0) (reg_get w 0) Hg eq_refl Hwfg ltac:(lia) Hcur0
              (reg_get_range v 0 Hv8))
    as (rg1 & Hb1 & Hwf1 & Hlen1 & Hsame1 & Hother1).
  rewrite Hb1. cbn [mbind exec_bind].
  change (set_regs (set_regs s (Some rg)) (Some rg1)) with (set_regs s (Some rg1)).
  pose proof (Hvals (1 + 2 * Z.of_nat i) _ _ ltac:(lia) Hso Hoo) as Hcur1.
  replace (1 + 2 * Z.of_nat i <? 2 * Z.of_nat i) with false in Hcur1
    by (symmetry; apply Z.ltb_ge; lia).
  rewrite <- (Hother1 (1 + 2 * Z.of_nat i)) in Hcur1 by lia.
  destruct (merge_bucket_max sk (<[sk := set_regs s (Some rg1)]> g)
              (set_regs s (Some rg1)) rg1 (1 + 2 * Z.of_nat i)
              (reg_get v 1) (reg_get w 1) (lookup_insert_eq _ _ _) eq_refl Hwf1
              ltac:(lia) Hcur1 (reg_get_range v 1 Hv8))
    as (rg2 & Hb2 & Hwf2 & Hlen2 & Hsame2 & Hother2).
  rewrite Hb2.
  change (set_regs (set_regs s (Some rg1)) (Some rg2)) with (set_regs s (Some rg2)).
  eexists. split; [reflexivity|]. split.
  - rewrite !lookup_insert_ne by congruence. exact Ho.
  - exists rg2. split_and!.
    + apply lookup_insert_eq.
    + exact Hwf2.
    + congruence.
    + intros j a b Hj Ha Hb.
      destruct (decide (j = 1 + 2 * Z.of_nat i)) as [->|Hj1].
      { rewrite Hsame2.
        replace (1 + 2 * Z.of_nat i <? 2 * Z.of_nat (S i)) with true
          by (symmetry; apply Z.ltb_lt; lia).
        congruence. }
      rewrite Hother2 by assumption.
      destruct (decide (j = 2 * Z.of_nat i)) as [->|Hj0].
      { rewrite Hsame1.
        replace (2 * Z.of_nat i <? 2 * Z.of_nat (S i)) with true
          by (symmetry; apply Z.ltb_lt; lia).
        congruence. }
      rewrite Hother1 by assumption.
      rewrite (Hvals j a b Hj Ha Hb).
      destruct (Z.ltb_spec j (2 * Z.of_nat i)), (Z.ltb_spec j (2 * Z.of_nat (S i)));
        try reflexivity; lia.
Qed.

Lemma merge_fields_loop (sk other : positive) (s o : Sketch) (rs ro : registers)
    (k i : nat) (g : gmap positive Sketch) :
  sk <> other -> sk_regs o = Some ro ->
  regs_wf rs -> regs_wf ro -> length (fields ro) = length (fields rs) ->
  2 * Z.of_nat (length (fields rs)) < 2 ^ 32 ->
  (i + k = length (fields rs))%nat ->
  g !! other = Some o -> merged_upto s rs ro sk g i ->
  exists g', exec_foldl (merge_field sk other) g (seq i k) = Ok g' /\
             g' !! other = Some o /\
             merged_upto s rs ro sk g' (length (fields rs)).
Proof.
  intros Hne Hro Hwfs Hwfo Hlen Hsmall. revert i g.
  induction k as [|k IH]; intros i g Hik Ho Hinv.
  - exists g. split; [reflexivity|]. split; [exact Ho|].
    replace (length (fields rs)) with i by lia. exact Hinv.
  - destruct (merge_field_step sk other g s o rs ro i Hne Ho Hro Hwfs Hwfo Hlen
                Hsmall ltac:(lia) Hinv) as (g1 & Hstep & Ho1 & Hinv1).
    destruct (IH (S i) g1 ltac:(lia) Ho1 Hinv1) as (g' & Hloop & Ho' & Hinv').
    exists g'. cbn [seq exec_foldl]. rewrite Hstep. auto.
Qed.

(** X1.  What the dense branch of [Merge] computes: the receiver keeps its base,
    and each of its registers becomes the larger of the two stored values.
    Neither base takes part. *)
Theorem Merge_dense_takes_stored_max (h : gmap positive Sketch) (sk other : positive)
    (s o : Sketch) (rs ro : registers) :
  sk <> other -> h !! sk = Some s -> h !! other = Some o ->
  sk_p s = sk_p o -> sk_sparse s = false -> sk_sparse o = false ->
  sk_regs s = Some rs -> sk_regs o = Some ro -> regs_wf rs -> regs_wf ro ->
  length (fields ro) = length (fields rs) ->
  2 * Z.of_nat (length (fields rs)) < 2 ^ 32 ->
  exists h' rg,
    Merge h sk (Some other) = Ok (None, h') /\
    h' !! sk = Some (set_regs s (Some rg)) /\ h' !! other = Some o /\
    forall j, 0 <= j < 2 * Z.of_nat (length (fields rs)) ->
      exists a b, regs_get rs j = Ok a /\ regs_get ro j = Ok b /\
                  regs_get rg j = Ok (Z.max a b).
Proof.
  intros Hne Hs Ho Hp Hsp Hspo Hrs Hro Hwfs Hwfo Hlen Hsmall.
  assert (Hinit : merged_upto s rs ro sk h 0).
  { exists rs. split_and!; [|exact Hwfs|reflexivity|].
    - rewrite Hs. f_equal. destruct s. cbn in *. subst. reflexivity.
    - intros j a b Hj Ha _. rewrite Ha.
      replace (j <? 2 * Z.of_nat 0) with false by (symmetry; apply Z.ltb_ge; lia).
      reflexivity. }
  destruct (merge_fields_loop sk other s o rs ro (length (fields rs)) 0 h
              Hne Hro Hwfs Hwfo Hlen Hsmall eq_refl Ho Hinit)
    as (h' & Hloop & Ho' & (rg & Hg & _ & _ & Hvals)).
  exists h', rg. split_and!; [|exact Hg|exact Ho'|].
  - unfold Merge, deref. rewrite Hs, Ho. cbn [mbind exec_bind].
    rewrite Hp, Z.eqb_refl. cbn [negb]. rewrite Hsp. cbn [mbind exec_bind].
    rewrite Ho. cbn [mbind exec_bind]. rewrite Hspo.
    unfold the_regs. rewrite Hro. cbn [mbind exec_bind].
    rewrite Hlen, Hloop. reflexivity.
  - intros j Hj.
    destruct (regs_get_Ok rs j Hj) as [a Ha].
    destruct (regs_get_Ok ro j ltac:(rewrite Hlen; exact Hj)) as [b Hb].
    exists a, b. split_and!; auto.
    rewrite (Hvals j a b ltac:(lia) Ha Hb).
    replace (j <? 2 * Z.of_nat (length (fields rs))) with true
      by (symmetry; apply Z.ltb_lt; lia).
    reflexivity.
Qed.
End MergeDense.

(** ** The dense wire format: lengths, padding and the zero count *)

Lemma nibbles_nonneg (r : Z) : 0 <= lo_nibble r /\ 0 <= hi_nibble r.
Proof.
  unfold lo_nibble, hi_nibble, u8. split.
  - apply Z.shiftr_nonneg. apply Z.mod_pos_bound. lia.
  - apply Z.mod_pos_bound. lia.
Qed.

Lemma nonzero_nibbles_cons (x : Z) (vs : list Z) :
  nonzero_nibbles (x :: vs)
  = (if 0 <? hi_nibble x then 1 else 0) + (if 0 <? lo_nibble x then 1 else 0)
    + nonzero_nibbles vs.
Proof.
  unfold nonzero_nibbles. cbn [flat_map app].
  change (reg_get x 0) with (hi_nibble x). change (reg_get x 1) with (lo_nibble x).
  destruct (nibbles_nonneg x) as [Hlo Hhi].
  rewrite !filter_cons.
  destruct (Z.ltb_spec 0 (hi_nibble x)), (Z.ltb_spec 0 (lo_nibble x));
    repeat case_decide; cbn [length]; lia.
Qed.

Lemma nonzero_nibbles_range (vs : list Z) :
  0 <= nonzero_nibbles vs <= 2 * Z.of_nat (length vs).
Proof.
  induction vs as [|x vs IH]; [unfold nonzero_nibbles; simpl; lia|].
  rewrite nonzero_nibbles_cons. cbn [length].
  destruct (0 <? hi_nibble x), (0 <? lo_nibble x); lia.
Qed.




Lemma u32_pred (z : Z) : 1 <= z < 2 ^ 32 -> u32 (z - 1) = z - 1.
Proof. intros Hz. apply Z.mod_small. lia. Qed.

(** The loop over the payload: the bytes land in order, and [nz] goes down
    by one for every counter that is not zero. *)
Lemma read_fields_count (pre vs tail : list Z) (z : Z) :
  nonzero_nibbles vs <= z < 2 ^ 32 ->
  exec_foldl read_field
    (length pre, {| fields := pre ++ replicate (length vs) 0 ++ tail; nz := z |}) vs
  = Ok ((length pre + length vs)%nat,
        {| fields := pre ++ vs ++ tail; nz := z - nonzero_nibbles vs |}).
Proof.
  revert pre z. induction vs as [|x vs IH]; intros pre z Hz.
  - cbn. rewrite Nat.add_0_r, Z.sub_0_r. reflexivity.
  - rewrite nonzero_nibbles_cons in Hz |- *.
    pose proof (nonzero_nibbles_range vs) as Hr.
    cbn [length replicate exec_foldl app]. unfold read_field at 1. cbn [fields nz].
    rewrite (list_lookup_middle pre _ 0 (length pre) eq_refl).
    replace (<[length pre:=x]> (pre ++ 0 :: replicate (length vs) 0 ++ tail))
      with ((pre ++ [x]) ++ replicate (length vs) 0 ++ tail).
    2:{ rewrite (insert_app_r_alt pre _ (length pre) x (Nat.le_refl _)).
        rewrite Nat.sub_diag. cbn. rewrite <- app_assoc. reflexivity. }
    replace (S (length pre)) with (length (pre ++ [x]))
      by (rewrite length_app; cbn; lia).
    destruct (Z.ltb_spec 0 (lo_nibble x)), (Z.ltb_spec 0 (hi_nibble x)); cbn [fields nz];
      rewrite ?(u32_pred z) by lia; rewrite ?(u32_pred (z - 1)) by lia.
    all: try (rewrite IH by lia).
    all: rewrite <- ?app_assoc, ?length_app; cbn [app length].
    all: f_equal; f_equal; try (f_equal; lia); lia.
Qed.

Section DenseWire.
Context {H : FloatType} {RS : RegisterSet} {H0 : Externals}.



(** X12.  A dense payload with more bytes than the declared length makes
    [fields[i]] run out of range: a panic, not an error. *)
Theorem UnmarshalBinary_dense_overlong (recv : Sketch) (v p b t dsz : Z)
    (payload sp : list Z) :
  4 <= p <= 18 -> is_u8 b -> t <> 1 -> 0 <= dsz < 2 ^ 31 ->
  dsz < Z.of_nat (length payload) ->
  UnmarshalBinary recv
    {| elems := [v; p; b; t] ++ put_be32 dsz ++ payload; spare := sp |} = Panic.
Proof.
  intros Hp Hb Ht Hdsz Hlen.
  remember ([v; p; b; t] ++ put_be32 dsz ++ payload) as data eqn:Hdata.
  unfold UnmarshalBinary.
  replace (index {| elems := data; spare := sp |} 0) with (Ok v) by (subst data; reflexivity).
  replace (index {| elems := data; spare := sp |} 1) with (Ok p) by (subst data; reflexivity).
  replace (index {| elems := data; spare := sp |} 2) with (Ok b) by (subst data; reflexivity).
  replace (index {| elems := data; spare := sp |} 3) with (Ok t) by (subst data; reflexivity).
  cbn [mbind exec_bind].
  replace (u8 p) with p by (symmetry; apply Z.mod_small; lia).
  rewrite (New_in_range p Hp).
  replace (t =? 1) with false by (symmetry; apply Z.eqb_neq; exact Ht).
  rewrite (slice_at {| elems := data; spare := sp |} [v; p; b; t] (put_be32 dsz) payload 4 8 Hdata) by reflexivity.
  cbn [mbind exec_bind].
  rewrite Uint32_put_be32_only by (unfold is_u32; lia).
  cbn [mbind exec_bind].
  rewrite (slice_from_at {| elems := data; spare := sp |} ([v; p; b; t] ++ put_be32 dsz) payload 8)
    by (subst data; rewrite <- ?app_assoc; reflexivity).
  cbn [mbind exec_bind].
  unfold the_regs. cbn [sk_regs set_regs set_tmpSet set_sparseList set_sparse set_b].
  cbn [mbind exec_bind]. unfold newRegisters.
  replace (u32 (dsz * 2)) with (2 * dsz) by (unfold u32; rewrite Z.mod_small; lia).
  replace (2 * dsz / 2) with dsz by (rewrite Z.mul_comm, Z.div_mul; lia).
  rewrite <- (take_drop (Z.to_nat dsz) payload) at 1.
  rewrite exec_foldl_app.
  assert (Htake : length (take (Z.to_nat dsz) payload) = Z.to_nat dsz)
    by (rewrite length_take; lia).
  pose proof (nonzero_nibbles_range (take (Z.to_nat dsz) payload)) as Hr.
  pose proof (read_fields_count [] (take (Z.to_nat dsz) payload) [] (2 * dsz)
                ltac:(lia)) as Hfill.
  rewrite Htake in Hfill. cbn [app length] in Hfill. rewrite app_nil_r in Hfill.
  rewrite Hfill. cbn [mbind exec_bind].
  destruct (drop (Z.to_nat dsz) payload) as [|x rest] eqn:Hdrop.
  { apply (f_equal length) in Hdrop. rewrite length_drop in Hdrop. simpl in Hdrop. lia. }
  cbn [exec_foldl]. unfold read_field. cbn [fields Nat.add].
  rewrite app_nil_r.
  replace (take (Z.to_nat dsz) payload !! Z.to_nat dsz) with (@None Z)
    by (symmetry; apply lookup_ge_None; lia).
  reflexivity.
Qed.

(** X13.  An input of fewer than eight bytes whose precision byte, if
    there is one, is in range, is not reported as an error.  Reading the
    header panics when the input has fewer than four bytes, or when the
    backing array has room for fewer than eight; with more room the
    length field is taken from beyond the input, and the dense branch
    panics at [data[8:]].  Nothing is said of tag 1 with room for eight
    bytes, where the outcome depends on the bytes beyond the length. *)
Theorem UnmarshalBinary_short_input (recv : Sketch) (data : byteslice) :
  (length (elems data) < 8)%nat ->
  (forall d1, elems data !! 1%nat = Some d1 -> 4 <= u8 d1 <= 18) ->
  (length (elems data) < 4)%nat \/
  (length (elems data) + length (spare data) < 8)%nat \/
  elems data !! 3%nat <> Some 1 ->
  UnmarshalBinary recv data = Panic.
Proof.
  destruct data as [el sp]. cbn [elems spare]. intros Hlen Hp Hcase.
  unfold UnmarshalBinary.
  destruct el as [|d0 el]; [reflexivity|].
  destruct el as [|d1 el]; [reflexivity|].
  specialize (Hp d1 eq_refl).
  change (index {| elems := d0 :: d1 :: el; spare := sp |} 0) with (Ok d0).
  change (index {| elems := d0 :: d1 :: el; spare := sp |} 1) with (Ok d1).
  cbn [mbind exec_bind]. rewrite (New_in_range (u8 d1) Hp).
  destruct el as [|d2 el]; [reflexivity|].
  change (index {| elems := d0 :: d1 :: d2 :: el; spare := sp |} 2) with (Ok d2).
  cbn [mbind exec_bind].
  destruct el as [|d3 el]; [reflexivity|].
  change (index {| elems := d0 :: d1 :: d2 :: d3 :: el; spare := sp |} 3) with (Ok d3).
  cbn [mbind exec_bind]. cbn [length] in Hlen, Hcase.
  assert (Hfrom : slice_from {| elems := d0 :: d1 :: d2 :: d3 :: el; spare := sp |} 8
                  = Panic).
  { unfold slice_from, window. cbn [elems length].
    replace (8 <=? Z.of_nat (S (S (S (S (length el)))))) with false
      by (symmetry; apply Z.leb_gt; lia).
    reflexivity. }
  destruct Hcase as [Hshort|[Hroom|Htag]]; [lia| |].
  - assert (Hslice : slice {| elems := d0 :: d1 :: d2 :: d3 :: el; spare := sp |} 4 8
                     = Panic).
    { unfold slice, window. cbn [elems spare]. rewrite length_app. cbn [length].
      replace (8 <=? Z.of_nat (S (S (S (S (length el)))) + length sp)) with false
        by (symmetry; apply Z.leb_gt; lia).
      reflexivity. }
    destruct (d3 =? 1); rewrite Hslice; reflexivity.
  - destruct (Z.eqb_spec d3 1) as [->|_]; [contradiction Htag; reflexivity|].
    destruct (slice _ 4 8) as [bs|]; [|reflexivity]. cbn [mbind exec_bind].
    destruct (BigEndian_Uint32 bs) as [dsz|]; [|reflexivity]. cbn [mbind exec_bind].
    rewrite Hfrom. reflexivity.
Qed.
End DenseWire.


Lemma UnmarshalBinary_dense_overlong_witness :
  UnmarshalBinary (fresh 5)
    {| elems := [1; 4; 0; 0] ++ put_be32 1 ++ [17; 17]; spare := [0; 0; 0; 0] |}
  = Panic.
Proof.
  apply (UnmarshalBinary_dense_overlong (fresh 5) 1 4 0 0 1 [17; 17] [0; 0; 0; 0]);
    try (unfold is_u8; simpl; lia).
Defined.

Lemma UnmarshalBinary_short_input_witness :
  UnmarshalBinary (fresh 5)
    {| elems := [1; 4; 0; 0; 0; 0; 0]; spare := [0; 0; 0; 16; 9; 9] |} = Panic.
Proof.
  apply (UnmarshalBinary_short_input (fresh 5)
           {| elems := [1; 4; 0; 0; 0; 0; 0]; spare := [0; 0; 0; 16; 9; 9] |}).
  - simpl. lia.
  - intros d1 [= <-]. vm_compute. split; congruence.
  - right. right. discriminate.
Defined.

(** ** What stays fixed over a sketch's lifetime *)

Section Lifetime.
Context {H : FloatType} {RS : RegisterSet} {H0 : Externals}.

Lemma same_config_refl (s : Sketch) : same_config s s.
Proof. repeat split. Qed.

Lemma same_config_trans (s1 s2 s3 : Sketch) :
  same_config s1 s2 -> same_config s2 s3 -> same_config s1 s3.
Proof. unfold same_config. intros (?&?&?&?) (?&?&?&?). split_and!; congruence. Qed.

Lemma insert_config (s s' : Sketch) (i r : Z) :
  insert s i r = Ok s' ->
  same_config s s' /\ sk_sparse s' = sk_sparse s /\
  sk_tmpSet s' = sk_tmpSet s /\ sk_sparseList s' = sk_sparseList s.
Proof.
  unfold insert. intros Hrun.
  apply bind_Ok in Hrun. destruct Hrun as (s1 & Hstep & Hrun).
  assert (H1 : same_config s s1 /\ sk_sparse s1 = sk_sparse s /\
               sk_tmpSet s1 = sk_tmpSet s /\ sk_sparseList s1 = sk_sparseList s).
  { destruct (capacity <=? u8 (r - sk_b s)); [|injection Hstep as <-; repeat split].
    apply bind_Ok in Hstep. destruct Hstep as (rs & _ & Hstep).
    cbv zeta in Hstep. destruct (0 <? regs_min rs); injection Hstep as <-; repeat split. }
  destruct H1 as (Hc & Hsp & Hts & Hl).
  assert (H2 : same_config s1 s' /\ sk_sparse s' = sk_sparse s1 /\
               sk_tmpSet s' = sk_tmpSet s1 /\ sk_sparseList s' = sk_sparseList s1).
  { destruct (sk_b s1 <? r); [|injection Hrun as <-; repeat split].
    cbv zeta in Hrun.
    apply bind_Ok in Hrun. destruct Hrun as (rs & _ & Hrun).
    apply bind_Ok in Hrun. destruct Hrun as (v & _ & Hrun).
    destruct (v <? _); [|injection Hrun as <-; repeat split].
    apply bind_Ok in Hrun. destruct Hrun as (rs' & _ & Hrun).
    injection Hrun as <-. repeat split. }
  destruct H2 as (Hc' & Hsp' & Hts' & Hl').
  split_and!; [eapply same_config_trans; eauto|congruence..].
Qed.

Lemma mergeSparse_config (s s' : Sketch) :
  mergeSparse s = Ok s' ->
  same_config s s' /\ sk_sparse s' = sk_sparse s /\ sk_b s' = sk_b s /\
  sk_regs s' = sk_regs s /\ set_len (sk_tmpSet s') = 0.
Proof.
  unfold mergeSparse. destruct (Z.eqb_spec (set_len (sk_tmpSet s)) 0) as [Hz|Hnz].
  - intros [= <-]. repeat split. exact Hz.
  - intros Hrun. apply bind_Ok in Hrun. destruct Hrun as (l & _ & Hrun).
    injection Hrun as <-. repeat split.
Qed.

Lemma toNormal_config (s s' : Sketch) :
  toNormal s = Ok s' ->
  same_config s s' /\ sk_sparse s' = false /\
  sk_tmpSet s' = None /\ sk_sparseList s' = None.
Proof.
  unfold toNormal. intros Hrun.
  apply bind_Ok in Hrun. destruct Hrun as (s1 & Hfold & Hrun).
  apply bind_Ok in Hrun. destruct Hrun as (l & _ & Hrun).
  apply bind_Ok in Hrun. destruct Hrun as (s3 & Hloop & Hrun).
  injection Hrun as <-.
  assert (H1 : same_config s s1).
  { destruct (0 <? set_len (sk_tmpSet s)); [|injection Hfold as <-; apply same_config_refl].
    apply mergeSparse_config in Hfold. apply Hfold. }
  assert (H3 : same_config s s3).
  { revert Hloop. apply exec_foldl_inv; [|exact H1].
    intros a k a' Ha Hstep. destruct (decodeHash k (sk_p a) pp) as [i r].
    apply insert_config in Hstep. eapply same_config_trans; [exact Ha|apply Hstep]. }
  repeat split; apply H3.
Qed.

(** X6.  [Insert] and [Estimate] keep the precision, the bucket count, the
    bias constant and the hash member of the sketch, and neither turns a
    dense sketch sparse: the representation changes in one direction
    only. *)
Theorem Insert_Estimate_keep_config (s s' : Sketch) :
  ((exists e, Insert s e = Ok s') \/ (exists n, Estimate s = Ok (n, s'))) ->
  same_config s s' /\ (sk_sparse s = false -> sk_sparse s' = false).
Proof.
  intros [[e Hrun]|[n Hrun]].
  - unfold Insert in Hrun.
    apply bind_Ok in Hrun. destruct Hrun as (x & _ & Hrun).
    destruct (sk_sparse s) eqn:Hsp.
    + apply bind_Ok in Hrun. destruct Hrun as (ts & _ & Hrun).
      cbv zeta in Hrun. split; [|discriminate].
      destruct (_ <? _); [|injection Hrun as <-; repeat split].
      apply bind_Ok in Hrun. destruct Hrun as (s2 & Hfold & Hrun).
      apply bind_Ok in Hrun. destruct Hrun as (l & _ & Hrun).
      apply mergeSparse_config in Hfold. destruct Hfold as (Hc & _).
      destruct (_ <? _).
      * apply toNormal_config in Hrun. destruct Hrun as (Hc' & _).
        eapply same_config_trans; [|exact Hc']. exact Hc.
      * injection Hrun as <-. exact Hc.
    + destruct (getPosVal x (sk_p s)) as [i r].
      apply insert_config in Hrun. destruct Hrun as (Hc & Hsp' & _).
      split; [exact Hc|]. intros _. congruence.
  - unfold Estimate in Hrun. destruct (sk_sparse s) eqn:Hsp.
    + apply bind_Ok in Hrun. destruct Hrun as (s1 & Hfold & Hrun).
      apply bind_Ok in Hrun. destruct Hrun as (l & _ & Hrun).
      injection Hrun as _ <-. split; [|discriminate].
      apply mergeSparse_config in Hfold. apply Hfold.
    + apply bind_Ok in Hrun. destruct Hrun as (rs & _ & Hrun).
      injection Hrun as _ <-. split; [apply same_config_refl|auto].
Qed.

(** X7.  [Estimate] is not a pure read on a sparse sketch: it folds the
    accumulator, leaving it empty, but it never promotes the sketch and
    touches neither the registers nor the bias base.  On a dense sketch it
    changes nothing at all. *)
Theorem Estimate_state (s s' : Sketch) (n : Z) :
  Estimate s = Ok (n, s') ->
  (sk_sparse s = false -> s' = s) /\
  (sk_sparse s = true ->
   sk_sparse s' = true /\ set_len (sk_tmpSet s') = 0 /\
   sk_regs s' = sk_regs s /\ sk_b s' = sk_b s).
Proof.
  unfold Estimate. intros Hrun. destruct (sk_sparse s) eqn:Hsp.
  - apply bind_Ok in Hrun. destruct Hrun as (s1 & Hfold & Hrun).
    apply bind_Ok in Hrun. destruct Hrun as (l & _ & Hrun).
    injection Hrun as _ <-. split; [discriminate|]. intros _.
    apply mergeSparse_config in Hfold.
    destruct Hfold as (_ & Hsp1 & Hb & Hregs & Hlen).
    split_and!; congruence.
  - apply bind_Ok in Hrun. destruct Hrun as (rs & _ & Hrun).
    injection Hrun as _ <-. split; [reflexivity|discriminate].
Qed.

(** X8.  A second [Estimate] returns the number the first one returned and
    leaves the sketch as the first one left it. *)
Theorem Estimate_twice (s s' : Sketch) (n : Z) :
  Estimate s = Ok (n, s') -> Estimate s' = Ok (n, s').
Proof.
  intros Hrun. pose proof Hrun as Hfirst. unfold Estimate in Hrun.
  destruct (sk_sparse s) eqn:Hsp.
  - apply bind_Ok in Hrun. destruct Hrun as (s1 & Hfold & Hrun).
    apply bind_Ok in Hrun. destruct Hrun as (l & Hl & Hrun).
    injection Hrun as <- <-.
    pose proof (mergeSparse_config _ _ Hfold) as (_ & Hsp1 & _ & _ & Hlen).
    unfold Estimate. rewrite Hsp1, Hsp.
    unfold mergeSparse at 1. rewrite Hlen. cbn [Z.eqb mbind exec_bind].
    rewrite Hl. reflexivity.
  - apply bind_Ok in Hrun. destruct Hrun as (rs & _ & Hrun).
    injection Hrun as _ <-. exact Hfirst.
Qed.
End Lifetime.

Lemma Insert_Estimate_keep_config_witness :
  same_config (fresh 4)
    (set_sparseList (fresh 4)
       (Some {| count := 1; cl_last := 264204; cl_bytes := [140; 144; 16] |})) /\
  (sk_sparse (fresh 4) = false ->
   sk_sparse (set_sparseList (fresh 4)
                (Some {| count := 1; cl_last := 264204; cl_bytes := [140; 144; 16] |}))
   = false).
Proof.
  apply (Insert_Estimate_keep_config (fresh 4)).
  left. exists [1; 2; 3; 4; 5; 6; 7; 8]. vm_compute. reflexivity.
Defined.

Lemma Estimate_state_witness :
  exists n s',
    Estimate (set_tmpSet (fresh 10) (Some {[5]})) = Ok (n, s') /\
    sk_sparse s' = true /\ set_len (sk_tmpSet s') = 0 /\
    sk_regs s' = None /\ sk_b s' = 0.
Proof.
  destruct (Estimate (set_tmpSet (fresh 10) (Some {[5]}))) as [[n s']|] eqn:Hrun;
    [|vm_compute in Hrun; discriminate].
  exists n, s'. split; [reflexivity|].
  destruct (Estimate_state _ _ _ Hrun) as [_ Hsparse].
  apply Hsparse. reflexivity.
Defined.

Lemma Estimate_twice_witness :
  exists n s',
    Estimate (set_tmpSet (fresh 10) (Some {[5]})) = Ok (n, s') /\
    Estimate s' = Ok (n, s').
Proof.
  destruct (Estimate (set_tmpSet (fresh 10) (Some {[5]}))) as [[n s']|] eqn:Hrun;
    [|vm_compute in Hrun; discriminate].
  exists n, s'. split; [reflexivity|]. exact (Estimate_twice _ _ _ Hrun).
Defined.

(** ** Merge of dense sketches: order, repetition and the receiver *)

Section MergeAlgebra.
Context {H : FloatType} {RS : RegisterSet} {H0 : Externals}.

Lemma set_regs_same (s : Sketch) (rs : registers) :
  sk_regs s = Some rs -> set_regs s (Some rs) = s.
Proof. intros Hrs. destruct s. cbn in *. subst. reflexivity. Qed.

(** The dense branch in full: result heap, registers, and what they hold. *)
Lemma Merge_dense_result (h : gmap positive Sketch) (sk other : positive)
    (s o : Sketch) (rs ro : registers) :
  sk <> other -> h !! sk = Some s -> h !! other = Some o ->
  sk_p s = sk_p o -> sk_sparse s = false -> sk_sparse o = false ->
  sk_regs s = Some rs -> sk_regs o = Some ro -> regs_wf rs -> regs_wf ro ->
  length (fields ro) = length (fields rs) ->
  2 * Z.of_nat (length (fields rs)) < 2 ^ 32 ->
  exists h' rg,
    Merge h sk (Some other) = Ok (None, h') /\
    h' !! sk = Some (set_regs s (Some rg)) /\ h' !! other = Some o /\
    regs_wf rg /\ length (fields rg) = length (fields rs) /\
    forall j a b, 0 <= j < 2 * Z.of_nat (length (fields rs)) ->
      regs_get rs j = Ok a -> regs_get ro j = Ok b ->
      regs_get rg j = Ok (Z.max a b).
Proof.
  intros Hne Hs Ho Hp Hsp Hspo Hrs Hro Hwfs Hwfo Hlen Hsmall.
  assert (Hinit : merged_upto s rs ro sk h 0).
  { exists rs. split_and!; [|exact Hwfs|reflexivity|].
    - rewrite Hs, (set_regs_same s rs Hrs). reflexivity.
    - intros j a b Hj Ha _. rewrite Ha.
      replace (j <? 2 * Z.of_nat 0) with false by (symmetry; apply Z.ltb_ge; lia).
      reflexivity. }
  destruct (merge_fields_loop sk other s o rs ro (length (fields rs)) 0 h
              Hne Hro Hwfs Hwfo Hlen Hsmall eq_refl Ho Hinit)
    as (h' & Hloop & Ho' & (rg & Hg & Hwfg & Hleng & Hvals)).
  exists h', rg. split_and!; [|exact Hg|exact Ho'|exact Hwfg|exact Hleng|].
  - unfold Merge, deref. rewrite Hs, Ho. cbn [mbind exec_bind].
    rewrite Hp, Z.eqb_refl. cbn [negb]. rewrite Hsp. cbn [mbind exec_bind].
    rewrite Ho. cbn [mbind exec_bind]. rewrite Hspo.
    unfold the_regs. rewrite Hro. cbn [mbind exec_bind].
    rewrite Hlen, Hloop. reflexivity.
  - intros j a b Hj Ha Hb. rewrite (Hvals j a b ltac:(lia) Ha Hb).
    replace (j <? 2 * Z.of_nat (length (fields rs))) with true
      by (symmetry; apply Z.ltb_lt; lia).
    reflexivity.
Qed.


(** X3.  Merging the same dense sketch a second time changes no stored
    value of the receiver. *)
Theorem Merge_dense_again (h : gmap positive Sketch) (sk other : positive)
    (s o : Sketch) (rs ro : registers) :
  sk <> other -> h !! sk = Some s -> h !! other = Some o ->
  sk_p s = sk_p o -> sk_sparse s = false -> sk_sparse o = false ->
  sk_regs s = Some rs -> sk_regs o = Some ro -> regs_wf rs -> regs_wf ro ->
  length (fields ro) = length (fields rs) ->
  2 * Z.of_nat (length (fields rs)) < 2 ^ 32 ->
  exists h1 h2 r1 r2,
    Merge h sk (Some other) = Ok (None, h1) /\
    Merge h1 sk (Some other) = Ok (None, h2) /\
    h1 !! sk = Some (set_regs s (Some r1)) /\
    h2 !! sk = Some (set_regs s (Some r2)) /\
    forall j, 0 <= j < 2 * Z.of_nat (length (fields rs)) ->
              regs_get r2 j = regs_get r1 j.
Proof.
  intros Hne Hs Ho Hp Hsp Hspo Hrs Hro Hwfs Hwfo Hlen Hsmall.
  destruct (Merge_dense_result h sk other s o rs ro) as
    (h1 & r1 & Hm1 & Hg1 & Ho1 & Hwf1 & Hlen1 & Hv1); auto.
  destruct (Merge_dense_result h1 sk other (set_regs s (Some r1)) o r1 ro
              Hne Hg1 Ho1 Hp Hsp Hspo eq_refl Hro Hwf1 Hwfo
              ltac:(congruence) ltac:(rewrite Hlen1; exact Hsmall)) as
    (h2 & r2 & Hm2 & Hg2 & _ & _ & _ & Hv2).
  exists h1, h2, r1, r2. split_and!; auto.
  intros j Hj.
  destruct (regs_get_Ok rs j Hj) as [a Ha].
  destruct (regs_get_Ok ro j ltac:(rewrite Hlen; exact Hj)) as [b Hb].
  pose proof (Hv1 j a b Hj Ha Hb) as H1.
  rewrite (Hv2 j (Z.max a b) b ltac:(rewrite Hlen1; exact Hj) H1 Hb), H1.
  f_equal. lia.
Qed.

Lemma merge_bucket_receiver (sk : positive) (s : Sketch) (g g' : gmap positive Sketch)
    (j v : Z) :
  (exists s', g !! sk = Some s' /\ same_config s s' /\ sk_sparse s' = false) ->
  merge_bucket sk g j v = Ok g' ->
  exists s', g' !! sk = Some s' /\ same_config s s' /\ sk_sparse s' = false.
Proof.
  intros (s0 & Hg & Hc & Hsp) Hrun. unfold merge_bucket in Hrun.
  apply bind_Ok in Hrun. destruct Hrun as (s1 & Hs1 & Hrun).
  apply deref_Ok in Hs1. rewrite Hg in Hs1. injection Hs1 as <-.
  apply bind_Ok in Hrun. destruct Hrun as (rs & _ & Hrun).
  apply bind_Ok in Hrun. destruct Hrun as (cur & _ & Hrun).
  destruct (cur <? v); [|injection Hrun as <-; eauto].
  apply bind_Ok in Hrun. destruct Hrun as (rs' & _ & Hrun).
  injection Hrun as <-. exists (set_regs s0 (Some rs')).
  rewrite lookup_insert_eq. split_and!; [reflexivity|exact Hc|exact Hsp].
Qed.

Lemma merge_entry_receiver (sk other : positive) (s : Sketch)
    (g g' : gmap positive Sketch) (k : Z) :
  (exists s', g !! sk = Some s' /\ same_config s s' /\ sk_sparse s' = false) ->
  merge_entry sk other g k = Ok g' ->
  exists s', g' !! sk = Some s' /\ same_config s s' /\ sk_sparse s' = false.
Proof.
  intros (s0 & Hg & Hc & Hsp) Hrun. unfold merge_entry in Hrun.
  apply bind_Ok in Hrun. destruct Hrun as (o & _ & Hrun).
  destruct (decodeHash k (sk_p o) pp) as [i r].
  apply bind_Ok in Hrun. destruct Hrun as (s1 & Hs1 & Hrun).
  apply deref_Ok in Hs1. rewrite Hg in Hs1. injection Hs1 as <-.
  apply bind_Ok in Hrun. destruct Hrun as (rs & _ & Hrun).
  apply bind_Ok in Hrun. destruct Hrun as (cur & _ & Hrun).
  destruct (cur <? u8 r); [|injection Hrun as <-; eauto].
  apply bind_Ok in Hrun. destruct Hrun as (rs' & _ & Hrun).
  injection Hrun as <-. exists (set_regs s0 (Some rs')).
  rewrite lookup_insert_eq. split_and!; [reflexivity|exact Hc|exact Hsp].
Qed.

Lemma merge_field_receiver (sk other : positive) (s : Sketch)
    (g g' : gmap positive Sketch) (i : nat) :
  (exists s', g !! sk = Some s' /\ same_config s s' /\ sk_sparse s' = false) ->
  merge_field sk other g i = Ok g' ->
  exists s', g' !! sk = Some s' /\ same_config s s' /\ sk_sparse s' = false.
Proof.
  intros Hq Hrun. unfold merge_field in Hrun.
  apply bind_Ok in Hrun. destruct Hrun as (o & _ & Hrun).
  apply bind_Ok in Hrun. destruct Hrun as (ors & _ & Hrun).
  apply bind_Ok in Hrun. destruct Hrun as (v & _ & Hrun).
  apply bind_Ok in Hrun. destruct Hrun as (g1 & H1 & Hrun).
  eapply merge_bucket_receiver; [|exact Hrun].
  eapply merge_bucket_receiver; [exact Hq|exact H1].
Qed.

(** X4.  A [Merge] that returns no error leaves the receiver dense, with
    the precision, bucket count and bias constant it had: a sparse receiver
    is promoted whatever the representation of the argument. *)
Theorem Merge_receiver_dense (h h' : gmap positive Sketch) (sk other : positive)
    (s : Sketch) :
  h !! sk = Some s -> Merge h sk (Some other) = Ok (None, h') ->
  exists s', h' !! sk = Some s' /\ same_config s s' /\ sk_sparse s' = false.
Proof.
  intros Hs Hrun. unfold Merge in Hrun.
  apply bind_Ok in Hrun. destruct Hrun as (s0 & Hs0 & Hrun).
  apply deref_Ok in Hs0. rewrite Hs in Hs0. injection Hs0 as <-.
  apply bind_Ok in Hrun. destruct Hrun as (o & _ & Hrun).
  destruct (negb _); [discriminate|].
  apply bind_Ok in Hrun. destruct Hrun as (h1 & Hprom & Hrun).
  assert (Hq : exists s', h1 !! sk = Some s' /\ same_config s s' /\ sk_sparse s' = false).
  { destruct (sk_sparse s) eqn:Hsp.
    - apply bind_Ok in Hprom. destruct Hprom as (s1 & Hnorm & Hprom).
      injection Hprom as <-. exists s1. rewrite lookup_insert_eq.
      apply toNormal_config in Hnorm. destruct Hnorm as (Hc & Hd & _). auto.
    - injection Hprom as <-. exists s. split_and!; auto. apply same_config_refl. }
  clear Hprom.
  apply bind_Ok in Hrun. destruct Hrun as (o1 & _ & Hrun).
  destruct (sk_sparse o1).
  - apply bind_Ok in Hrun. destruct Hrun as (h2 & Hloop1 & Hrun).
    apply bind_Ok in Hrun. destruct Hrun as (o2 & _ & Hrun).
    apply bind_Ok in Hrun. destruct Hrun as (cl & _ & Hrun).
    apply bind_Ok in Hrun. destruct Hrun as (h3 & Hloop2 & Hrun).
    injection Hrun as <-.
    pose proof (exec_foldl_inv
                  (fun g => exists s', g !! sk = Some s' /\ same_config s s' /\
                                       sk_sparse s' = false)
                  (merge_entry sk other) _
                  (fun a x a' Ha Hf => merge_entry_receiver sk other s a a' x Ha Hf)
                  _ _ Hq Hloop1) as Hq2.
    exact (exec_foldl_inv
             (fun g => exists s', g !! sk = Some s' /\ same_config s s' /\
                                  sk_sparse s' = false)
             (merge_entry sk other) _
             (fun a x a' Ha Hf => merge_entry_receiver sk other s a a' x Ha Hf)
             _ _ Hq2 Hloop2).
  - apply bind_Ok in Hrun. destruct Hrun as (ors & _ & Hrun).
    apply bind_Ok in Hrun. destruct Hrun as (h2 & Hloop & Hrun).
    injection Hrun as <-.
    exact (exec_foldl_inv
             (fun g => exists s', g !! sk = Some s' /\ same_config s s' /\
                                  sk_sparse s' = false)
             (merge_field sk other) _
             (fun a x a' Ha Hf => merge_field_receiver sk other s a a' x Ha Hf)
             _ _ Hq Hloop).
Qed.

(** X5.  Merging a sparse sketch that holds nothing (empty accumulator,
    empty list) into a dense receiver of the same precision changes
    nothing. *)
Theorem Merge_empty_other (h : gmap positive Sketch) (sk other : positive)
    (s o : Sketch) (l : compressedList) :
  h !! sk = Some s -> h !! other = Some o -> sk_p s = sk_p o ->
  sk_sparse s = false -> sk_sparse o = true ->
  sk_tmpSet o = Some ∅ -> sk_sparseList o = Some l -> cl_bytes l = [] ->
  Merge h sk (Some other) = Ok (None, h).
Proof.
  intros Hs Ho Hp Hsp Hspo Hts Hl Hbytes. unfold Merge, deref.
  rewrite Hs, Ho. cbn [mbind exec_bind]. rewrite Hp, Z.eqb_refl. cbn [negb].
  rewrite Hsp. cbn [mbind exec_bind]. rewrite Ho. cbn [mbind exec_bind].
  rewrite Hspo, Hts. cbn [set_keys]. rewrite elements_empty.
  cbn [exec_foldl mbind exec_bind]. rewrite Ho. cbn [mbind exec_bind].
  unfold the_list. rewrite Hl. cbn [mbind exec_bind].
  unfold Iter. rewrite Hbytes. reflexivity.
Qed.
End MergeAlgebra.

Ltac bytes_ok := unfold regs_wf, is_u8; cbn; repeat constructor; lia.

Lemma Merge_dense_takes_stored_max_witness :
  exists h' rg,
    Merge {[1%positive := dense4 1 (240 :: replicate 7 0) 15;
            2%positive := dense4 0 (1 :: replicate 7 0) 15]}
          1%positive (Some 2%positive) = Ok (None, h') /\
    h' !! 1%positive
    = Some (set_regs (dense4 1 (240 :: replicate 7 0) 15) (Some rg)) /\
    h' !! 2%positive = Some (dense4 0 (1 :: replicate 7 0) 15) /\
    forall j, 0 <= j < 2 * Z.of_nat (length (240 :: replicate 7 0)) ->
      exists a b,
        regs_get {| fields := 240 :: replicate 7 0; nz := 15 |} j = Ok a /\
        regs_get {| fields := 1 :: replicate 7 0; nz := 15 |} j = Ok b /\
        regs_get rg j = Ok (Z.max a b).
Proof.
  apply (Merge_dense_takes_stored_max _ 1%positive 2%positive
           (dense4 1 (240 :: replicate 7 0) 15) (dense4 0 (1 :: replicate 7 0) 15)
           {| fields := 240 :: replicate 7 0; nz := 15 |}
           {| fields := 1 :: replicate 7 0; nz := 15 |});
    try reflexivity; try bytes_ok; try discriminate.
Defined.


Lemma Merge_dense_again_witness :
  exists h1 h2 r1 r2,
    Merge {[1%positive := dense4 1 (240 :: replicate 7 0) 15;
            2%positive := dense4 0 (1 :: replicate 7 0) 15]}
          1%positive (Some 2%positive) = Ok (None, h1) /\
    Merge h1 1%positive (Some 2%positive) = Ok (None, h2) /\
    h1 !! 1%positive
    = Some (set_regs (dense4 1 (240 :: replicate 7 0) 15) (Some r1)) /\
    h2 !! 1%positive
    = Some (set_regs (dense4 1 (240 :: replicate 7 0) 15) (Some r2)) /\
    forall j, 0 <= j < 2 * Z.of_nat (length (240 :: replicate 7 0)) ->
              regs_get r2 j = regs_get r1 j.
Proof.
  apply (Merge_dense_again _ 1%positive 2%positive
           (dense4 1 (240 :: replicate 7 0) 15) (dense4 0 (1 :: replicate 7 0) 15)
           {| fields := 240 :: replicate 7 0; nz := 15 |}
           {| fields := 1 :: replicate 7 0; nz := 15 |});
    try reflexivity; try bytes_ok; try discriminate.
Defined.

Lemma Merge_receiver_dense_witness :
  exists s',
    ({[1%positive := dense4 0 (replicate 8 0) 16; 2%positive := fresh 4]}
       : gmap positive Sketch) !! 1%positive = Some s' /\
    same_config (fresh 4) s' /\ sk_sparse s' = false.
Proof.
  apply (Merge_receiver_dense {[1%positive := fresh 4; 2%positive := fresh 4]} _
           1%positive 2%positive (fresh 4)); vm_compute; reflexivity.
Defined.

Lemma Merge_empty_other_witness :
  Merge {[1%positive := dense4 1 (240 :: replicate 7 0) 15; 2%positive := fresh 4]}
        1%positive (Some 2%positive)
  = Ok (None, {[1%positive := dense4 1 (240 :: replicate 7 0) 15;
                2%positive := fresh 4]}).
Proof.
  apply (Merge_empty_other _ 1%positive 2%positive
           (dense4 1 (240 :: replicate 7 0) 15) (fresh 4) (newCompressedList 16));
    reflexivity.
Defined.

(** ** insert and Insert on a dense sketch: true ranks and the invariant *)

Section InsertRank.
Context {H : FloatType} {RS : RegisterSet} {H0 : Externals}.

(** The second statement of [insert] on a dense sketch. *)
Lemma store_step_result (sk1 : Sketch) (rs1 : registers) (i r : Z) :
  sk_regs sk1 = Some rs1 -> regs_wf rs1 -> is_u8 (sk_b sk1) -> is_u8 r ->
  0 <= i < 2 * Z.of_nat (length (fields rs1)) ->
  exists rs',
    store_step sk1 i r = Ok (set_regs sk1 (Some rs')) /\
    regs_wf rs' /\ length (fields rs') = length (fields rs1) /\
    forall j v, 0 <= j -> regs_get rs1 j = Ok v ->
      regs_get rs' j = Ok (if (j =? i) && (sk_b sk1 <? r)
                           then Z.max v (Z.min (r - sk_b sk1) 15) else v).
Proof.
  intros Hrs Hwf Hb Hr Hi. unfold store_step.
  destruct (regs_get_Ok rs1 i Hi) as [vi Hvi].
  assert (Hsame : Ok sk1 = Ok (set_regs sk1 (Some rs1))).
  { destruct sk1. cbn in *. subst. reflexivity. }
  destruct (Z.ltb_spec (sk_b sk1) r) as [Hlt|Hge].
  - replace (u8 (r - sk_b sk1)) with (r - sk_b sk1)
      by (symmetry; apply Z.mod_small; unfold is_u8 in *; lia).
    unfold the_regs. rewrite Hrs. cbn [mbind exec_bind]. rewrite Hvi.
    cbn [mbind exec_bind]. change (capacity - 1) with 15.
    destruct (Z.ltb_spec vi (Z.min (r - sk_b sk1) 15)) as [Hlow|Hhigh].
    + destruct (regs_set_Ok rs1 i (Z.min (r - sk_b sk1) 15) Hi) as [rs2 Hset].
      rewrite Hset. cbn [mbind exec_bind]. exists rs2.
      assert (Hval : 0 <= Z.min (r - sk_b sk1) 15 < 16) by (unfold is_u8 in *; lia).
      assert (Hval8 : is_u8 (Z.min (r - sk_b sk1) 15)) by (unfold is_u8; lia).
      split_and!; [reflexivity|eapply regs_set_wf; eauto|eapply regs_set_length; eauto|].
      intros j v Hj Hv. destruct (Z.eqb_spec j i) as [->|Hji]; cbn [andb].
      * rewrite (regs_set_get_same _ _ _ _ Hwf Hval Hset). f_equal.
        assert (v = vi) by congruence. lia.
      * rewrite (regs_set_get_other _ _ i j _ Hwf Hval) by (auto; lia). exact Hv.
    + exists rs1. split_and!; [exact Hsame|exact Hwf|reflexivity|].
      intros j v Hj Hv. destruct (Z.eqb_spec j i) as [->|Hji]; cbn [andb]; [|exact Hv].
      rewrite Hv. f_equal. assert (v = vi) by congruence. lia.
  - exists rs1. split_and!; [exact Hsame|exact Hwf|reflexivity|].
    intros j v Hj Hv. rewrite andb_false_r. exact Hv.
Qed.

(** [insert] on a dense sketch, both statements together. *)
Lemma insert_result (sk : Sketch) (rs : registers) (i r : Z) :
  sk_regs sk = Some rs -> regs_wf rs -> is_u8 (sk_b sk) -> is_u8 r ->
  0 <= i < 2 * Z.of_nat (length (fields rs)) ->
  let db := if rebase_due (sk_b sk) r then regs_min rs else 0 in
  let b' := u8 (sk_b sk + db) in
  exists sk' rs',
    insert sk i r = Ok sk' /\ sk_regs sk' = Some rs' /\ sk_b sk' = b' /\
    regs_wf rs' /\ length (fields rs') = length (fields rs) /\
    forall j v, 0 <= j -> regs_get rs j = Ok v ->
      0 <= v - db /\
      regs_get rs' j = Ok (if (j =? i) && (b' <? r)
                           then Z.max (v - db) (Z.min (r - b') 15) else v - db).
Proof.
  intros Hrs Hwf Hb Hr Hi db b'.
  destruct (insert_rebase_step sk rs i r Hrs Hwf Hb Hr)
    as (sk1 & rs1 & Hstep & Hrs1 & Hb1 & Hwf1 & Hlen1 & Hget1).
  fold db in Hb1, Hget1. fold b' in Hb1.
  assert (Hb1' : is_u8 (sk_b sk1)) by (rewrite Hb1; apply Z.mod_pos_bound; lia).
  destruct (store_step_result sk1 rs1 i r Hrs1 Hwf1 Hb1' Hr
              ltac:(rewrite Hlen1; exact Hi))
    as (rs' & Hstore & Hwf' & Hlen' & Hget').
  exists (set_regs sk1 (Some rs')), rs'.
  split_and!; [congruence|reflexivity|exact Hb1|exact Hwf'|congruence|].
  intros j v Hj Hv. destruct (Hget1 j v Hj Hv) as [Hv0 Hv1].
  split; [exact Hv0|]. rewrite (Hget' j (v - db) Hj Hv1), Hb1. reflexivity.
Qed.

(** X9.  In terms of true ranks (stored value plus base), [insert] on a
    dense sketch is exact on every bucket but its own: a rebase lowers
    every stored value by what it adds to the base, with no flooring.
    Its own bucket takes the larger of its true rank and the inserted
    rank, the latter cut at 15 above the new base.  The base must have
    room for the rebase. *)
Theorem insert_true_rank (sk : Sketch) (rs : registers) (i r : Z) :
  sk_regs sk = Some rs -> regs_wf rs -> is_u8 (sk_b sk) -> is_u8 r ->
  0 <= i < 2 * Z.of_nat (length (fields rs)) ->
  sk_b sk + regs_min rs <= 255 ->
  exists sk',
    insert sk i r = Ok sk' /\
    forall j, 0 <= j < 2 * Z.of_nat (length (fields rs)) ->
      exists t, unrebased sk j = Ok t /\
        unrebased sk' j
        = Ok (if j =? i then Z.max t (Z.min r (sk_b sk' + 15)) else t).
Proof.
  intros Hrs Hwf Hb Hr Hi Hroom.
  destruct (insert_result sk rs i r Hrs Hwf Hb Hr Hi)
    as (sk' & rs' & Hins & Hrs' & Hb' & Hwf' & Hlen' & Hget).
  pose proof (regs_min_u8 rs Hwf) as Hmin.
  set (db := if rebase_due (sk_b sk) r then regs_min rs else 0) in *.
  assert (Hdb : 0 <= db <= regs_min rs)
    by (subst db; unfold is_u8 in Hmin; destruct (rebase_due _ _); lia).
  assert (Hbase : sk_b sk' = sk_b sk + db).
  { rewrite Hb'. apply Z.mod_small. unfold is_u8 in Hb. lia. }
  exists sk'. split; [exact Hins|]. intros j Hj.
  destruct (regs_get_Ok rs j Hj) as [v Hv].
  destruct (Hget j v ltac:(lia) Hv) as [Hv0 Hv'].
  rewrite <- Hb' in Hv'.
  exists (v + sk_b sk). unfold unrebased, the_regs.
  rewrite Hrs, Hrs'. cbn [mbind exec_bind]. rewrite Hv, Hv'.
  cbn [mbind exec_bind]. split; [reflexivity|]. f_equal.
  destruct (Z.eqb_spec j i) as [->|Hji]; cbn [andb]; [|lia].
  destruct (Z.ltb_spec (sk_b sk') r); lia.
Qed.

(** X10.  A dense sketch that satisfies the representation invariant
    still does after [Insert], which returns whenever the bucket index
    the hash selects is below m. *)
Theorem Insert_dense_valid (s : Sketch) (e : list Z) :
  valid s -> sk_sparse s = false -> sk_hash s = true ->
  u32 (getPosVal (hash e) (sk_p s)).1 < sk_m s ->
  exists s', Insert s e = Ok s' /\ valid s' /\ sk_sparse s' = false.
Proof.
  intros (Hp & Hm & Hb & Halpha & Hrep) Hsp Hhash Hidx.
  rewrite Hsp in Hrep. destruct Hrep as (rs & Hrs & Hwf & Hlen).
  unfold Insert. rewrite Hhash, Hsp. cbn [mbind exec_bind].
  destruct (getPosVal (hash e) (sk_p s)) as [i r]. cbn [fst] in Hidx.
  assert (Hr : is_u8 (u8 r)) by (apply Z.mod_pos_bound; lia).
  assert (Hi : 0 <= u32 i < 2 * Z.of_nat (length (fields rs))).
  { pose proof (Z.mod_pos_bound i (2 ^ 32) ltac:(lia)). unfold u32 in *. lia. }
  destruct (insert_result s rs (u32 i) (u8 r) Hrs Hwf Hb Hr Hi)
    as (s' & rs' & Hins & Hrs' & Hb' & Hwf' & Hlen' & _).
  exists s'. split; [exact Hins|].
  destruct (insert_config _ _ _ _ Hins) as ((Hp' & Hm' & Ha' & _) & Hsp' & _).
  split; [|congruence].
  unfold valid. rewrite Hp', Hm', Ha', Hsp', Hsp.
  split_and!; try assumption; try lia.
  - rewrite Hb'. apply Z.mod_pos_bound. lia.
  - exists rs'. split_and!; [exact Hrs'|exact Hwf'|]. rewrite Hlen'. exact Hlen.
Qed.
End InsertRank.

Lemma insert_true_rank_witness :
  exists sk',
    insert (dense4 2 (241 :: replicate 7 17) 0) 5 30 = Ok sk' /\
    forall j, 0 <= j < 2 * Z.of_nat (length (241 :: replicate 7 17)) ->
      exists t, unrebased (dense4 2 (241 :: replicate 7 17) 0) j = Ok t /\
        unrebased sk' j
        = Ok (if j =? 5 then Z.max t (Z.min 30 (sk_b sk' + 15)) else t).
Proof.
  apply (insert_true_rank (dense4 2 (241 :: replicate 7 17) 0)
           {| fields := 241 :: replicate 7 17; nz := 0 |} 5 30).
  - reflexivity.
  - unfold regs_wf, is_u8. cbn. repeat constructor; lia.
  - unfold is_u8. cbn. lia.
  - unfold is_u8. lia.
  - cbn. lia.
  - vm_compute. discriminate.
Defined.

Lemma Insert_dense_valid_witness :
  exists s', Insert (dense4 0 (replicate 8 0) 16) [1; 2; 3] = Ok s' /\
             valid s' /\ sk_sparse s' = false.
Proof.
  apply (Insert_dense_valid (dense4 0 (replicate 8 0) 16) [1; 2; 3]).
  - unfold valid. cbn. split_and!; try reflexivity; try lia.
    + unfold is_u8. lia.
    + eexists. split_and!; [reflexivity| |reflexivity].
      unfold regs_wf, is_u8. cbn. repeat constructor; lia.
  - reflexivity.
  - reflexivity.
  - vm_compute. reflexivity.
Defined.

(** ** The wire format: the receiver, and encoding what was decoded *)

Section WireMore.
Context {H : FloatType} {RS : RegisterSet} {H0 : Externals}.

(** X14.  [UnmarshalBinary] reads nothing of the receiver: unless the
    precision byte is refused, the outcome (the returned error and the
    state left behind) is the same for every receiver. *)
Theorem UnmarshalBinary_forgets_receiver (recv1 recv2 : Sketch) (data : byteslice)
    (r : option error) (s : Sketch) :
  UnmarshalBinary recv1 data = Ok (r, s) -> r <> Some ErrPrecisionRange ->
  UnmarshalBinary recv2 data = Ok (r, s).
Proof.
  unfold UnmarshalBinary. intros Hrun Hr.
  destruct (index data 0); [|discriminate]. cbn [mbind exec_bind] in *.
  destruct (index data 1) as [d1|]; [|discriminate]. cbn [mbind exec_bind] in *.
  destruct (New (u8 d1)) as [newh|e] eqn:Hnew; [exact Hrun|].
  injection Hrun as <- <-. exfalso. apply Hr. f_equal.
  unfold New in Hnew. destruct (_ || _); [congruence|discriminate].
Qed.

End WireMore.

Lemma UnmarshalBinary_forgets_receiver_witness :
  UnmarshalBinary zero_sketch {| elems := [1; 4; 2; 0; 0; 0; 0; 1; 17]; spare := [] |}
  = Ok (None, dense4 2 [17] 0).
Proof.
  apply (UnmarshalBinary_forgets_receiver (fresh 5) zero_sketch).
  - vm_compute. reflexivity.
  - discriminate.
Defined.


(** ** Merge into a fresh sketch, and of a sparse entry *)

Section MergeMore.
Context {H : FloatType} {RS : RegisterSet} {H0 : Externals}.

Lemma toNormal_fresh (p : Z) :
  toNormal (fresh p)
  = Ok {| sk_regs := Some (newRegisters (2 ^ p)); sk_m := 2 ^ p; sk_p := p;
          sk_b := 0; sk_alpha := alpha (f_of_Z (2 ^ p)); sk_sparse := false;
          sk_sparseList := None; sk_tmpSet := None; sk_hash := true |}.
Proof.
  unfold toNormal, fresh. cbn [sk_tmpSet set_len]. rewrite size_empty. reflexivity.
Qed.

Lemma regs_get_new (size j : Z) :
  0 <= j < 2 * Z.of_nat (length (fields (newRegisters size))) ->
  regs_get (newRegisters size) j = Ok 0.
Proof.
  intros Hj. unfold regs_get, newRegisters in *. cbn [fields] in *.
  rewrite length_replicate in Hj.
  assert (j / 2 < Z.of_nat (Z.to_nat (size / 2))) by (apply Z.div_lt_upper_bound; lia).
  assert (0 <= j / 2) by (apply Z.div_pos; lia).
  rewrite lookup_replicate_2 by lia.
  unfold reg_get. destruct (_ =? 0); reflexivity.
Qed.

(** X16.  Merging a dense sketch into a sketch fresh from [New] (same
    precision) promotes the fresh one and copies every stored value into
    it; its base stays 0, whatever the base of the argument. *)
Theorem Merge_into_fresh (h : gmap positive Sketch) (sk other : positive)
    (o : Sketch) (ro : registers) (p : Z) :
  h !! sk = Some (fresh p) -> h !! other = Some o -> sk_p o = p ->
  sk_sparse o = false -> sk_regs o = Some ro -> regs_wf ro ->
  4 <= p <= 18 -> 2 * Z.of_nat (length (fields ro)) = 2 ^ p ->
  exists h' s',
    Merge h sk (Some other) = Ok (None, h') /\ h' !! sk = Some s' /\
    sk_sparse s' = false /\ sk_b s' = 0 /\
    forall j, 0 <= j < 2 ^ p -> stored s' j = stored o j.
Proof.
  intros Hs Ho Hp Hspo Hro Hwfo Hrange Hlen.
  assert (Hne : sk <> other).
  { intros ->. rewrite Hs in Ho. injection Ho as <-. discriminate. }
  set (d0 := {| sk_regs := Some (newRegisters (2 ^ p)); sk_m := 2 ^ p; sk_p := p;
                sk_b := 0; sk_alpha := alpha (f_of_Z (2 ^ p)); sk_sparse := false;
                sk_sparseList := None; sk_tmpSet := None; sk_hash := true |}).
  assert (Hpow : 2 ^ p <= 2 ^ 18) by (apply Z.pow_le_mono_r; lia).
  assert (Hlen0 : length (fields ro) = length (fields (newRegisters (2 ^ p)))).
  { unfold newRegisters. cbn [fields]. rewrite length_replicate, <- Hlen.
    rewrite Z.mul_comm, Z.div_mul by lia. lia. }
  destruct (Merge_dense_result (<[sk := d0]> h) sk other d0 o
              (newRegisters (2 ^ p)) ro Hne
              ltac:(apply lookup_insert_eq)
              ltac:(rewrite lookup_insert_ne by exact Hne; exact Ho)
              ltac:(symmetry; exact Hp) eq_refl Hspo eq_refl Hro
              (newRegisters_wf _) Hwfo Hlen0 ltac:(rewrite <- Hlen0; lia))
    as (h' & rg & Hm & Hg & _ & _ & _ & Hvals).
  exists h', (set_regs d0 (Some rg)). split_and!; [|exact Hg|reflexivity..|].
  - rewrite <- Hm. unfold Merge, deref.
    rewrite Hs, Ho, lookup_insert_eq, lookup_insert_ne by exact Hne.
    rewrite Ho. subst d0. cbn [sk_p sk_sparse fresh mbind exec_bind].
    rewrite Hp, Z.eqb_refl. cbn [negb].
    change (toNormal _) with (toNormal (fresh p)). rewrite toNormal_fresh.
    cbn [mbind exec_bind]. reflexivity.
  - intros j Hj. unfold stored, the_regs. rewrite Hro.
    cbn [set_regs sk_regs mbind exec_bind].
    destruct (regs_get_Ok ro j ltac:(lia)) as [b Hb].
    pose proof (regs_get_range _ _ _ Hwfo Hb) as Hbr.
    rewrite (Hvals j 0 b ltac:(rewrite <- Hlen0; lia)
               (regs_get_new (2 ^ p) j ltac:(rewrite <- Hlen0; lia)) Hb), Hb.
    f_equal. lia.
Qed.

(** The body of the sparse loops on a dense receiver: the decoded rank
    goes to [set] as it is. *)
Lemma merge_entry_run (sk other : positive) (h : gmap positive Sketch)
    (s o : Sketch) (rs : registers) (k i r cur : Z) :
  h !! other = Some o -> h !! sk = Some s -> sk_regs s = Some rs ->
  decodeHash k (sk_p o) pp = (i, r) -> regs_get rs (u32 i) = Ok cur ->
  merge_entry sk other h k
  = if cur <? u8 r
    then rs' ← regs_set rs (u32 i) (u8 r); Ok (<[sk := set_regs s (Some rs')]> h)
    else Ok h.
Proof.
  intros Ho Hs Hrs Hdec Hcur. unfold merge_entry, deref, the_regs.
  rewrite Ho. cbn [mbind exec_bind]. rewrite Hdec, Hs. cbn [mbind exec_bind].
  rewrite Hrs. cbn [mbind exec_bind]. rewrite Hcur. reflexivity.
Qed.

(** [Merge] with a sparse argument that holds the one entry [k]. *)
Lemma Merge_one_entry (h : gmap positive Sketch) (sk other : positive)
    (s o : Sketch) (rs : registers) (l : compressedList) (k i r cur : Z) :
  h !! sk = Some s -> h !! other = Some o -> sk_p s = sk_p o ->
  sk_sparse s = false -> sk_sparse o = true ->
  sk_tmpSet o = Some {[k]} -> sk_sparseList o = Some l -> cl_bytes l = [] ->
  sk_regs s = Some rs ->
  decodeHash k (sk_p o) pp = (i, r) -> regs_get rs (u32 i) = Ok cur ->
  Merge h sk (Some other)
  = if cur <? u8 r
    then rs' ← regs_set rs (u32 i) (u8 r);
         Ok (None, <[sk := set_regs s (Some rs')]> h)
    else Ok (None, h).
Proof.
  intros Hs Ho Hp Hsp Hspo Hts Hl Hbytes Hrs Hdec Hcur.
  assert (Hne : sk <> other).
  { intros ->. rewrite Hs in Ho. injection Ho as <-. congruence. }
  unfold Merge, deref. rewrite Hs, Ho. cbn [mbind exec_bind].
  rewrite Hp, Z.eqb_refl. cbn [negb]. rewrite Hsp. cbn [mbind exec_bind].
  rewrite Ho. cbn [mbind exec_bind]. rewrite Hspo, Hts. cbn [set_keys].
  rewrite elements_singleton. cbn [exec_foldl].
  rewrite (merge_entry_run sk other h s o rs k i r cur Ho Hs Hrs Hdec Hcur).
  destruct (cur <? u8 r).
  - destruct (regs_set rs (u32 i) (u8 r)) as [rs'|]; [|reflexivity].
    cbn [mbind exec_bind]. rewrite lookup_insert_ne by exact Hne. rewrite Ho.
    cbn [mbind exec_bind]. unfold the_list. rewrite Hl. cbn [mbind exec_bind].
    unfold Iter. rewrite Hbytes. reflexivity.
  - cbn [mbind exec_bind]. rewrite Ho. cbn [mbind exec_bind]. unfold the_list.
    rewrite Hl. cbn [mbind exec_bind]. unfold Iter. rewrite Hbytes. reflexivity.
Qed.

(** C2, evaluated.  The sparse branch of [Merge] hands [set] the decoded
    rank as it is: for an entry whose rank, as a [uint8], is above 15, the
    byte of its bucket becomes what [set] makes of a value outside the
    range of a counter.  [insert] cuts the value at 15 before it stores;
    this branch does not. *)
Theorem Merge_sparse_rank_unclamped (h : gmap positive Sketch) (sk other : positive)
    (s o : Sketch) (rs : registers) (l : compressedList) (k i r byte : Z) :
  h !! sk = Some s -> h !! other = Some o -> sk_p s = sk_p o ->
  sk_sparse s = false -> sk_sparse o = true ->
  sk_tmpSet o = Some {[k]} -> sk_sparseList o = Some l -> cl_bytes l = [] ->
  sk_regs s = Some rs -> decodeHash k (sk_p o) pp = (i, r) ->
  fields rs !! Z.to_nat (u32 i / 2) = Some byte -> is_u8 byte ->
  15 < u8 r ->
  exists h' rs',
    Merge h sk (Some other) = Ok (None, h') /\
    h' !! sk = Some (set_regs s (Some rs')) /\
    fields rs'
    = <[Z.to_nat (u32 i / 2) := u8 (set_wide byte (u32 i mod 2) (u8 r))]> (fields rs).
Proof.
  intros Hs Ho Hp Hsp Hspo Hts Hl Hbytes Hrs Hdec Hbyte Hb8 Hwide.
  pose proof (reg_get_range byte (u32 i mod 2) Hb8) as Hcur.
  rewrite (Merge_one_entry h sk other s o rs l k i r (reg_get byte (u32 i mod 2))
             Hs Ho Hp Hsp Hspo Hts Hl Hbytes Hrs Hdec)
    by (unfold regs_get, reg in *; rewrite Hbyte; reflexivity).
  replace (reg_get byte (u32 i mod 2) <? u8 r) with true
    by (symmetry; apply Z.ltb_lt; lia).
  cbv iota. unfold regs_set, reg in *. rewrite Hbyte. cbn [mbind exec_bind].
  eexists _, _. split_and!; [reflexivity|apply lookup_insert_eq|].
  cbn [fields]. unfold reg_set.
  replace ((0 <=? u8 r) && (u8 r <? 16)) with false; [reflexivity|].
  symmetry. apply andb_false_iff. right. apply Z.ltb_ge. lia.
Qed.

(** X17.  The sparse branch of [Merge], for an argument that holds one
    entry whose decoded rank is at most 15: the bucket takes the larger
    of its stored value and the rank as decoded.  The receiver's base is
    not subtracted from the rank, as [insert] does. *)
Theorem Merge_sparse_entry (h : gmap positive Sketch) (sk other : positive)
    (s o : Sketch) (rs : registers) (l : compressedList) (k i r cur : Z) :
  h !! sk = Some s -> h !! other = Some o -> sk_p s = sk_p o ->
  sk_sparse s = false -> sk_sparse o = true ->
  sk_tmpSet o = Some {[k]} -> sk_sparseList o = Some l -> cl_bytes l = [] ->
  sk_regs s = Some rs -> regs_wf rs ->
  decodeHash k (sk_p o) pp = (i, r) -> regs_get rs (u32 i) = Ok cur ->
  u8 r <= 15 ->
  exists h' rs',
    Merge h sk (Some other) = Ok (None, h') /\
    h' !! sk = Some (set_regs s (Some rs')) /\
    regs_get rs' (u32 i) = Ok (Z.max cur (u8 r)).
Proof.
  intros Hs Ho Hp Hsp Hspo Hts Hl Hbytes Hrs Hwf Hdec Hcur Hr.
  rewrite (Merge_one_entry h sk other s o rs l k i r cur
             Hs Ho Hp Hsp Hspo Hts Hl Hbytes Hrs Hdec Hcur).
  pose proof (regs_get_range rs (u32 i) cur Hwf Hcur) as Hc.
  destruct (Z.ltb_spec cur (u8 r)) as [Hlt|Hge].
  - assert (Hset : exists rs', regs_set rs (u32 i) (u8 r) = Ok rs').
    { unfold regs_get in Hcur. unfold regs_set.
      destruct (fields rs !! Z.to_nat (u32 i / 2)); [eauto|discriminate]. }
    destruct Hset as [rs' Hset]. rewrite Hset. cbn [mbind exec_bind].
    exists (<[sk := set_regs s (Some rs')]> h), rs'.
    split_and!; [reflexivity|apply lookup_insert_eq|].
    rewrite (regs_set_get_same rs rs' (u32 i) (u8 r) Hwf ltac:(lia) Hset).
    f_equal. lia.
  - exists h, rs. split_and!; [reflexivity| |].
    + rewrite Hs, (set_regs_same s rs Hrs). reflexivity.
    + rewrite Hcur. f_equal. lia.
Qed.
End MergeMore.

Lemma Merge_into_fresh_witness :
  exists h' s',
    Merge {[1%positive := fresh 4; 2%positive := dense4 3 (240 :: replicate 7 18) 1]}
          1%positive (Some 2%positive) = Ok (None, h') /\
    h' !! 1%positive = Some s' /\ sk_sparse s' = false /\ sk_b s' = 0 /\
    forall j, 0 <= j < 2 ^ 4 ->
              stored s' j = stored (dense4 3 (240 :: replicate 7 18) 1) j.
Proof.
  apply (Merge_into_fresh _ 1%positive 2%positive
           (dense4 3 (240 :: replicate 7 18) 1)
           {| fields := 240 :: replicate 7 18; nz := 1 |} 4);
    try reflexivity; try lia.
  unfold regs_wf, is_u8. cbn. repeat constructor; lia.
Defined.

Lemma Merge_sparse_rank_unclamped_witness :
  exists h' rs',
    Merge {[1%positive := dense4 0 (replicate 8 0) 16;
            2%positive := set_tmpSet (fresh 4) (Some {[1]})]}
          1%positive (Some 2%positive) = Ok (None, h') /\
    h' !! 1%positive = Some (set_regs (dense4 0 (replicate 8 0) 16) (Some rs')) /\
    fields rs'
    = <[Z.to_nat (u32 0 / 2) := u8 (set_wide 0 (u32 0 mod 2) (u8 21))]> (replicate 8 0).
Proof.
  apply (Merge_sparse_rank_unclamped _ 1%positive 2%positive
           (dense4 0 (replicate 8 0) 16) (set_tmpSet (fresh 4) (Some {[1]}))
           {| fields := replicate 8 0; nz := 16 |} (newCompressedList 16) 1 0 21 0);
    try reflexivity.
  unfold is_u8. lia.
Defined.

Lemma Merge_sparse_entry_witness :
  exists h' rs',
    Merge {[1%positive := dense4 0 (replicate 8 0) 16;
            2%positive := set_tmpSet (fresh 4) (Some {[2097152]})]}
          1%positive (Some 2%positive) = Ok (None, h') /\
    h' !! 1%positive = Some (set_regs (dense4 0 (replicate 8 0) 16) (Some rs')) /\
    regs_get rs' (u32 0) = Ok (Z.max 0 (u8 1)).
Proof.
  apply (Merge_sparse_entry _ 1%positive 2%positive
           (dense4 0 (replicate 8 0) 16) (set_tmpSet (fresh 4) (Some {[2097152]}))
           {| fields := replicate 8 0; nz := 16 |} (newCompressedList 16)
           2097152 0 1 0);
    try reflexivity.
  - unfold regs_wf, is_u8. cbn. repeat constructor; lia.
  - vm_compute. discriminate.
Defined.

(** ** Promotion to the dense representation *)

Lemma exec_foldl_total {A B : Type} (P : A -> Prop) (Q : B -> Prop)
    (f : A -> B -> exec A) (l : list B) :
  Forall Q l ->
  (forall a x, P a -> Q x -> exists a', f a x = Ok a' /\ P a') ->
  forall a, P a -> exists a', exec_foldl f a l = Ok a' /\ P a'.
Proof.
  intros Hl Hstep. induction Hl as [|x l Hx _ IH]; intros a Ha.
  - exists a. split; [reflexivity|exact Ha].
  - destruct (Hstep a x Ha Hx) as (a1 & Hf & Ha1).
    destruct (IH a1 Ha1) as (a' & Hrun & Ha').
    exists a'. cbn [exec_foldl]. rewrite Hf. auto.
Qed.

Section Promote.
Context {H : FloatType} {RS : RegisterSet} {H0 : Externals}.

(** X18.  [toNormal] returns, and leaves a dense sketch that satisfies
    the representation invariant, whenever every entry of the folded list
    decodes to a bucket index below m. *)
Theorem toNormal_valid (s s1 : Sketch) (l : compressedList) :
  4 <= sk_p s <= 18 -> sk_m s = 2 ^ sk_p s -> is_u8 (sk_b s) ->
  sk_alpha s = alpha (f_of_Z (sk_m s)) ->
  mergeSparse s = Ok s1 -> sk_sparseList s1 = Some l ->
  Forall (fun k => u32 (decodeHash k (sk_p s) pp).1 < sk_m s) (Iter l) ->
  exists s', toNormal s = Ok s' /\ valid s' /\ sk_sparse s' = false.
Proof.
  intros Hp Hm Hb Halpha Hfold Hl Hidx.
  destruct (mergeSparse_config _ _ Hfold) as ((Hp1 & Hm1 & Ha1 & _) & _ & Hb1 & _ & _).
  assert (Hfirst : (if 0 <? set_len (sk_tmpSet s) then mergeSparse s else Ok s) = Ok s1).
  { destruct (Z.ltb_spec 0 (set_len (sk_tmpSet s))) as [Hpos|Hzero]; [exact Hfold|].
    rewrite <- Hfold. unfold mergeSparse.
    replace (set_len (sk_tmpSet s) =? 0) with true; [reflexivity|].
    symmetry. apply Z.eqb_eq. unfold set_len in *. destruct (sk_tmpSet s); lia. }
  set (P := fun a : Sketch =>
              sk_p a = sk_p s /\ sk_m a = sk_m s /\ sk_alpha a = sk_alpha s /\
              is_u8 (sk_b a) /\
              exists rs, sk_regs a = Some rs /\ regs_wf rs /\
                         2 * Z.of_nat (length (fields rs)) = sk_m s).
  assert (Hpow : 2 ^ 4 <= 2 ^ sk_p s) by (apply Z.pow_le_mono_r; lia).
  assert (Hinit : P (set_regs s1 (Some (newRegisters (sk_m s1))))).
  { unfold P. cbn [set_regs sk_p sk_m sk_alpha sk_b sk_regs].
    split_and!; [exact Hp1|exact Hm1|exact Ha1|rewrite Hb1; exact Hb|].
    eexists. split_and!; [reflexivity|apply newRegisters_wf|].
    unfold newRegisters. cbn [fields]. rewrite length_replicate, Hm1, Hm.
    assert (Hsplit : 2 ^ sk_p s = 2 ^ (sk_p s - 1) * 2).
    { rewrite Z.mul_comm, <- Z.pow_succ_r by lia. f_equal. lia. }
    rewrite Hsplit, Z.div_mul by lia.
    rewrite Z2Nat.id by (apply Z.pow_nonneg; lia). lia. }
  destruct (exec_foldl_total P
              (fun k => u32 (decodeHash k (sk_p s) pp).1 < sk_m s)
              (fun a k => let '(i, r) := decodeHash k (sk_p a) pp in
                          insert a (u32 i) (u8 r))
              (Iter l) Hidx) with (a := set_regs s1 (Some (newRegisters (sk_m s1))))
    as (s3 & Hloop & Hs3).
  - intros a k (Hpa & Hma & Haa & Hba & rs & Hrs & Hwf & Hlen) Hk.
    rewrite Hpa. destruct (decodeHash k (sk_p s) pp) as [i r]. cbn [fst] in Hk.
    assert (Hr : is_u8 (u8 r)) by (apply Z.mod_pos_bound; lia).
    assert (Hi : 0 <= u32 i < 2 * Z.of_nat (length (fields rs))).
    { pose proof (Z.mod_pos_bound i (2 ^ 32) ltac:(lia)). unfold u32 in *. lia. }
    destruct (insert_result a rs (u32 i) (u8 r) Hrs Hwf Hba Hr Hi)
      as (a' & rs' & Hins & Hrs' & Hb' & Hwf' & Hlen' & _).
    exists a'. split; [exact Hins|].
    destruct (insert_config _ _ _ _ Hins) as ((Hp' & Hm' & Ha' & _) & _).
    unfold P. split_and!; try congruence.
    + rewrite Hb'. apply Z.mod_pos_bound. lia.
    + exists rs'. split_and!; [exact Hrs'|exact Hwf'|]. rewrite Hlen'. exact Hlen.
  - exact Hinit.
  - destruct Hs3 as (Hp3 & Hm3 & Ha3 & Hb3 & rs & Hrs & Hwf & Hlen).
    exists (set_sparseList (set_tmpSet (set_sparse s3 false) None) None).
    split_and!; [|unfold valid|reflexivity].
    + unfold toNormal. rewrite Hfirst. cbn [mbind exec_bind].
      unfold the_list. cbn [set_regs sk_sparseList]. rewrite Hl.
      cbn [mbind exec_bind]. rewrite Hloop. reflexivity.
    + cbn [set_sparseList set_tmpSet set_sparse sk_p sk_m sk_b sk_alpha sk_sparse
             sk_regs].
      rewrite Hp3, Hm3, Ha3. split_and!; try assumption; try lia.
      exists rs. split_and!; assumption.
Qed.
End Promote.

Lemma toNormal_valid_witness :
  exists s', toNormal (set_tmpSet (fresh 4) (Some {[1]})) = Ok s' /\
             valid s' /\ sk_sparse s' = false.
Proof.
  apply (toNormal_valid (set_tmpSet (fresh 4) (Some {[1]}))
           (set_sparseList (fresh 4)
              (Some {| count := 1; cl_last := 1; cl_bytes := [1] |}))
           {| count := 1; cl_last := 1; cl_bytes := [1] |}).
  - change (4 <= 4 <= 18). lia.
  - reflexivity.
  - change (0 <= 0 < 256). lia.
  - reflexivity.
  - vm_compute. reflexivity.
  - reflexivity.
  - change (Forall (fun k => u32 (decodeHash k 4 pp).1 < 16) [1]).
    repeat constructor.
Defined.

(** ** Sparse sketches: the estimate, and truncated input *)

Lemma sorted_NoDup (l : list Z) : StronglySorted Z.lt l -> NoDup l.
Proof.
  induction 1 as [|x l _ IH Hall]; constructor; [|exact IH].
  intros Hx. rewrite Forall_forall in Hall. specialize (Hall x Hx). lia.
Qed.

Section SparseCount.
Context {H : FloatType} {RS : RegisterSet} {H0 : Externals}.

(** X19.  On a sparse sketch [Estimate] depends on the entries only
    through their number: the result is the linear-counting estimate for
    the number of distinct entries of accumulator and list together. *)
Theorem Estimate_sparse_counts (s : Sketch) (ts : gset Z) (l : compressedList)
    (xs : list Z) :
  sk_sparse s = true -> sk_tmpSet s = Some ts -> sk_sparseList s = Some l ->
  cl_holds l xs -> StronglySorted Z.lt xs -> Forall is_u32 xs ->
  exists s',
    Estimate s
    = Ok (f_to_uint64
            (linearCount mp
               (u32 (mp - u32 (Z.of_nat (size (ts ∪ list_to_set xs)))))), s').
Proof.
  intros Hsp Hts Hl Hholds Hsorted Hxs.
  unfold Estimate. rewrite Hsp. unfold mergeSparse. rewrite Hts.
  cbn [set_len set_keys].
  destruct (Z.eqb_spec (Z.of_nat (size ts)) 0) as [Hz|Hnz].
  - assert (ts = ∅) as -> by (apply leibniz_equiv, size_empty_inv; lia).
    cbn [mbind exec_bind]. unfold the_list. rewrite Hl. cbn [mbind exec_bind].
    eexists. do 3 f_equal. destruct Hholds as (_ & _ & ->).
    rewrite (left_id_L ∅ (∪)), size_list_to_set by (apply sorted_NoDup; exact Hsorted).
    reflexivity.
  - unfold the_list. rewrite Hl.
    cbn [mbind exec_bind set_tmpSet set_sparseList sk_sparseList].
    eexists. do 3 f_equal.
    pose proof (merge_loop_holds (Iter l) (merge_sort Z.le (elements ts))
                  (newCompressedList (sk_m s)) [] (newCompressedList_holds _))
      as (_ & _ & ->).
    cbn [app]. rewrite (Iter_holds l xs Hholds Hxs).
    destruct (sorted_keys ts) as [Hks Hkin].
    pose proof (merge_join_sorted _ _ Hsorted Hks) as Hys.
    rewrite <- (size_list_to_set (C := gset Z)) by (apply sorted_NoDup; exact Hys).
    replace (list_to_set (merge_join xs (merge_sort Z.le (elements ts))) : gset Z)
      with (ts ∪ list_to_set xs); [reflexivity|].
    symmetry. apply set_eq. intros x.
    rewrite elem_of_list_to_set, merge_join_elem, Hkin, elem_of_union,
      elem_of_list_to_set.
    tauto.
Qed.

(** X20.  A sparse input that declares more accumulator entries than it
    carries is not reported as an error: the missing entries are read
    from beyond the length where the capacity allows it, and if not
    before then at [data[tsLastByte:]], whose bound is the length, the
    run time panics. *)
Theorem UnmarshalBinary_sparse_truncated (recv : Sketch) (v p b n : Z)
    (body sp : list Z) :
  4 <= p <= 18 -> 0 <= n < 2 ^ 30 - 2 -> Z.of_nat (length body) < 4 * n ->
  UnmarshalBinary recv {| elems := [v; p; b; 1] ++ put_be32 n ++ body; spare := sp |}
  = Panic.
Proof.
  intros Hp Hn Hlen.
  remember ([v; p; b; 1] ++ put_be32 n ++ body) as data eqn:Hdata.
  assert (Hdlen : Z.of_nat (length data) = 8 + Z.of_nat (length body)).
  { subst data. rewrite !length_app, put_be32_length. cbn [length]. lia. }
  unfold UnmarshalBinary.
  replace (index {| elems := data; spare := sp |} 0) with (Ok v)
    by (subst data; reflexivity).
  replace (index {| elems := data; spare := sp |} 1) with (Ok p)
    by (subst data; reflexivity).
  replace (index {| elems := data; spare := sp |} 2) with (Ok b)
    by (subst data; reflexivity).
  replace (index {| elems := data; spare := sp |} 3) with (Ok 1)
    by (subst data; reflexivity).
  cbn [mbind exec_bind].
  replace (u8 p) with p by (symmetry; apply Z.mod_small; lia).
  rewrite (New_in_range p Hp). change (1 =? 1) with true. cbv iota.
  rewrite (slice_at {| elems := data; spare := sp |} [v; p; b; 1] (put_be32 n) body
             4 8 Hdata) by reflexivity.
  cbn [mbind exec_bind].
  rewrite Uint32_put_be32_only by (unfold is_u32; lia).
  cbn [mbind exec_bind].
  replace (u32 (n * 4)) with (4 * n)
    by (rewrite (Z.mul_comm n 4); symmetry; apply Z.mod_small; lia).
  replace (u32 (4 * n + 8)) with (4 * n + 8) by (symmetry; apply Z.mod_small; lia).
  destruct (exec_foldl _ ∅ (key_offsets (4 * n + 8))) as [ts|]; [|reflexivity].
  cbn [mbind exec_bind]. unfold slice_from, window. cbn [elems].
  replace (4 * n + 8 <=? Z.of_nat (length data)) with false
    by (symmetry; apply Z.leb_gt; lia).
  rewrite andb_false_r. reflexivity.
Qed.
End SparseCount.

Lemma Estimate_sparse_counts_witness :
  exists s',
    Estimate (set_tmpSet (fresh 10) (Some {[5]}))
    = Ok (f_to_uint64
            (linearCount mp
               (u32 (mp - u32 (Z.of_nat (size (({[5]} : gset Z) ∪ list_to_set [])))))),
          s').
Proof.
  apply (Estimate_sparse_counts (set_tmpSet (fresh 10) (Some {[5]})) {[5]}
           (newCompressedList (2 ^ 10)) []).
  - reflexivity.
  - reflexivity.
  - reflexivity.
  - apply newCompressedList_holds.
  - constructor.
  - constructor.
Defined.

Lemma UnmarshalBinary_sparse_truncated_witness :
  UnmarshalBinary (fresh 5)
    {| elems := [1; 4; 0; 1] ++ put_be32 2 ++ [0; 0; 0; 7; 0; 0]; spare := [0; 9; 1; 1] |}
  = Panic.
Proof.
  apply (UnmarshalBinary_sparse_truncated (fresh 5) 1 4 0 2 [0; 0; 0; 7; 0; 0]
           [0; 9; 1; 1]);
    simpl; lia.
Defined.
